(** * NeuroM fast IO: section extraction, gap resolution, tree building

    A shallow embedding of [neurom/fst/_io.py]: [extract_sections] with
    [_section_end_points] and [_merge_sections], [SecDataWrapper],
    [make_neurites] and [Neurite.points].

    Python objects that are mutated in place (the [Section] objects held in
    [_sections], the tree nodes) live in an indexed store, and a reference to
    an object is its index in that store, so that aliasing is visible.
    Dictionaries are finite maps, sets are finite sets, and Python integers
    are in [Z].  A raised exception ([KeyError], [IndexError]) is the result
    [None]. *)

From stdpp Require Import gmap list.
From Stdlib Require Import ZArith Lia.

Local Open Scope Z_scope.

(** ** Python helpers *)

(** [for x in l: acc = f(acc, x)], where the body may raise. *)
Fixpoint foldlM {A B : Type} (f : B → A → option B) (b : B) (l : list A) : option B :=
  match l with
  | [] => Some b
  | x :: l' => match f b x with
               | Some b' => foldlM f b' l'
               | None => None
               end
  end.

(** [enumerate(l)], with the positions as Python integers. *)
Definition enumerate {A : Type} (l : list A) : list (Z * A) :=
  imap (λ i x, (Z.of_nat i, x)) l.

(** The position denoted by a Python index [i] in a sequence of length
    [len]: negative indices count from the end, anything else out of range
    raises [IndexError]. *)
Definition py_position (len : nat) (i : Z) : option nat :=
  if decide (0 ≤ i < Z.of_nat len) then Some (Z.to_nat i)
  else if decide (- Z.of_nat len ≤ i < 0) then Some (Z.to_nat (Z.of_nat len + i))
  else None.

(** [l[i]] *)
Definition py_index {A : Type} (l : list A) (i : Z) : option A :=
  match py_position (length l) i with
  | Some n => l !! n
  | None => None
  end.

(** [a[ids]] for a list [ids] of row indices (numpy integer-array indexing). *)
Definition py_take_rows {A : Type} (a : list A) (ids : list Z) : option (list A) :=
  mapM (py_index a) ids.

(** ** Data model *)

Section Model.

(** The entries of the columns x, y, z and radius are floating point numbers;
    they are only copied around, so their type is left open. *)
Context {coord : Type}.

(** Modelled from the spec: the column layout [COLS] of
    [neurom.core.dataformat] is not part of the sources.  A row of the data
    block has the named columns identifier, type tag, x, y, z, radius and
    parent identifier, and its first four columns are x, y, z and radius.
    The columns ID, TYPE and P hold integral values, which the source reads
    through [int(...)]. *)
Record Row := mkRow {
  X : coord;
  Y : coord;
  Z_ : coord;
  R : coord;
  TYPE : Z;
  ID : Z;
  P : Z
}.

(** [row[:4]] *)
Definition xyzr (row : Row) : coord * coord * coord * coord :=
  (X row, Y row, Z_ row, R row).

(** [class Section]: sections ((ids), type, parent_id). *)
Record Sec := mkSec {
  ids : list Z;
  ntype : Z;
  pid : Z
}.

(** [Section()] *)
Definition new_Section : Sec := {| ids := []; ntype := 0; pid := -1 |}.

Definition set_ids (v : list Z) (s : Sec) : Sec :=
  {| ids := v; ntype := ntype s; pid := pid s |}.
Definition set_ntype (v : Z) (s : Sec) : Sec :=
  {| ids := ids s; ntype := v; pid := pid s |}.
Definition set_pid (v : Z) (s : Sec) : Sec :=
  {| ids := ids s; ntype := ntype s; pid := v |}.

(** ** _merge_sections *)

(** [sec_a] and [sec_b] are references into the store [h] of sections; the
    five assignments are performed in the order of the source, each one
    reading the store as the previous ones left it. *)
Definition _merge_sections (sec_a sec_b : nat) (h : list Sec) : option (list Sec) :=
  a ← h !! sec_a; b ← h !! sec_b;
  let h := alter (set_ids (ids a ++ drop 1 (ids b))) sec_b h in
  a ← h !! sec_a;
  let h := alter (set_ntype (ntype a)) sec_b h in
  a ← h !! sec_a;
  let h := alter (set_pid (pid a)) sec_b h in
  let h := alter (set_ids []) sec_a h in
  Some (alter (set_pid (-1)) sec_a h).

(** ** _section_end_points *)

(** [n_children = defaultdict(int)] after the counting loop. *)
Definition count_children (data_block : list Row) : gmap Z Z :=
  foldl (λ n row, <[P row := default 0 (n !! P row) + 1]> n) ∅ data_block.

Definition _section_end_points (data_block : list Row) : gset Z :=
  let n_children := count_children data_block in
  list_to_set
    (omap (λ '(i, row),
             if decide (default 0 (n_children !! ID row) ≠ 1) then Some i else None)
          (enumerate data_block)).

(** ** extract_sections *)

(** [id_map]: SWC ID to array position. *)
Definition make_id_map (data_block : list Row) : gmap Z Z :=
  foldl (λ m '(i, r), <[ID r := i]> m) {[ -1 := -1 ]} (enumerate data_block).

(** The variables of the scanning loop.  [curr_section] is always the last
    element of [_sections]: the list is kept as the sections before it,
    [closed], and [curr_section] itself. *)
Record ScanState := mkScan {
  closed : list Sec;
  curr_section : Sec;
  parent_section : gmap Z Z;
  _gap_sections : gset Z;
  sec_end_pts : gset Z
}.

Definition _sections (st : ScanState) : list Sec :=
  closed st ++ [curr_section st].

Definition scan_init (data_block : list Row) : ScanState :=
  {| closed := [];
     curr_section := new_Section;
     parent_section := {[ -1 := -1 ]};
     _gap_sections := ∅;
     sec_end_pts := _section_end_points data_block |}.

(** [if len(curr_section.ids) == 0:] the first point of a section is the
    parent, and the section takes the type of the row. *)
Definition seed_section (parent_id : Z) (row : Row) (curr : Sec) : Sec :=
  match ids curr with
  | [] => set_ntype (TYPE row) (set_ids [parent_id] curr)
  | _ :: _ => curr
  end.

(** One iteration of [for row in data_block].  With [len] the length of
    [_sections], the index of the current section is [len - 1] before a new
    section is appended and [len - 2] after. *)
Definition scan_row (id_map : gmap Z Z) (st : ScanState) (row : Row) : option ScanState :=
  row_id ← id_map !! ID row;
  parent_id ← id_map !! P row;
  let curr := seed_section parent_id row (curr_section st) in
  (* gap = parent_id != curr_section.ids[-1] *)
  lst ← last (ids curr);
  let gap := bool_decide (parent_id ≠ lst) in
  (* if gap: sec_end_pts.add(row_id) else: curr_section.ids.append(row_id) *)
  let ends := if gap then {[ row_id ]} ∪ sec_end_pts st else sec_end_pts st in
  let curr := if gap then curr else set_ids (ids curr ++ [row_id]) curr in
  if decide (row_id ∈ ends) then
    (* parent_section[curr_section.ids[-1]] = len(_sections) - 1 *)
    lst ← last (ids curr);
    let len := Z.of_nat (length (closed st ++ [curr])) in
    let parents := <[lst := len - 1]> (parent_section st) in
    (* _sections.append(Section()); curr_section = _sections[-1] *)
    let len := Z.of_nat (length ((closed st ++ [curr]) ++ [new_Section])) in
    if gap then
      (* curr_section.ids.extend((parent_id, row_id)); the type of the row;
         _gap_sections.add(len(_sections) - 2) *)
      Some {| closed := closed st ++ [curr];
              curr_section :=
                set_ntype (TYPE row) (set_ids ([] ++ [parent_id; row_id]) new_Section);
              parent_section := parents;
              _gap_sections := {[ len - 2 ]} ∪ _gap_sections st;
              sec_end_pts := ends |}
    else
      Some {| closed := closed st ++ [curr];
              curr_section := new_Section;
              parent_section := parents;
              _gap_sections := _gap_sections st;
              sec_end_pts := ends |}
  else
    Some {| closed := closed st;
            curr_section := curr;
            parent_section := parent_section st;
            _gap_sections := _gap_sections st;
            sec_end_pts := ends |}.

Definition scan (data_block : list Row) : option ScanState :=
  foldlM (scan_row (make_id_map data_block)) (scan_init data_block) data_block.

(** One iteration of [for sec in _sections], [sec] being the section at
    position [i] of the store [h]: the parent is looked up from the first
    point when there is one, and the section is merged with its parent when
    the parent is in the gap set. *)
Definition resolve_section (parents : gmap Z Z) (gaps : gset Z)
    (h : list Sec) (i : nat) : option (list Sec) :=
  sec ← h !! i;
  h ← match ids sec with
      | [] => Some h
      | first :: _ => p ← parents !! first; Some (alter (set_pid p) i h)
      end;
  sec ← h !! i;
  if decide (pid sec ∈ gaps) then
    a ← py_position (length h) (pid sec);
    _merge_sections a i h
  else Some h.

Definition resolve (parents : gmap Z Z) (gaps : gset Z) (h : list Sec) : option (list Sec) :=
  foldlM (resolve_section parents gaps) h (seq 0 (length h)).

Definition extract_sections (data_block : list Row) : option (list Sec) :=
  st ← scan data_block;
  resolve (parent_section st) (_gap_sections st) (_sections st).

(** ** Tables and scan states, for the properties *)

(** The number of rows whose parent is the point with identifier [k]. *)
Definition child_count (data_block : list Row) (k : Z) : nat :=
  length (filter (λ row, P row = k) data_block).

(** The value of [gap] in the iteration of the scan on [row] from the
    state [st]. *)
Definition gap_at (id_map : gmap Z Z) (st : ScanState) (row : Row) : option bool :=
  parent_id ← id_map !! P row;
  lst ← last (ids (seed_section parent_id row (curr_section st)));
  Some (bool_decide (parent_id ≠ lst)).

(** A table without discontinuity: whenever a row with exactly one child is
    followed by another row, that row is its child. *)
Definition contiguous (data_block : list Row) : Prop :=
  ∀ (i : nat) row next,
    data_block !! i = Some row → data_block !! S i = Some next →
    child_count data_block (ID row) = 1%nat → P next = ID row.

(** Row [j] starts a section when it is the first row or follows an end
    point. *)
Definition starts_section (data_block : list Row) (j : nat) : Prop :=
  match j with
  | O => True
  | S j' => Z.of_nat j' ∈ _section_end_points data_block
  end.

(** The state of the scan of a table without discontinuity after [k] rows:
    no end point was added and no gap recorded; the closed sections end, in
    turn, at the end points among the first [k] rows; the current section is
    empty after an end point and ends at the last row read otherwise; and
    every row that starts a section is the second point of a section, after
    its parent. *)
Record scan_inv (data_block : list Row) (k : nat) (st : ScanState) : Prop := {
  inv_ends : sec_end_pts st = _section_end_points data_block;
  inv_gaps : _gap_sections st = ∅;
  inv_lasts :
    (λ s, last (ids s)) <$> closed st
    = Some <$> filter (λ i, i ∈ _section_end_points data_block) (Z.of_nat <$> seq 0 k);
  inv_curr :
    match k with
    | O => ids (curr_section st) = []
    | S k' =>
        if decide (Z.of_nat k' ∈ _section_end_points data_block)
        then ids (curr_section st) = []
        else last (ids (curr_section st)) = Some (Z.of_nat k')
    end;
  inv_starts :
    ∀ (j : nat) row, (j < k)%nat → data_block !! j = Some row →
      starts_section data_block j →
      ∃ s rest parent_id,
        s ∈ closed st ++ [curr_section st]
        ∧ make_id_map data_block !! P row = Some parent_id
        ∧ ids s = parent_id :: Z.of_nat j :: rest
}.

(** A table in which every row comes after its parent: the parent
    identifier of a row is [-1] or the identifier of an earlier row. *)
Definition parents_first (data_block : list Row) : Prop :=
  ∀ (i : nat) row,
    data_block !! i = Some row →
    P row = -1 ∨ ∃ (j : nat) parent,
                   (j < i)%nat ∧ data_block !! j = Some parent ∧ ID parent = P row.

(** What the scan of such a table keeps, after [k] rows, for the resolution
    of the parents: [-1] and the end points read so far are keys of
    [parent_section], and every section starts with one of them. *)
Record keys_inv (data_block : list Row) (k : nat) (st : ScanState) : Prop := {
  keys_root : is_Some (parent_section st !! (-1));
  keys_ends :
    ∀ e : nat, (e < k)%nat → Z.of_nat e ∈ _section_end_points data_block →
      is_Some (parent_section st !! Z.of_nat e);
  keys_firsts :
    ∀ s first rest, s ∈ closed st ++ [curr_section st] → ids s = first :: rest →
      first = -1
      ∨ ∃ e : nat, first = Z.of_nat e ∧ (e < k)%nat
                   ∧ Z.of_nat e ∈ _section_end_points data_block
}.

(** ** Trees and neurites *)

(** The raw type tag of soma points, [POINT_TYPE.SOMA], and the tuple
    [_TREE_TYPES = tuple(NeuriteType)] come from [neurom.core], which is not
    part of the sources: they are parameters of the development. *)
Context {NeuriteType : Type}.
Variable SOMA : Z.
Variable _TREE_TYPES : list NeuriteType.

(** Modelled from the spec: [class Tree] of [neurom.core.tree] is not part of
    the sources.  A tree node holds the point sub-array of one section and
    its children in the order they were attached; [make_neurites] adds the
    attributes [type] and [section_id].  Nodes live in a store (the tuple
    [nodes]); a reference to a node, as held in [children] and in
    [Neurite.root_node], is its position in the store. *)
Record Tree := mkTree {
  value : list Row;
  children : list nat;
  type : option NeuriteType;
  section_id : option Z
}.

(** Modelled from the spec: [Tree(value)], a node without children. *)
Definition new_Tree (v : list Row) : Tree :=
  {| value := v; children := []; type := None; section_id := None |}.

Definition set_value (v : list Row) (t : Tree) : Tree :=
  {| value := v; children := children t; type := type t; section_id := section_id t |}.
Definition set_type (v : NeuriteType) (t : Tree) : Tree :=
  {| value := value t; children := children t; type := Some v; section_id := section_id t |}.
Definition set_section_id (v : Z) (t : Tree) : Tree :=
  {| value := value t; children := children t; type := type t; section_id := Some v |}.

(** Modelled from the spec: [self.add_child(child)] of [class Tree], which
    appends the child to the children. *)
Definition add_child (child : nat) (t : Tree) : Tree :=
  {| value := value t; children := children t ++ [child];
     type := type t; section_id := section_id t |}.

(** Modelled from the spec: [ipreorder] of [neurom.core.tree] is not part of
    the sources.  Depth-first pre-order traversal: a node is visited before
    its children, and the children in the order they were attached.  [stack]
    holds the nodes still to be visited, next one first.  On a cyclic
    structure the traversal does not end; [fuel] bounds the number of visits
    and [None] is returned when it is used up. *)
Fixpoint ipreorder (fuel : nat) (h : list Tree) (stack : list nat) : option (list nat) :=
  match stack with
  | [] => Some []
  | cur_node :: rest =>
      match fuel with
      | O => None
      | S fuel' =>
          t ← h !! cur_node;
          visited ← ipreorder fuel' h (children t ++ rest);
          Some (cur_node :: visited)
      end
  end.

(** [class Neurite] *)
Record Neurite := mkNeurite {
  root_node : nat;
  neurite_type : NeuriteType;
  _points : option (list (coord * coord * coord * coord))
}.

(** [Neurite(root_node)], the node being [h[root]]. *)
Definition Neurite_init (h : list Tree) (root : nat) : option Neurite :=
  t ← h !! root;
  ty ← type t;
  Some {| root_node := root; neurite_type := ty; _points := None |}.

(** The property [Neurite.points]: the result and the neurite with its cache. *)
Definition points (fuel : nat) (h : list Tree) (self : Neurite)
    : option (list (coord * coord * coord * coord) * Neurite) :=
  match _points self with
  | None =>
      order ← ipreorder fuel h [root_node self];
      nodes ← mapM (λ s, h !! s) order;
      let _pts := flat_map (λ s, xyzr <$> drop 1 (value s)) nodes in
      root ← h !! root_node self;
      first ← head (value root);
      let _pts := xyzr first :: _pts in
      Some (_pts, {| root_node := root_node self;
                     neurite_type := neurite_type self;
                     _points := Some _pts |})
  | Some cached => Some (cached, self)
  end.

(** The pre-order of the spec, for the nodes reachable from a sequence
    [roots] of nodes taken in turn: a node comes before the nodes below it,
    the children of a node come in the order they were attached, and all the
    nodes below a child come before the next child.  There is one only when
    the nodes below [roots] form finite trees. *)
Inductive preorder (h : list Tree) : list nat → list nat → Prop :=
  | preorder_nil : preorder h [] []
  | preorder_cons (node : nat) (t : Tree) (rest below after : list nat) :
      h !! node = Some t →
      preorder h (children t) below →
      preorder h rest after →
      preorder h (node :: rest) (node :: below ++ after).

(** The points of a neurite in the words of the spec, [nodes] being the nodes
    of the neurite in pre-order: the trunk contributes all its points, every
    other node all its points except the first, and each point is the row
    restricted to the columns x, y, z and radius, in this order. *)
Definition points_in_preorder (nodes : list Tree) : list (coord * coord * coord * coord) :=
  let columns (row : Row) := (X row, Y row, Z_ row, R row) in
  match nodes with
  | [] => []
  | trunk :: others =>
      (columns <$> value trunk) ++ flat_map (λ s, columns <$> drop 1 (value s)) others
  end.

(** [class SecDataWrapper]; the format name [fmt] is not used here. *)
Record SecDataWrapper := mkRdw {
  data_block : list Row;
  sections : list Sec
}.

(** [SecDataWrapper(data_block, fmt, sections)] *)
Definition SecDataWrapper_init (db : list Row) (secs : option (list Sec))
    : option SecDataWrapper :=
  match secs with
  | Some s => Some {| data_block := db; sections := s |}
  | None => s ← extract_sections db; Some {| data_block := db; sections := s |}
  end.

(** The condition of the comprehension in [neurite_trunks]; [and] evaluates
    its right operand only when the left one holds. *)
Definition is_trunk (sec : list Sec) (ss : Sec) : option bool :=
  if decide (pid ss > -1) then
    parent ← py_index sec (pid ss);
    Some (bool_decide (ntype parent = SOMA) && bool_decide (ntype ss ≠ SOMA))
  else Some false.

Definition neurite_trunks (rdw : SecDataWrapper) : option (list Z) :=
  let sec := sections rdw in
  flagged ← mapM (λ '(i, ss), b ← is_trunk sec ss; Some (i, b)) (enumerate sec);
  Some (fst <$> filter (λ x, snd x = true) flagged).

(** [min(trunks)] for a non-empty list. *)
Definition py_min (l : list Z) : option Z :=
  match l with
  | [] => None
  | x :: l' => Some (foldl Z.min x l')
  end.

(** One iteration of the loop that tags the nodes and connects children to
    parents; [node] is [nodes[i]]. *)
Definition connect_node (rdw : SecDataWrapper) (start_node : Z)
    (nodes : list Tree) (i : nat) : option (list Tree) :=
  sec ← sections rdw !! i;
  ty ← py_index _TREE_TYPES (ntype sec);
  let nodes := alter (set_type ty) i nodes in
  let nodes := alter (set_section_id (Z.of_nat i)) i nodes in
  let parent_id := pid sec in
  if decide (parent_id >= start_node) then
    parent ← py_position (length nodes) parent_id;
    Some (alter (add_child i) parent nodes)
  else Some nodes.

(** [post_action(n.root_node)] on a node of the store. *)
Definition apply_action (post_action : Tree → option Tree)
    (nodes : list Tree) (n : Neurite) : option (list Tree) :=
  t ← nodes !! root_node n;
  t' ← post_action t;
  Some (<[root_node n := t']> nodes).

(** [make_neurites(rdw, post_action)]: the neurites and the store of nodes
    they refer to. *)
Definition make_neurites (rdw : SecDataWrapper) (post_action : option (Tree → option Tree))
    : option (list Neurite * list Tree) :=
  trunks ← neurite_trunks rdw;
  if decide (length trunks = 0%nat) then Some ([], [])
  else
    start_node ← py_min trunks;
    nodes ← mapM (λ sec, new_Tree <$> py_take_rows (data_block rdw) (ids sec)) (sections rdw);
    nodes ← foldlM (connect_node rdw start_node) nodes (seq 0 (length nodes));
    neurites ← mapM (λ i, r ← py_position (length nodes) i; Neurite_init nodes r) trunks;
    nodes ← match post_action with
            | Some action => foldlM (apply_action action) nodes neurites
            | None => Some nodes
            end;
    Some (neurites, nodes).

(** [_remove_soma_initial_point(tree)] *)
Definition _remove_soma_initial_point (tree : Tree) : option Tree :=
  first ← head (value tree);
  if decide (TYPE first = SOMA) then Some (set_value (drop 1 (value tree)) tree)
  else Some tree.


End Model.

Arguments Row : clear implicits.
Arguments ScanState : clear implicits.

Arguments Tree : clear implicits.
Arguments Neurite : clear implicits.
Arguments SecDataWrapper : clear implicits.

(** ** Sample tables *)

(** A row with identifier [id], type tag [type] and parent [p]; the
    coordinates are integers here, x being the identifier. *)
Definition pt (id type p : Z) : Row Z :=
  {| X := id; Y := 0; Z_ := 0; R := 1; TYPE := type; ID := id; P := p |}.

(** A chain of three points and two leaves on its last point. *)
Definition y_branch : list (Row Z) :=
  [pt 0 3 (-1); pt 1 3 0; pt 2 3 1; pt 3 3 2; pt 4 3 2].

(** The rows with the identifiers and parents [links], row [i] having the
    type tag [tag i] and the coordinates and radius [q i]. *)
Definition table_of {coord : Type} (tag : nat → Z) (q : nat → coord * coord * coord * coord)
    (links : list (Z * Z)) : list (Row coord) :=
  imap (λ i '(id, p),
          {| X := (q i).1.1.1; Y := (q i).1.1.2; Z_ := (q i).1.2; R := (q i).2;
             TYPE := tag i; ID := id; P := p |})
       links.

(** The same Y-branch with any type tag [tag i] and any coordinates and
    radius [q i] for row [i]. *)
Definition y_branch_of {coord : Type} (tag : nat → Z) (q : nat → coord * coord * coord * coord)
    : list (Row coord) :=
  table_of tag q [(0, -1); (1, 0); (2, 1); (3, 2); (4, 2)].

(** The Y-branch hanging off a soma: two rows with the soma type tag, at
    any coordinates [qs 0] and [qs 1], the second one the child of the
    first, and then the five rows of the Y-branch, with any type tags and
    coordinates, the first of them a child of the first soma row. *)
Definition soma_y_branch_of {coord : Type} (SOMA : Z)
    (qs : nat → coord * coord * coord * coord)
    (tag : nat → Z) (q : nat → coord * coord * coord * coord) : list (Row coord) :=
  table_of (λ _, SOMA) qs [(0, -1); (1, 0)]
  ++ table_of tag q [(2, 0); (3, 2); (4, 3); (5, 4); (6, 4)].

(** Row 2 does not continue the run of row 1, which row 4 continues. *)
Definition gap_table : list (Row Z) :=
  [pt 0 3 (-1); pt 1 3 0; pt 2 3 0; pt 3 3 2; pt 4 3 1].

(** Every row comes after its parent, and the last row does not continue
    the run of the row before it. *)
Definition last_row_gap : list (Row Z) :=
  [pt 0 3 (-1); pt 1 3 0; pt 2 3 0; pt 3 3 1].

(** Point 2, which has two children, is read at a gap and followed by
    another gap. *)
Definition branch_after_gap : list (Row Z) :=
  [pt 0 3 (-1); pt 1 3 0; pt 2 3 0; pt 3 3 1; pt 4 3 2; pt 5 3 2].

(** A type tuple for the examples ([_TREE_TYPES] itself is
    [tuple(NeuriteType)], which is not part of the sources). *)
Inductive NT := undefined | soma | axon | basal_dendrite | apical_dendrite.
Definition TT : list NT := [undefined; soma; axon; basal_dendrite; apical_dendrite].

(** The Y-branch hanging off a soma of two points. *)
Definition soma_y_branch : list (Row Z) :=
  [pt 0 1 (-1); pt 1 1 0; pt 2 3 0; pt 3 3 2; pt 4 3 3; pt 5 3 4; pt 6 3 4].

(** Soma points only. *)
Definition soma_only : list (Row Z) :=
  [pt 0 1 (-1); pt 1 1 0; pt 2 1 1].

(** A store of two nodes, the second one the child of the first, and the
    neurite of the first node, before and after its points are cached. *)
Definition two_nodes : list (Tree Z NT) :=
  [ {| value := [pt 0 2 (-1); pt 1 2 0]; children := [1%nat];
       type := Some axon; section_id := Some 0 |};
    {| value := [pt 1 2 0; pt 2 2 1]; children := [];
       type := Some axon; section_id := Some 1 |} ].

Definition fresh_neurite : Neurite Z NT :=
  {| root_node := 0; neurite_type := axon; _points := None |}.

Definition cached_neurite (pts : list (Z * Z * Z * Z)) : Neurite Z NT :=
  {| root_node := 0; neurite_type := axon; _points := Some pts |}.

(** The sections of [y_branch], and the first branch. *)
Definition branch_section : Sec := {| ids := [2; 3]; ntype := 3; pid := 0 |}.

Definition y_branch_sections : list Sec :=
  [ {| ids := [-1; 0; 1; 2]; ntype := 3; pid := -1 |};
    branch_section;
    {| ids := [2; 4]; ntype := 3; pid := 0 |};
    {| ids := []; ntype := 0; pid := -1 |} ].

(** Row 1 names a parent that no row has for identifier. *)
Definition unknown_parent : list (Row Z) :=
  [pt 0 3 (-1); pt 1 3 7].

(** The sections of [soma_y_branch]. *)
Definition soma_y_sections : list Sec :=
  [ {| ids := [-1; 0]; ntype := 1; pid := -1 |};
    {| ids := [0; 1]; ntype := 1; pid := 0 |};
    {| ids := [0; 2; 3; 4]; ntype := 3; pid := 0 |};
    {| ids := [4; 5]; ntype := 3; pid := 2 |};
    {| ids := [4; 6]; ntype := 3; pid := 2 |};
    {| ids := []; ntype := 0; pid := -1 |} ].

(** ** Further notions for the properties *)

(** A point index of a table of [n] rows: [-1] or the position of a row. *)
Definition in_table (n : nat) (x : Z) : Prop := -1 ≤ x < Z.of_nat n.

(** What the scan keeps on every table, of [n] rows: no parent is set yet;
    a closed section has two point ids at least and the current one has
    none or two at least; the point ids are point indices of the table; the
    gap set and the values of [parent_section] are indices of closed
    sections, or [-1] for the latter. *)
Record scan_shape (n : nat) (st : ScanState) : Prop := {
  shape_closed :
    ∀ s, s ∈ closed st →
      pid s = -1 ∧ (2 ≤ length (ids s))%nat ∧ Forall (in_table n) (ids s);
  shape_curr :
    pid (curr_section st) = -1
    ∧ (ids (curr_section st) = [] ∨ (2 ≤ length (ids (curr_section st)))%nat)
    ∧ Forall (in_table n) (ids (curr_section st));
  shape_gaps :
    ∀ g, g ∈ _gap_sections st → 0 ≤ g < Z.of_nat (length (closed st));
  shape_parents :
    ∀ e j, parent_section st !! e = Some j → -1 ≤ j < Z.of_nat (length (closed st))
}.

(** What the resolution keeps for a section of a list of [m] sections: it
    has no parent or two point ids at least, its parent is [-1] or an index
    of the list, and its point ids are point indices of the table. *)
Definition resolved_shape (n m : nat) (s : Sec) : Prop :=
  (pid s = -1 ∨ (2 ≤ length (ids s))%nat)
  ∧ -1 ≤ pid s < Z.of_nat m
  ∧ Forall (in_table n) (ids s).

(** A section that the resolution has not visited yet. *)
Definition unresolved_shape (s : Sec) : Prop :=
  pid s = -1 ∧ (ids s = [] ∨ (2 ≤ length (ids s))%nat).

(** The sections attached below node [j] by [make_neurites], in the order
    of the list: those whose parent is [j], when [j] is not before the first
    trunk [start_node]. *)
Definition children_of (secs : list Sec) (start_node : Z) (j : nat) : list nat :=
  filter (λ i, pid <$> secs !! i = Some (Z.of_nat j) ∧ start_node ≤ Z.of_nat j)
         (seq 0 (length secs)).

(** What the scan keeps in [parent_section], on every table: apart from
    the entry [-1: -1] it starts with, a key is the last point of the closed
    section that it is mapped to. *)
Definition parents_linked (st : ScanState) : Prop :=
  ∀ e j, parent_section st !! e = Some j →
    (e = -1 ∧ j = -1)
    ∨ ∃ (i : nat) s, j = Z.of_nat i ∧ closed st !! i = Some s ∧ last (ids s) = Some e.

(** What the scan of a table keeps after [k] rows when every row comes
    after its parent and there is no discontinuity: the keys of
    [parent_section] are [-1] and rows read so far, and the first point of
    every section is mapped to a section before it. *)
Record order_inv (k : nat) (st : ScanState) : Prop := {
  order_keys :
    ∀ e, is_Some (parent_section st !! e) → e = -1 ∨ 0 ≤ e < Z.of_nat k;
  order_sections :
    ∀ (i : nat) s first rest,
      _sections st !! i = Some s → ids s = first :: rest →
      ∃ j, parent_section st !! first = Some j ∧ j < Z.of_nat i
}.

(** A section with point ids has the type tag of the row of its second
    point id, the first point of its own; a section without point ids has
    type 0. *)
Definition typed_by_second_point {coord : Type} (db : list (Row coord)) (s : Sec) : Prop :=
  match ids s with
  | [] => ntype s = 0
  | [_] => False
  | _ :: j :: _ => ∃ (k : nat) r, j = Z.of_nat k ∧ db !! k = Some r ∧ ntype s = TYPE r
  end.

(** Point [b] is the position of a row whose parent, as [id_map] finds it,
    is the point [a]. *)
Definition child_of {coord : Type} (db : list (Row coord)) (a b : Z) : Prop :=
  ∃ (k : nat) r, b = Z.of_nat k ∧ db !! k = Some r ∧ make_id_map db !! P r = Some a.

(** A sequence of points in which every point is linked to the next one. *)
Fixpoint chain (link : Z → Z → Prop) (l : list Z) : Prop :=
  match l with
  | a :: l' => match l' with
               | b :: _ => link a b ∧ chain link l'
               | [] => True
               end
  | [] => True
  end.

(** A section of which only the first point id can be [-1], and only when
    the section has no parent. *)
Definition rows_shape (s : Sec) : Prop :=
  Forall (λ x, -1 ≤ x) (ids s)
  ∧ Forall (λ x, 0 ≤ x) (drop 1 (ids s))
  ∧ (pid s = -1 ∨ Forall (λ x, 0 ≤ x) (ids s)).

(** What the scan keeps once it has closed, at index [idx], the section
    that ends at the point [i]: the section stays at this index,
    [parent_section] maps [i] to it, and it is not in the gap set. *)
Record branch_inv (i : Z) (idx : nat) (st : ScanState) : Prop := {
  branch_closed : ∃ s, closed st !! idx = Some s ∧ last (ids s) = Some i;
  branch_parent : parent_section st !! i = Some (Z.of_nat idx);
  branch_gap : Z.of_nat idx ∉ _gap_sections st
}.

(** A section that starts with the points [i] and [c]. *)
Definition starts_with (i c : Z) (s : Sec) : Prop := ∃ rest, ids s = i :: c :: rest.

(** * Properties *)

(** ** Loops *)

Section Loops.

Context {A B : Type}.
Implicit Types (f : B → A → option B) (l : list A).

Lemma foldlM_app f b l1 l2 :
  foldlM f b (l1 ++ l2) = foldlM f b l1 ≫= λ b', foldlM f b' l2.
Proof.
  revert b. induction l1 as [|x l1 IH]; intros b; simpl; [done|].
  destruct (f b x); simpl; [apply IH|done].
Qed.

(** A loop returns when every iteration does, from the states it can reach. *)
Lemma foldlM_total (Inv : B → Prop) f b l :
  Inv b →
  (∀ b1 x, Inv b1 → x ∈ l → ∃ b2, f b1 x = Some b2 ∧ Inv b2) →
  ∃ b', foldlM f b l = Some b' ∧ Inv b'.
Proof.
  revert b. induction l as [|x l IH]; intros b Hb Hstep; simpl; [eauto|].
  destruct (Hstep b x Hb) as (b1 & -> & Hb1); [left|].
  apply IH; [done|]. intros ? y ? Hy. apply Hstep; [done|by right].
Qed.

Lemma foldlM_snoc f b l x :
  foldlM f b (l ++ [x]) = foldlM f b l ≫= λ b', f b' x.
Proof.
  rewrite foldlM_app. destruct (foldlM f b l); simpl; [|done].
  by destruct (f _ x).
Qed.

Lemma elem_of_snoc (l : list A) (x : A) : x ∈ l ++ [x].
Proof. apply elem_of_app. right. by apply list_elem_of_singleton. Qed.

(** A property kept by every iteration that returns is kept by the loop. *)
Lemma foldlM_invariant (Inv : B → Prop) f b l b' :
  Inv b →
  (∀ b1 x b2, Inv b1 → x ∈ l → f b1 x = Some b2 → Inv b2) →
  foldlM f b l = Some b' → Inv b'.
Proof.
  revert b. induction l as [|x l IH]; intros b Hb Hstep; simpl.
  - by intros [= <-].
  - destruct (f b x) as [b1|] eqn:Hf; [|done].
    apply IH.
    + eapply Hstep; [done|left|done].
    + intros ? y ? ? Hy. apply Hstep; [done|by right].
Qed.

End Loops.

(** ** Gap resolution *)

Section GapResolution.

Implicit Types (h : list Sec).

Lemma merge_sections_distinct (a b : nat) h (sa sb : Sec) :
  a ≠ b → h !! a = Some sa → h !! b = Some sb →
  _merge_sections a b h =
    Some (<[a := {| ids := []; ntype := ntype sa; pid := -1 |}]>
          (<[b := {| ids := ids sa ++ drop 1 (ids sb); ntype := ntype sa; pid := pid sa |}]> h)).
Proof.
  intros Hab Ha Hb. unfold _merge_sections.
  rewrite Ha, Hb. simpl.
  rewrite !list_lookup_alter_ne, Ha by done. simpl.
  rewrite !list_lookup_alter_ne, Ha by done. simpl.
  f_equal. apply list_eq. intros j.
  destruct (decide (j = a)) as [->|Hja].
  - rewrite list_lookup_insert_eq.
    2:{ rewrite length_insert. by apply lookup_lt_Some in Ha. }
    rewrite !list_lookup_alter_eq, !list_lookup_alter_ne, Ha by done.
    by destruct sa.
  - rewrite list_lookup_insert_ne, !list_lookup_alter_ne by done.
    destruct (decide (j = b)) as [->|Hjb].
    + rewrite list_lookup_insert_eq by (by apply lookup_lt_Some in Hb).
      rewrite !list_lookup_alter_eq, Hb. by destruct sb.
    + by rewrite list_lookup_insert_ne, !list_lookup_alter_ne.
Qed.

(** When the two references denote the same section, the section ends up
    disabled. *)
Lemma merge_sections_alias (a : nat) h (sa : Sec) :
  h !! a = Some sa →
  _merge_sections a a h = Some (<[a := {| ids := []; ntype := ntype sa; pid := -1 |}]> h).
Proof.
  intros Ha. unfold _merge_sections. rewrite Ha. simpl.
  rewrite !list_lookup_alter_eq, Ha. simpl.
  rewrite !list_lookup_alter_eq, Ha. simpl.
  f_equal. apply list_eq. intros j.
  destruct (decide (j = a)) as [->|Hja].
  - rewrite list_lookup_insert_eq by (by apply lookup_lt_Some in Ha).
    by rewrite !list_lookup_alter_eq, Ha.
  - by rewrite list_lookup_insert_ne, !list_lookup_alter_ne.
Qed.

(** C1.  In the loop of the gap resolver, take the section [sec] at position
    [i] whose parent section, once looked up from its first point (or left
    as it is when [sec] has no point), is a recorded gap section, [bridge].
    The iteration leaves the store as follows: the section at [i] has the
    point ids of [bridge] followed by those of [sec] without the first one,
    and the type and parent of [bridge]; then the section at the position
    of [bridge] has no point ids and parent [-1]; every other section is as
    it was.  (The second replacement is written last: a section that is its
    own parent ends up disabled.) *)
Theorem merge_gap_bridge (parents : gmap Z Z) (gaps : gset Z) h
    (i a : nat) (sec bridge : Sec) (p : Z) :
  h !! i = Some sec →
  match ids sec with [] => Some (pid sec) | first :: _ => parents !! first end = Some p →
  p ∈ gaps →
  py_position (length h) p = Some a →
  h !! a = Some bridge →
  resolve_section parents gaps h i =
    Some (<[a := {| ids := []; ntype := ntype bridge; pid := -1 |}]>
          (<[i := {| ids := ids bridge ++ drop 1 (ids sec);
                     ntype := ntype bridge;
                     pid := pid bridge |}]> h)).
Proof.
  intros Hi Hp Hgap Hpos Ha.
  pose proof (lookup_lt_Some _ _ _ Hi) as Hlt.
  set (resolved := match ids sec with
                   | [] => h
                   | _ :: _ => alter (set_pid p) i h
                   end).
  assert (Hres : resolve_section parents gaps h i = _merge_sections a i resolved).
  { unfold resolve_section, resolved. rewrite Hi. simpl.
    destruct (ids sec) as [|first rest].
    - injection Hp as <-. simpl. rewrite Hi. simpl.
      rewrite decide_True by done. by rewrite Hpos.
    - rewrite Hp. simpl. rewrite list_lookup_alter_eq, Hi. simpl.
      rewrite decide_True by done. by rewrite length_alter, Hpos. }
  assert (Hsec : ∃ sec', resolved !! i = Some sec' ∧ ids sec' = ids sec ∧ ntype sec' = ntype sec).
  { unfold resolved. destruct (ids sec) eqn:Hids.
    - exists sec. by rewrite Hids.
    - exists (set_pid p sec). by rewrite list_lookup_alter_eq, Hi. }
  destruct Hsec as (sec' & Hi' & Hids' & Hty').
  assert (Hother : ∀ j, j ≠ i → resolved !! j = h !! j).
  { intros j Hj. unfold resolved. destruct (ids sec); [done|].
    by rewrite list_lookup_alter_ne. }
  assert (Hlen : length resolved = length h).
  { unfold resolved. destruct (ids sec); [done|]. by rewrite length_alter. }
  rewrite Hres. destruct (decide (a = i)) as [->|Hne].
  - rewrite (merge_sections_alias i resolved sec' Hi').
    rewrite Hi in Ha. injection Ha as <-. f_equal.
    apply list_eq. intros j. destruct (decide (j = i)) as [->|Hj].
    + rewrite !list_lookup_insert_eq; [by rewrite Hty'| |lia].
      by rewrite length_insert.
    + by rewrite !list_lookup_insert_ne, Hother.
  - rewrite (merge_sections_distinct a i resolved bridge sec'); [|done| |done].
    2:{ by rewrite Hother. }
    rewrite Hids'. f_equal. apply list_eq. intros j.
    destruct (decide (j = a)) as [->|Hja].
    + rewrite !list_lookup_insert_eq; [done| |].
      * rewrite length_insert. by apply lookup_lt_Some in Ha.
      * rewrite length_insert, Hlen. by apply lookup_lt_Some in Ha.
    + rewrite !(list_lookup_insert_ne _ a j) by done.
      destruct (decide (j = i)) as [->|Hji].
      * rewrite !list_lookup_insert_eq; [done|lia|lia].
      * by rewrite !list_lookup_insert_ne, Hother.
Qed.

End GapResolution.

Lemma merge_gap_bridge_witness :
  resolve_section {[ 7 := 0 ]} {[ 0 ]}
    [ {| ids := [3; 7]; ntype := 2; pid := 5 |};
      {| ids := [7; 8; 9]; ntype := 4; pid := -1 |} ] 1
  = Some [ {| ids := []; ntype := 2; pid := -1 |};
           {| ids := [3; 7; 8; 9]; ntype := 2; pid := 5 |} ].
Proof.
  apply (merge_gap_bridge {[ 7 := 0 ]} {[ 0 ]}
           [ {| ids := [3; 7]; ntype := 2; pid := 5 |};
             {| ids := [7; 8; 9]; ntype := 4; pid := -1 |} ] 1%nat 0%nat
           {| ids := [7; 8; 9]; ntype := 4; pid := -1 |}
           {| ids := [3; 7]; ntype := 2; pid := 5 |} 0).
  - reflexivity.
  - reflexivity.
  - set_solver.
  - reflexivity.
  - reflexivity.
Defined.

(** ** The scan *)

Section Scan.

Context {coord : Type}.

Lemma seed_section_nonempty (parent_id : Z) (row : Row coord) (curr : Sec) (lst : Z) :
  last (ids curr) = Some lst → seed_section parent_id row curr = curr.
Proof. unfold seed_section. by destruct (ids curr). Qed.

Lemma seed_section_cons (parent_id : Z) (row : Row coord) (curr : Sec) (x : Z) (l : list Z) :
  ids curr = x :: l → seed_section parent_id row curr = curr.
Proof. unfold seed_section. by intros ->. Qed.

Lemma seed_section_empty (parent_id : Z) (row : Row coord) (curr : Sec) :
  ids curr = [] →
  seed_section parent_id row curr = {| ids := [parent_id]; ntype := TYPE row; pid := pid curr |}.
Proof. unfold seed_section. by intros ->. Qed.

(** There is no gap on an empty current section: it is seeded with the
    parent. *)
Lemma empty_section_no_gap (id_map : gmap Z Z) (st : ScanState) (row : Row coord)
    (parent_id : Z) :
  id_map !! P row = Some parent_id → ids (curr_section st) = [] →
  gap_at id_map st row = Some false.
Proof.
  intros Hp Hids. unfold gap_at. rewrite Hp. simpl.
  rewrite seed_section_empty by done. simpl.
  by rewrite bool_decide_eq_false_2 by tauto.
Qed.

(** C3, as the code has it.  When the parent of a row is not the last point
    of the current section, the iteration closes the current section (it
    becomes the last of the closed ones, unchanged, and is recorded as the
    section ending at its last point), opens a new section holding exactly
    the parent and the row, typed from the row, and adds to the gap set the
    index of the section it has just closed, which is one less than the index
    of the new section. *)
Theorem gap_records_closed_section (id_map : gmap Z Z) (st : ScanState) (row : Row coord)
    (row_id parent_id lst : Z) :
  id_map !! ID row = Some row_id →
  id_map !! P row = Some parent_id →
  last (ids (curr_section st)) = Some lst →
  parent_id ≠ lst →
  scan_row id_map st row =
    Some {| closed := closed st ++ [curr_section st];
            curr_section := {| ids := [parent_id; row_id]; ntype := TYPE row; pid := -1 |};
            parent_section := <[lst := Z.of_nat (length (closed st))]> (parent_section st);
            _gap_sections := {[ Z.of_nat (length (closed st)) ]} ∪ _gap_sections st;
            sec_end_pts := {[ row_id ]} ∪ sec_end_pts st |}.
Proof.
  intros Hid Hp Hlast Hgap. set (closed_index := Z.of_nat (length (closed st))).
  unfold scan_row.
  rewrite Hid, Hp. simpl.
  rewrite (seed_section_nonempty _ _ _ lst Hlast), Hlast. simpl.
  rewrite bool_decide_eq_true_2 by done.
  rewrite decide_True by set_solver.
  rewrite Hlast. simpl.
  rewrite !length_app. simpl.
  replace (Z.of_nat (length (closed st) + 1) - 1) with closed_index by (unfold closed_index; lia).
  replace (Z.of_nat (length (closed st) + 1 + 1) - 2) with closed_index
    by (unfold closed_index; lia).
  done.
Qed.

End Scan.

Lemma gap_records_closed_section_witness :
  scan_row (make_id_map gap_table)
    {| closed := [ {| ids := [-1; 0]; ntype := 3; pid := -1 |} ];
       curr_section := {| ids := [0; 1]; ntype := 3; pid := -1 |};
       parent_section := {[ -1 := -1; 0 := 0 ]};
       _gap_sections := ∅;
       sec_end_pts := {[ 0; 3; 4 ]} |}
    (pt 2 3 0)
  = Some {| closed := [ {| ids := [-1; 0]; ntype := 3; pid := -1 |};
                        {| ids := [0; 1]; ntype := 3; pid := -1 |} ];
            curr_section := {| ids := [0; 2]; ntype := 3; pid := -1 |};
            parent_section := <[ 1 := 1 ]> {[ -1 := -1; 0 := 0 ]};
            _gap_sections := {[ 1 ]} ∪ ∅;
            sec_end_pts := {[ 2 ]} ∪ {[ 0; 3; 4 ]} |}.
Proof.
  refine (gap_records_closed_section (make_id_map gap_table)
           {| closed := [ {| ids := [-1; 0]; ntype := 3; pid := -1 |} ];
              curr_section := {| ids := [0; 1]; ntype := 3; pid := -1 |};
              parent_section := {[ -1 := -1; 0 := 0 ]};
              _gap_sections := ∅;
              sec_end_pts := {[ 0; 3; 4 ]} |}
           (pt 2 3 0) 2 0 1 _ _ _ _).
  - vm_compute. reflexivity.
  - vm_compute. reflexivity.
  - reflexivity.
  - lia.
Defined.

(** The scan of [gap_table] finds one gap, at row 2.  The section it opens
    there, which starts with the points 0 and 2, has index 2; the gap set
    holds index 1 only, the section [[0; 1]] that the gap closed. *)
Lemma gap_set_misses_new_section :
  ∃ st, scan gap_table = Some st
        ∧ _sections st !! 2%nat = Some {| ids := [0; 2; 3]; ntype := 3; pid := -1 |}
        ∧ _sections st !! 1%nat = Some {| ids := [0; 1]; ntype := 3; pid := -1 |}
        ∧ (2 ∉ _gap_sections st)
        ∧ (1 ∈ _gap_sections st).
Proof.
  eexists. split; [vm_compute; reflexivity|].
  split; [reflexivity|]. split; [reflexivity|].
  split; apply (bool_decide_unpack _); vm_compute; exact I.
Qed.

(** ** No points *)

(** C7, as the code has it.  For a data block without rows the list of
    sections holds one section, the one the scan starts with: no point ids,
    type 0 and parent [-1]. *)
Theorem extract_sections_empty_input {coord : Type} :
  extract_sections ([] : list (Row coord)) = Some [ {| ids := []; ntype := 0; pid := -1 |} ].
Proof.
  unfold extract_sections, scan. simpl.
  unfold resolve, _sections. simpl.
  unfold resolve_section. simpl.
  rewrite decide_False; [done|].
  apply not_elem_of_empty.
Qed.

(** The list of sections of the empty table is not empty. *)
Lemma extract_sections_empty_input_not_nil :
  extract_sections ([] : list (Row Z)) ≠ Some [].
Proof. vm_compute. discriminate. Qed.

(** ** Building the neurites *)

Section Builder.

Context {coord NeuriteType : Type}.
Variable SOMA : Z.
Variable _TREE_TYPES : list NeuriteType.

(** C4.  When no section is a trunk, [make_neurites] returns two empty
    sequences, whatever the post-action, and does not raise. *)
Theorem make_neurites_no_trunks (rdw : SecDataWrapper coord)
    (post_action : option (Tree coord NeuriteType → option (Tree coord NeuriteType))) :
  neurite_trunks SOMA rdw = Some [] →
  make_neurites SOMA _TREE_TYPES rdw post_action = Some ([], []).
Proof. intros Htrunks. unfold make_neurites. by rewrite Htrunks. Qed.

(** C6.  Once [points] has returned a value, a further access returns the
    same value and leaves the neurite as it is.  It does so whatever the
    bound on the traversal and whatever the store of nodes, that is without
    traversing again: the value is read from the cache. *)
Theorem points_memoized (fuel : nat) (h : list (Tree coord NeuriteType))
    (self self' : Neurite coord NeuriteType) (pts : list (coord * coord * coord * coord)) :
  points fuel h self = Some (pts, self') →
  _points self' = Some pts
  ∧ ∀ fuel' h', points fuel' h' self' = Some (pts, self').
Proof.
  unfold points. destruct (_points self) as [cached|] eqn:Hcache.
  - intros [= <- <-]. split; [done|]. intros ??. by rewrite Hcache.
  - intros Hrun.
    destruct (ipreorder fuel h [root_node self]) as [order|]; [|done].
    simpl in Hrun. destruct (mapM _ order) as [nodes|]; [|done].
    simpl in Hrun. destruct (h !! root_node self) as [root|]; [|done].
    simpl in Hrun. destruct (head (value root)) as [first|]; [|done].
    simpl in Hrun. injection Hrun as <- <-. done.
Qed.

End Builder.

Lemma make_neurites_no_trunks_witness :
  ∃ rdw, SecDataWrapper_init soma_only None = Some rdw
         ∧ neurite_trunks 1 rdw = Some []
         ∧ make_neurites 1 TT rdw (Some (_remove_soma_initial_point 1)) = Some ([], []).
Proof.
  eexists. split; [vm_compute; reflexivity|].
  split; [vm_compute; reflexivity|].
  apply make_neurites_no_trunks. vm_compute. reflexivity.
Defined.

Lemma points_memoized_witness :
  points 2 two_nodes fresh_neurite
  = Some ([(0, 0, 0, 1); (1, 0, 0, 1); (2, 0, 0, 1)],
          cached_neurite [(0, 0, 0, 1); (1, 0, 0, 1); (2, 0, 0, 1)])
  ∧ _points (cached_neurite [(0, 0, 0, 1); (1, 0, 0, 1); (2, 0, 0, 1)])
    = Some [(0, 0, 0, 1); (1, 0, 0, 1); (2, 0, 0, 1)]
  ∧ ∀ fuel' h',
      points fuel' h' (cached_neurite [(0, 0, 0, 1); (1, 0, 0, 1); (2, 0, 0, 1)])
      = Some ([(0, 0, 0, 1); (1, 0, 0, 1); (2, 0, 0, 1)],
              cached_neurite [(0, 0, 0, 1); (1, 0, 0, 1); (2, 0, 0, 1)]).
Proof.
  split; [vm_compute; reflexivity|].
  apply (points_memoized 2 two_nodes fresh_neurite). vm_compute. reflexivity.
Defined.

Section Nodes.

Context {coord NeuriteType : Type}.
Variable SOMA : Z.
Variable _TREE_TYPES : list NeuriteType.
Implicit Types (rdw : SecDataWrapper coord) (nodes : list (Tree coord NeuriteType)).

Lemma py_position_of_nat (len k : nat) (r : nat) :
  py_position len (Z.of_nat k) = Some r → r = k ∧ (k < len)%nat.
Proof.
  unfold py_position. repeat case_decide; intros [= <-]; lia.
Qed.

Lemma lookup_enumerate {A : Type} (l : list A) (k : nat) (i : Z) (x : A) :
  enumerate l !! k = Some (i, x) ↔ i = Z.of_nat k ∧ l !! k = Some x.
Proof.
  unfold enumerate. rewrite list_lookup_imap.
  destruct (l !! k); simpl; split.
  - by intros [= <- <-].
  - by intros [-> [= ->]].
  - done.
  - by intros [_ ?].
Qed.

(** A trunk is the position of a section that has a parent and is not of
    soma type. *)
Lemma neurite_trunks_inv rdw (trunks : list Z) (i : Z) :
  neurite_trunks SOMA rdw = Some trunks → i ∈ trunks →
  ∃ (k : nat) ss, i = Z.of_nat k ∧ sections rdw !! k = Some ss
                  ∧ pid ss > -1 ∧ ntype ss ≠ SOMA.
Proof.
  unfold neurite_trunks. intros Hrun Hi.
  destruct (mapM _ _) as [flagged|] eqn:Hmap; [|done].
  simpl in Hrun. injection Hrun as <-.
  apply list_elem_of_fmap in Hi as ([i' b] & -> & Hin).
  apply list_elem_of_filter in Hin as [Hb Hin]. simpl in Hb. subst b.
  apply mapM_Some_1 in Hmap.
  apply list_elem_of_lookup in Hin as [k Hk].
  destruct (Forall2_lookup_r _ _ _ _ _ Hmap Hk) as ([j ss] & Hl & Hflag).
  apply lookup_enumerate in Hl as [-> Hss].
  unfold is_trunk in Hflag. case_decide as Hpid; simpl in Hflag; [|done].
  destruct (py_index _ _) as [parent|]; [|done]. simpl in Hflag.
  injection Hflag as <- Hflag.
  apply andb_true_iff in Hflag as [_ Hty%bool_decide_eq_true].
  by exists k, ss.
Qed.

Lemma connect_node_inv rdw (start_node : Z) nodes nodes' (i : nat) :
  connect_node _TREE_TYPES rdw start_node nodes i = Some nodes' →
  length nodes' = length nodes
  ∧ ∀ j nd, nodes !! j = Some nd →
      ∃ nd', nodes' !! j = Some nd' ∧ value nd' = value nd
             ∧ section_id nd' = (if decide (j = i) then Some (Z.of_nat i) else section_id nd).
Proof.
  unfold connect_node. intros Hrun.
  destruct (sections rdw !! i) as [sec|]; [|done]. simpl in Hrun.
  destruct (py_index _ _) as [ty|]; [|done]. simpl in Hrun.
  set (tagged := alter (set_section_id (Z.of_nat i)) i (alter (set_type ty) i nodes)) in *.
  assert (Htagged : ∀ j nd, nodes !! j = Some nd →
            ∃ nd', tagged !! j = Some nd' ∧ value nd' = value nd
                   ∧ section_id nd' = (if decide (j = i) then Some (Z.of_nat i) else section_id nd)).
  { intros j nd Hj. unfold tagged. destruct (decide (j = i)) as [->|Hne].
    - rewrite !list_lookup_alter_eq, Hj. simpl. eauto.
    - rewrite !list_lookup_alter_ne by done. eauto. }
  assert (Hlen : length tagged = length nodes) by (unfold tagged; by rewrite !length_alter).
  case_decide.
  - destruct (py_position _ _) as [parent|]; [|done]. simpl in Hrun.
    injection Hrun as <-. split; [by rewrite length_alter|].
    intros j nd Hj. destruct (Htagged j nd Hj) as (nd' & Hj' & Hv & Hs).
    destruct (decide (parent = j)) as [->|Hne].
    + rewrite list_lookup_alter_eq, Hj'. simpl. eauto.
    + rewrite list_lookup_alter_ne by done. eauto.
  - injection Hrun as <-. done.
Qed.

Lemma connect_nodes_inv rdw (start_node : Z) nodes nodes' (n : nat) :
  foldlM (connect_node _TREE_TYPES rdw start_node) nodes (seq 0 n) = Some nodes' →
  length nodes' = length nodes
  ∧ ∀ j nd, nodes !! j = Some nd →
      ∃ nd', nodes' !! j = Some nd' ∧ value nd' = value nd
             ∧ section_id nd' = (if decide (j < n)%nat then Some (Z.of_nat j) else section_id nd).
Proof.
  revert nodes'. induction n as [|n IH]; intros nodes'.
  - intros Hrun. simpl in Hrun. injection Hrun as <-.
    split; [done|]. intros j nd Hj. exists nd. by rewrite decide_False by lia.
  - rewrite seq_S, foldlM_snoc. intros Hstep.
    destruct (foldlM _ nodes (seq 0 n)) as [mid|]; [|done]. simpl in Hstep. destruct (IH mid eq_refl) as [Hlen Hmid].
    apply connect_node_inv in Hstep as [Hlen' Hstep].
    split; [congruence|]. intros j nd Hj.
    destruct (Hmid j nd Hj) as (nd1 & Hj1 & Hv1 & Hs1).
    destruct (Hstep j nd1 Hj1) as (nd2 & Hj2 & Hv2 & Hs2).
    exists nd2. split; [done|]. split; [congruence|].
    rewrite Hs2, Hs1. repeat case_decide; try done; try lia. by subst.
Qed.

Lemma apply_action_length (action : Tree coord NeuriteType → option (Tree coord NeuriteType))
    nodes nodes' (n : Neurite coord NeuriteType) :
  apply_action action nodes n = Some nodes' → length nodes' = length nodes.
Proof.
  unfold apply_action. destruct (nodes !! root_node n); [|done]. simpl.
  destruct (action _); [|done]. simpl. intros [= <-]. apply length_insert.
Qed.

(** C2, as the code has it.  When [make_neurites] finds a trunk, it returns
    one node for every section of the list, whether the section has point
    ids or not: the sequence of all nodes is as long as the list of sections
    and, without a post-action, its node [i] carries the section identifier
    [i] and the rows that the point ids of section [i] select, none for a
    section without point ids.  Only the trunks are selected: every neurite
    is rooted at the node of a section that has a parent ([pid > -1]). *)
Theorem make_neurites_one_node_per_section rdw
    (post_action : option (Tree coord NeuriteType → option (Tree coord NeuriteType)))
    (neurites : list (Neurite coord NeuriteType)) nodes :
  make_neurites SOMA _TREE_TYPES rdw post_action = Some (neurites, nodes) →
  neurite_trunks SOMA rdw ≠ Some [] →
  length nodes = length (sections rdw)
  ∧ (∀ n, n ∈ neurites →
       ∃ ss, sections rdw !! root_node n = Some ss ∧ pid ss > -1)
  ∧ (post_action = None →
       ∀ i ss, sections rdw !! i = Some ss →
         ∃ nd, nodes !! i = Some nd
               ∧ section_id nd = Some (Z.of_nat i)
               ∧ py_take_rows (data_block rdw) (ids ss) = Some (value nd)).
Proof.
  unfold make_neurites. intros Hrun Htrunks.
  destruct (neurite_trunks SOMA rdw) as [trunks|] eqn:Htr; [|done]. simpl in Hrun.
  case_decide as Hlen; [by destruct trunks|].
  destruct (py_min trunks) as [start_node|]; [|done]. simpl in Hrun.
  destruct (mapM _ (sections rdw)) as [nodes0|] eqn:Hnodes0; [|done]. simpl in Hrun.
  destruct (foldlM _ nodes0 _) as [nodes1|] eqn:Hnodes1; [|done]. simpl in Hrun.
  destruct (mapM _ trunks) as [neurites'|] eqn:Hneurites; [|done]. simpl in Hrun.
  apply connect_nodes_inv in Hnodes1 as [Hlen1 Hnodes1].
  pose proof (length_mapM _ _ _ Hnodes0) as Hlen0.
  apply mapM_Some_1 in Hnodes0.
  assert (Hroots : ∀ n, n ∈ neurites' →
            ∃ ss, sections rdw !! root_node n = Some ss ∧ pid ss > -1).
  { intros n Hn. apply mapM_Some_1 in Hneurites.
    apply list_elem_of_lookup in Hn as [k Hk].
    destruct (Forall2_lookup_r _ _ _ _ _ Hneurites Hk) as (i & Hi & Hinit).
    destruct (py_position _ i) as [r|] eqn:Hpos; [|done]. simpl in Hinit.
    destruct (neurite_trunks_inv rdw trunks i Htr) as (r' & ss & -> & Hss & Hpid & _).
    { apply list_elem_of_lookup. eauto. }
    apply py_position_of_nat in Hpos as [-> _].
    unfold Neurite_init in Hinit.
    destruct (nodes1 !! r'); [|done]. simpl in Hinit.
    destruct (type _); [|done]. injection Hinit as <-. simpl. eauto. }
  destruct post_action as [action|].
  - destruct (foldlM _ nodes1 neurites') as [nodes2|] eqn:Hact; [|done]. simpl in Hrun.
    injection Hrun as <- <-. split; [|split; [done|done]].
    assert (length nodes2 = length nodes1) as ->; [|congruence].
    revert Hact. apply (foldlM_invariant (λ nodes, length nodes = length nodes1)); [done|].
    intros ??? <- _. apply apply_action_length.
  - simpl in Hrun. injection Hrun as <- <-. split; [congruence|]. split; [done|].
    intros _ i ss Hss.
    destruct (Forall2_lookup_l _ _ _ _ _ Hnodes0 Hss) as (nd0 & Hnd0 & Hrows).
    destruct (Hnodes1 i nd0 Hnd0) as (nd & Hnd & Hv & Hs).
    exists nd. split; [done|]. split.
    + rewrite Hs. rewrite decide_True; [done|].
      apply lookup_lt_Some in Hnd0. lia.
    + rewrite Hv. destruct (py_take_rows _ _); [|done].
      simpl in Hrows. by injection Hrows as <-.
Qed.

End Nodes.

Lemma make_neurites_one_node_per_section_witness :
  ∃ rdw neurites nodes,
    SecDataWrapper_init soma_y_branch None = Some rdw
    ∧ make_neurites 1 TT rdw None = Some (neurites, nodes)
    ∧ length nodes = length (sections rdw).
Proof.
  eexists {| data_block := soma_y_branch; sections := _ |}.
  do 2 eexists. split; [vm_compute; reflexivity|].
  split; [vm_compute; reflexivity|].
  refine (proj1 (make_neurites_one_node_per_section 1 TT _ None _ _ _ _)).
  - vm_compute. reflexivity.
  - vm_compute. discriminate.
Defined.

(** The sections of [soma_y_branch] end with a section without point ids,
    at index 5, and the nodes that [make_neurites] returns have a node for
    it: node 5, without rows and with section identifier 5. *)
Lemma node_of_section_without_points :
  ∃ rdw neurites nodes nd ss,
    SecDataWrapper_init soma_y_branch None = Some rdw
    ∧ make_neurites 1 TT rdw None = Some (neurites, nodes)
    ∧ nodes !! 5%nat = Some nd ∧ section_id nd = Some 5 ∧ value nd = []
    ∧ sections rdw !! 5%nat = Some ss ∧ ids ss = [].
Proof.
  eexists {| data_block := soma_y_branch; sections := _ |}.
  do 4 eexists. split; [vm_compute; reflexivity|].
  split; [vm_compute; reflexivity|].
  repeat split; reflexivity.
Qed.

(** ** The points of a neurite *)

Section Points.

Context {coord NeuriteType : Type}.
Implicit Types (h : list (Tree coord NeuriteType)) (stack order : list nat).

Lemma preorder_app h stack1 stack2 order1 order2 :
  preorder h stack1 order1 → preorder h stack2 order2 →
  preorder h (stack1 ++ stack2) (order1 ++ order2).
Proof.
  intros H1 H2. induction H1 as [|node t rest below after Hnode Hbelow _ _ IH]; [done|].
  simpl. rewrite <- app_assoc. by econstructor.
Qed.

(** With a bound that covers the nodes to visit, the traversal returns them
    in pre-order. *)
Lemma ipreorder_preorder (fuel : nat) h stack order :
  preorder h stack order → (length order ≤ fuel)%nat →
  ipreorder fuel h stack = Some order.
Proof.
  revert stack order. induction fuel as [|fuel IH]; intros stack order Hpre Hlen.
  - destruct Hpre; [done|]. simpl in Hlen. lia.
  - destruct Hpre as [|node t rest below after Hnode Hbelow Hafter]; [done|].
    simpl. rewrite Hnode. simpl.
    rewrite (IH (children t ++ rest) (below ++ after)).
    + done.
    + by apply preorder_app.
    + simpl in Hlen. lia.
Qed.

Lemma preorder_nodes h stack order :
  preorder h stack order →
  ∃ nodes, mapM (λ s, h !! s) order = Some nodes.
Proof.
  intros Hpre. apply mapM_is_Some. apply Forall_forall.
  induction Hpre as [|node t rest below after Hnode _ IH1 _ IH2].
  - intros ? []%elem_of_nil.
  - intros x [->|[Hx|Hx]%elem_of_app]%elem_of_cons; simpl.
    + eauto.
    + by apply IH1.
    + by apply IH2.
Qed.

(** C5.  Take a neurite whose points are not cached yet, whose trunk has at
    least one point and below whose trunk the nodes form a finite tree, so
    that they have a pre-order [order].  With a bound that covers these
    nodes, [points] returns, and its value is, with [nodes] the nodes of
    [order]: the rows of the trunk, then, for each other node in turn, its
    rows but the first, every row cut to x, y, z and radius. *)
Theorem points_preorder (fuel : nat) h (self : Neurite coord NeuriteType)
    (trunk : Tree coord NeuriteType) order :
  _points self = None →
  h !! root_node self = Some trunk →
  value trunk ≠ [] →
  preorder h [root_node self] order →
  (length order ≤ fuel)%nat →
  ∃ nodes,
    Forall2 (λ s t, h !! s = Some t) order nodes
    ∧ head nodes = Some trunk
    ∧ fst <$> points fuel h self = Some (points_in_preorder nodes).
Proof.
  intros Hcache Htrunk Hvalue Hpre Hfuel.
  destruct (preorder_nodes h _ _ Hpre) as [nodes Hnodes].
  exists nodes. split; [by apply mapM_Some_1|].
  unfold points. rewrite Hcache, (ipreorder_preorder fuel h _ order Hpre Hfuel).
  simpl. rewrite Hnodes. simpl. rewrite Htrunk. simpl.
  inversion Hpre as [|node t rest below after Hnode Hbelow Hafter]; subst.
  simpl in Hnodes. rewrite Htrunk in Hnodes. simpl in Hnodes.
  destruct (mapM _ (below ++ after)) as [others|]; [|done].
  simpl in Hnodes. injection Hnodes as <-.
  split; [done|].
  destruct (value trunk) as [|first rows] eqn:Hrows; [done|].
  simpl. rewrite Hrows. simpl. by rewrite drop_0.
Qed.

End Points.

Lemma points_preorder_witness :
  ∃ nodes,
    Forall2 (λ s t, two_nodes !! s = Some t) [0%nat; 1%nat] nodes
    ∧ head nodes = two_nodes !! 0%nat
    ∧ fst <$> points 2 two_nodes fresh_neurite = Some (points_in_preorder nodes).
Proof.
  refine (points_preorder 2 two_nodes fresh_neurite _ [0%nat; 1%nat] _ _ _ _ _).
  - reflexivity.
  - reflexivity.
  - discriminate.
  - apply (preorder_cons two_nodes 0 _ [] [1%nat] [] eq_refl).
    + apply (preorder_cons two_nodes 1 _ [] [] [] eq_refl); constructor.
    + constructor.
  - simpl. lia.
Defined.

(** ** The Y-branch *)

Lemma y_branch_instance :
  y_branch = y_branch_of (λ _, 3) (λ i, (Z.of_nat i, 0, 0, 1))
  ∧ soma_y_branch
    = soma_y_branch_of 1 (λ i, (Z.of_nat i, 0, 0, 1)) (λ _, 3)
        (λ i, (Z.of_nat (i + 2), 0, 0, 1)).
Proof. split; reflexivity. Qed.

(** The Y-branch table [y_branch] gives a list of four sections, not three,
    and no neurite: wrapped without sections, so that they are extracted, it
    has no trunk, and [make_neurites] returns two empty sequences. *)
Lemma y_branch_four_sections_no_trunk :
  (length <$> extract_sections y_branch) = Some 4%nat
  ∧ (SecDataWrapper_init y_branch None ≫= neurite_trunks 1) = Some []
  ∧ (SecDataWrapper_init y_branch None ≫= λ rdw, make_neurites 1 TT rdw None)
    = Some ([], []).
Proof. repeat split; vm_compute; reflexivity. Qed.

(** ** Identifiers, children and end points *)

Section Tables.

Context {coord : Type}.
Implicit Types (db front : list (Row coord)) (r : Row coord).

Lemma enumerate_snoc {A : Type} (l : list A) (x : A) :
  enumerate (l ++ [x]) = enumerate l ++ [(Z.of_nat (length l), x)].
Proof.
  unfold enumerate. rewrite imap_app. simpl. by rewrite Nat.add_0_r.
Qed.

Lemma make_id_map_snoc front r :
  make_id_map (front ++ [r]) = <[ID r := Z.of_nat (length front)]> (make_id_map front).
Proof. unfold make_id_map. by rewrite enumerate_snoc, foldl_app. Qed.

(** The position of the last row is the one recorded for its identifier. *)
Lemma make_id_map_last front r :
  make_id_map (front ++ [r]) !! ID r = Some (Z.of_nat (length front)).
Proof. rewrite make_id_map_snoc. apply lookup_insert_eq. Qed.

(** With distinct identifiers, [id_map] sends the identifier of each row to
    the position of the row. *)
Lemma make_id_map_lookup db (i : nat) r :
  NoDup (ID <$> db) → db !! i = Some r →
  make_id_map db !! ID r = Some (Z.of_nat i).
Proof.
  revert i r. induction db as [|r' front IH] using rev_ind; intros i r Hnd Hi; [done|].
  rewrite fmap_app in Hnd. apply NoDup_app in Hnd as (Hnd & Hfresh & _).
  rewrite make_id_map_snoc.
  destruct (decide (i = length front)) as [->|Hne].
  - rewrite list_lookup_middle in Hi by done. injection Hi as <-. apply lookup_insert_eq.
  - assert (Hi' : front !! i = Some r).
    { rewrite lookup_app_l in Hi; [done|].
      apply lookup_lt_Some in Hi. rewrite length_app in Hi. simpl in Hi. lia. }
    rewrite lookup_insert_ne; [by apply IH|].
    intros Heq. apply (Hfresh (ID r)).
    + apply list_elem_of_fmap. exists r. split; [done|]. by eapply list_elem_of_lookup_2.
    + simpl. rewrite Heq. set_solver.
Qed.

Lemma count_children_snoc front r :
  count_children (front ++ [r])
  = <[P r := default 0 (count_children front !! P r) + 1]> (count_children front).
Proof. unfold count_children. by rewrite foldl_app. Qed.

(** [n_children[k]] is the number of rows whose parent is [k]. *)
Lemma count_children_lookup db (k : Z) :
  default 0 (count_children db !! k) = Z.of_nat (child_count db k).
Proof.
  unfold child_count. induction db as [|r front IH] using rev_ind; [done|].
  rewrite count_children_snoc, filter_app, length_app.
  destruct (decide (P r = k)) as [<-|Hne].
  - rewrite lookup_insert_eq. simpl. rewrite IH.
    rewrite filter_cons_True by done. simpl. lia.
  - rewrite lookup_insert_ne by done. rewrite IH.
    rewrite filter_cons_False by done. simpl. lia.
Qed.

(** The end points are the positions of the rows that do not have exactly
    one child. *)
Lemma elem_of_section_end_points db (i : Z) :
  i ∈ _section_end_points db ↔
  ∃ (j : nat) r, i = Z.of_nat j ∧ db !! j = Some r ∧ child_count db (ID r) ≠ 1%nat.
Proof.
  unfold _section_end_points. rewrite elem_of_list_to_set, list_elem_of_omap. split.
  - intros ([i' r] & Hin & Hsel).
    apply list_elem_of_lookup in Hin as [j Hj]. apply lookup_enumerate in Hj as [-> Hj].
    case_decide as Hcount; [|done]. injection Hsel as <-.
    exists j, r. split; [done|]. split; [done|].
    rewrite count_children_lookup in Hcount. lia.
  - intros (j & r & -> & Hj & Hcount). exists (Z.of_nat j, r). split.
    + apply list_elem_of_lookup. exists j. by apply lookup_enumerate.
    + rewrite decide_True; [done|]. rewrite count_children_lookup. lia.
Qed.

End Tables.

(** ** The section left open by the scan *)

Section Trailing.

Context {coord : Type}.
Implicit Types (db front : list (Row coord)) (r : Row coord) (st : ScanState) (h : list Sec).

(** What an iteration of the scan does to the end points and the gap set:
    the end points only grow, and the gap set grows by the index of the
    section closed at a gap. *)
Lemma scan_row_sets (id_map : gmap Z Z) st st' r :
  scan_row id_map st r = Some st' →
  sec_end_pts st ⊆ sec_end_pts st'
  ∧ (_gap_sections st' = _gap_sections st
     ∨ _gap_sections st' = {[ Z.of_nat (length (closed st)) ]} ∪ _gap_sections st).
Proof.
  unfold scan_row. intros Hrun.
  destruct (id_map !! ID r) as [row_id|]; [|done]. simpl in Hrun.
  destruct (id_map !! P r) as [parent_id|]; [|done]. simpl in Hrun.
  destruct (last (ids (seed_section _ _ _))) as [lst|]; [|done]. simpl in Hrun.
  destruct (bool_decide (parent_id ≠ lst));
    (destruct (decide (row_id ∈ _));
     [destruct (last _); [|done]; simpl in Hrun|]);
    injection Hrun as <-; simpl;
    (split; [first [done | apply union_subseteq_r]|]); auto.
  right. rewrite !length_app. simpl. f_equal. f_equal. lia.
Qed.

Lemma scan_gaps_nonneg (id_map : gmap Z Z) st st' (rows : list (Row coord)) :
  foldlM (scan_row id_map) st rows = Some st' →
  (∀ g, g ∈ _gap_sections st → 0 ≤ g) →
  ∀ g, g ∈ _gap_sections st' → 0 ≤ g.
Proof.
  intros Hrun Hst. revert Hrun.
  apply (foldlM_invariant (λ st, ∀ g, g ∈ _gap_sections st → 0 ≤ g)); [done|].
  intros st1 r st2 Hst1 _ Hrow g.
  destruct (scan_row_sets _ _ _ _ Hrow) as [_ [-> | ->]]; [by apply Hst1|].
  intros [->%elem_of_singleton|Hg]%elem_of_union; [lia|by apply Hst1].
Qed.

Lemma scan_ends_grow (id_map : gmap Z Z) st st' (rows : list (Row coord)) :
  foldlM (scan_row id_map) st rows = Some st' →
  sec_end_pts st ⊆ sec_end_pts st'.
Proof.
  apply (foldlM_invariant (λ st', sec_end_pts st ⊆ sec_end_pts st')); [done|].
  intros st1 r st2 Hst1 _ Hrow.
  destruct (scan_row_sets _ _ _ _ Hrow) as [Hsub _]. set_solver.
Qed.

(** An iteration without gap on an end point leaves a new, empty current
    section. *)
Lemma scan_row_closes (id_map : gmap Z Z) st st' r (row_id : Z) :
  id_map !! ID r = Some row_id →
  gap_at id_map st r = Some false →
  row_id ∈ sec_end_pts st →
  scan_row id_map st r = Some st' →
  curr_section st' = new_Section ∧ _gap_sections st' = _gap_sections st.
Proof.
  unfold gap_at, scan_row. intros -> Hgap Hend. simpl.
  destruct (id_map !! P r) as [parent_id|]; [|done]. simpl in *.
  destruct (last (ids (seed_section _ _ _))) as [lst|]; [|done]. simpl in *.
  injection Hgap as ->.
  rewrite decide_True by done.
  destruct (last _); [|done]. simpl. by intros [= <-].
Qed.

Lemma merge_sections_length (a b : nat) h h' :
  _merge_sections a b h = Some h' → length h' = length h.
Proof.
  unfold _merge_sections. intros Hrun.
  destruct (h !! a); [|done]. simpl in Hrun.
  destruct (h !! b); [|done]. simpl in Hrun.
  destruct (_ !! a); [|done]. simpl in Hrun.
  destruct (_ !! a); [|done]. simpl in Hrun.
  injection Hrun as <-. by rewrite !length_alter.
Qed.

(** A merge leaves a disabled section other than its second argument as it
    is. *)
Lemma merge_sections_disabled (a b j : nat) h h' (s : Sec) :
  _merge_sections a b h = Some h' →
  j ≠ b → h !! j = Some s → ids s = [] → pid s = -1 →
  h' !! j = Some s.
Proof.
  unfold _merge_sections. intros Hrun Hjb Hj Hids Hpid.
  destruct (h !! a); [|done]. simpl in Hrun.
  destruct (h !! b); [|done]. simpl in Hrun.
  destruct (_ !! a); [|done]. simpl in Hrun.
  destruct (_ !! a); [|done]. simpl in Hrun.
  injection Hrun as <-.
  destruct (decide (a = j)) as [->|Hne].
  - rewrite !list_lookup_alter_eq, !list_lookup_alter_ne, Hj by done.
    simpl. f_equal. destruct s. simpl in *. by subst.
  - by rewrite !list_lookup_alter_ne.
Qed.

Lemma resolve_section_disabled (parents : gmap Z Z) (gaps : gset Z) h h' (i j : nat) (s : Sec) :
  resolve_section parents gaps h i = Some h' →
  -1 ∉ gaps → h !! j = Some s → ids s = [] → pid s = -1 →
  length h' = length h ∧ h' !! j = Some s.
Proof.
  unfold resolve_section. intros Hrun Hgaps Hj Hids Hpid.
  destruct (h !! i) as [sec|] eqn:Hi; [|done]. simpl in Hrun.
  destruct (decide (i = j)) as [->|Hne].
  - rewrite Hj in Hi. injection Hi as <-. rewrite Hids in Hrun. simpl in Hrun.
    rewrite Hj in Hrun. simpl in Hrun. rewrite Hpid in Hrun.
    rewrite decide_False in Hrun by done. by injection Hrun as <-.
  - set (h1 := match ids sec with
               | [] => Some h
               | first :: _ => parents !! first ≫= λ p, Some (alter (set_pid p) i h)
               end) in Hrun.
    assert (Hh1 : ∀ h2, h1 = Some h2 → length h2 = length h ∧ h2 !! j = Some s).
    { unfold h1. intros h2. destruct (ids sec).
      - by intros [= <-].
      - destruct (parents !! _); [|done]. simpl. intros [= <-].
        by rewrite length_alter, list_lookup_alter_ne. }
    destruct h1 as [h2|]; [|done]. simpl in Hrun.
    destruct (Hh1 h2 eq_refl) as [Hlen Hj2].
    destruct (h2 !! i) as [sec2|]; [|done]. simpl in Hrun.
    case_decide.
    + destruct (py_position _ _) as [a|]; [|done]. simpl in Hrun.
      split.
      * rewrite <- Hlen. by eapply merge_sections_length.
      * by eapply merge_sections_disabled.
    + by injection Hrun as <-.
Qed.

Lemma resolve_disabled (parents : gmap Z Z) (gaps : gset Z) h h' (j : nat) (s : Sec) :
  resolve parents gaps h = Some h' →
  -1 ∉ gaps → h !! j = Some s → ids s = [] → pid s = -1 →
  length h' = length h ∧ h' !! j = Some s.
Proof.
  unfold resolve. intros Hrun Hgaps Hj Hids Hpid. revert Hrun.
  apply (foldlM_invariant (λ h', length h' = length h ∧ h' !! j = Some s)); [done|].
  intros h1 i h2 [Hlen Hj1] _ Hstep.
  destruct (resolve_section_disabled _ _ _ _ _ _ _ Hstep Hgaps Hj1 Hids Hpid).
  split; congruence.
Qed.

Lemma resolve_section_length (parents : gmap Z Z) (gaps : gset Z) h h' (i : nat) :
  resolve_section parents gaps h i = Some h' → length h' = length h.
Proof.
  unfold resolve_section. intros Hrun.
  destruct (h !! i) as [sec|]; [|done]. simpl in Hrun.
  set (h1 := match ids sec with
             | [] => Some h
             | first :: _ => parents !! first ≫= λ p, Some (alter (set_pid p) i h)
             end) in Hrun.
  assert (Hh1 : ∀ h2, h1 = Some h2 → length h2 = length h).
  { unfold h1. intros h2. destruct (ids sec); [by intros [= <-]|].
    destruct (parents !! _); [|done]. simpl. intros [= <-]. apply length_alter. }
  destruct h1 as [h2|]; [|done]. simpl in Hrun. rewrite <- (Hh1 h2 eq_refl).
  destruct (h2 !! i); [|done]. simpl in Hrun. case_decide.
  - destruct (py_position _ _); [|done]. by eapply merge_sections_length.
  - by injection Hrun as <-.
Qed.

(** The list that [extract_sections] returns is never empty: it holds the
    sections closed by the scan and the one left open, disabled or not. *)
Lemma extract_sections_not_nil db (secs : list Sec) :
  extract_sections db = Some secs → secs ≠ [].
Proof.
  unfold extract_sections. destruct (scan db) as [st|]; [|done]. simpl.
  unfold resolve. intros Hrun.
  assert (Hlen : length secs = length (_sections st)).
  { revert Hrun.
    apply (foldlM_invariant (λ h', length h' = length (_sections st))); [done|].
    intros h1 i h2 <- _. apply resolve_section_length. }
  intros ->. unfold _sections in Hlen. rewrite length_app in Hlen. simpl in Hlen. lia.
Qed.

(** When the scan finds no gap at a last row that is an end point, the
    resolution leaves the new section opened after it as it is. *)
Lemma trailing_section_new db front r st (secs : list Sec) :
  db = front ++ [r] →
  child_count db (ID r) = 0%nat →
  foldlM (scan_row (make_id_map db)) (scan_init db) front = Some st →
  gap_at (make_id_map db) st r = Some false →
  extract_sections db = Some secs →
  last secs = Some new_Section.
Proof.
  intros -> Hleaf Hfront Hgap Hrun.
  unfold extract_sections, scan in Hrun.
  rewrite foldlM_snoc, Hfront in Hrun. simpl in Hrun.
  destruct (scan_row _ st r) as [st'|] eqn:Hrow; [|done]. simpl in Hrun.
  assert (Hend : Z.of_nat (length front) ∈ sec_end_pts st).
  { apply (scan_ends_grow _ _ _ _ Hfront). simpl.
    apply elem_of_section_end_points. exists (length front), r.
    split; [done|]. split; [by apply list_lookup_middle|]. by rewrite Hleaf. }
  destruct (scan_row_closes _ _ _ _ _ (make_id_map_last front r) Hgap Hend Hrow)
    as [Hcurr Hgaps].
  assert (Hneg : -1 ∉ _gap_sections st').
  { intros Hin. rewrite Hgaps in Hin.
    pose proof (scan_gaps_nonneg _ _ _ _ Hfront) as Hnn. simpl in Hnn.
    specialize (Hnn (λ g Hg, False_ind _ (not_elem_of_empty g Hg)) _ Hin). lia. }
  destruct (resolve_disabled _ _ _ _ (length (closed st')) new_Section Hrun Hneg)
    as [Hlen Hlook]; [|done|done|].
  { unfold _sections. rewrite Hcurr. by apply list_lookup_middle. }
  rewrite last_lookup, Hlen. unfold _sections. rewrite length_app. simpl.
  by rewrite Nat.add_1_r.
Qed.

(** C10, as the code has it.  Take a data block with a last row [r] that has
    no child and at which the scan finds no gap: coming from the state [st]
    reached on the rows before it, the parent of [r] is the last point of
    the current section, or the current section is empty.  If
    [extract_sections] returns, the list of sections ends with a section
    that has no point ids, type 0 and parent [-1]; so the list is not empty
    and it is longer than the number of its sections with point ids. *)
Theorem trailing_empty_section db front r st (secs : list Sec) :
  db = front ++ [r] →
  child_count db (ID r) = 0%nat →
  foldlM (scan_row (make_id_map db)) (scan_init db) front = Some st →
  gap_at (make_id_map db) st r = Some false →
  extract_sections db = Some secs →
  last secs = Some {| ids := []; ntype := 0; pid := -1 |}
  ∧ secs ≠ []
  ∧ (length (filter (λ s, ids s ≠ []) secs) < length secs)%nat.
Proof.
  intros Hdb Hleaf Hfront Hgap Hrun.
  pose proof (trailing_section_new db front r st secs Hdb Hleaf Hfront Hgap Hrun) as Hlast.
  split; [done|].
  apply last_Some in Hlast as [secs' ->].
  split; [by destruct secs'|].
  rewrite filter_app, !length_app, filter_cons_False by (simpl; tauto). simpl.
  pose proof (length_filter (λ s : Sec, ids s ≠ []) secs'). lia.
Qed.

End Trailing.

Lemma trailing_empty_section_witness :
  ∃ st secs,
    foldlM (scan_row (make_id_map y_branch)) (scan_init y_branch)
      [pt 0 3 (-1); pt 1 3 0; pt 2 3 1; pt 3 3 2] = Some st
    ∧ extract_sections y_branch = Some secs
    ∧ last secs = Some {| ids := []; ntype := 0; pid := -1 |}
    ∧ secs ≠ []
    ∧ (length (filter (λ s, ids s ≠ []) secs) < length secs)%nat.
Proof.
  do 2 eexists. split; [vm_compute; reflexivity|]. split; [vm_compute; reflexivity|].
  eapply (trailing_empty_section y_branch [pt 0 3 (-1); pt 1 3 0; pt 2 3 1; pt 3 3 2]
            (pt 4 3 2)).
  - reflexivity.
  - reflexivity.
  - vm_compute. reflexivity.
  - vm_compute. reflexivity.
  - vm_compute. reflexivity.
Defined.

Lemma last_row_gap_parents_first : parents_first last_row_gap.
Proof.
  intros i row Hi.
  do 4 (destruct i as [|i];
        [injection Hi as <-;
         first [ by left
               | right; eexists 0%nat, _; split; [lia|]; split; reflexivity
               | right; eexists 1%nat, _; split; [lia|]; split; reflexivity ]|]).
  done.
Qed.

(** In [last_row_gap] every parent comes before its children, and the scan
    finds a gap at the last row: the list of sections ends with the section
    opened there, which has point ids and a parent. *)
Lemma last_section_not_empty :
  parents_first last_row_gap
  ∧ ∃ secs, extract_sections last_row_gap = Some secs
            ∧ last secs = Some {| ids := [0; 1; 3]; ntype := 3; pid := 0 |}.
Proof.
  split; [exact last_row_gap_parents_first|].
  eexists. split; [vm_compute; reflexivity|reflexivity].
Qed.

(** ** Tables without discontinuity *)

Section Contiguous.

Context {coord : Type}.
Implicit Types (db : list (Row coord)) (r : Row coord) (st : ScanState) (h : list Sec).

(** The iteration of the scan when there is no gap. *)
Lemma scan_row_no_gap (id_map : gmap Z Z) st r (row_id parent_id : Z) :
  id_map !! ID r = Some row_id →
  id_map !! P r = Some parent_id →
  last (ids (seed_section parent_id r (curr_section st))) = Some parent_id →
  let seeded := seed_section parent_id r (curr_section st) in
  let curr := set_ids (ids seeded ++ [row_id]) seeded in
  scan_row id_map st r =
    Some (if decide (row_id ∈ sec_end_pts st)
          then {| closed := closed st ++ [curr];
                  curr_section := new_Section;
                  parent_section :=
                    <[row_id := Z.of_nat (length (closed st))]> (parent_section st);
                  _gap_sections := _gap_sections st;
                  sec_end_pts := sec_end_pts st |}
          else {| closed := closed st;
                  curr_section := curr;
                  parent_section := parent_section st;
                  _gap_sections := _gap_sections st;
                  sec_end_pts := sec_end_pts st |}).
Proof.
  intros Hid Hp Hlast seeded curr. unfold scan_row.
  rewrite Hid, Hp. simpl. fold seeded. fold seeded in Hlast. rewrite Hlast. simpl.
  rewrite bool_decide_eq_false_2 by tauto.
  fold curr. destruct (decide (row_id ∈ sec_end_pts st)); [|done].
  unfold curr at 1. simpl. rewrite last_snoc. simpl.
  rewrite length_app. simpl.
  replace (Z.of_nat (length (closed st) + 1) - 1) with (Z.of_nat (length (closed st))) by lia.
  done.
Qed.

Lemma not_end_point_one_child db (j : nat) r :
  db !! j = Some r → Z.of_nat j ∉ _section_end_points db →
  child_count db (ID r) = 1%nat.
Proof.
  intros Hj Hend. destruct (decide (child_count db (ID r) = 1%nat)) as [|Hne]; [done|].
  destruct Hend. apply elem_of_section_end_points. by exists j, r.
Qed.

Lemma scan_inv_init db : scan_inv db 0 (scan_init db).
Proof. split; try done. intros j row Hj. lia. Qed.

(** In a table without discontinuity the current section, once seeded, ends
    with the parent of the row read: there is no gap.  It holds the parent
    only when the row starts a section. *)
Lemma scan_inv_seed db (k : nat) st r (parent_id : Z) :
  NoDup (ID <$> db) → contiguous db →
  db !! k = Some r →
  scan_inv db k st →
  make_id_map db !! P r = Some parent_id →
  last (ids (seed_section parent_id r (curr_section st))) = Some parent_id
  ∧ (starts_section db k → ids (seed_section parent_id r (curr_section st)) = [parent_id]).
Proof.
  intros Hnd Hcont Hk [_ _ _ Hcurr _] Hp. destruct k as [|k'].
  - rewrite seed_section_empty by done. done.
  - simpl. case_decide as Hend.
    + rewrite seed_section_empty by done. done.
    + rewrite (seed_section_nonempty _ _ _ _ Hcurr). split; [|done].
      rewrite Hcurr. f_equal.
      destruct (lookup_lt_is_Some_2 db k') as [r0 Hk'].
      { apply lookup_lt_Some in Hk. lia. }
      pose proof (not_end_point_one_child db k' r0 Hk' Hend) as Hone.
      rewrite (Hcont k' r0 r Hk' Hk Hone) in Hp.
      rewrite (make_id_map_lookup db k' r0 Hnd Hk') in Hp. congruence.
Qed.

(** The iteration on row [k] takes the invariant from [k] to [k + 1]. *)
Lemma scan_inv_step db (k : nat) st st' r :
  NoDup (ID <$> db) → contiguous db →
  db !! k = Some r →
  scan_inv db k st →
  scan_row (make_id_map db) st r = Some st' →
  scan_inv db (S k) st'.
Proof.
  intros Hnd Hcont Hk Hinv Hrow.
  pose proof (make_id_map_lookup db k r Hnd Hk) as Hid.
  assert (∃ parent_id, make_id_map db !! P r = Some parent_id) as [parent_id Hp].
  { unfold scan_row in Hrow. rewrite Hid in Hrow. simpl in Hrow.
    destruct (make_id_map db !! P r); [eauto|done]. }
  pose proof (scan_inv_seed db k st r parent_id Hnd Hcont Hk Hinv Hp) as Hseed.
  destruct Hinv as [Hends Hgaps Hlasts Hcurr Hstarts].
  set (seeded := seed_section parent_id r (curr_section st)) in *.
  destruct Hseed as [Hseed Hstart].
  rewrite (scan_row_no_gap _ _ _ _ _ Hid Hp Hseed) in Hrow. fold seeded in Hrow.
  rewrite Hends in Hrow.
  assert (Hnew : ∀ closed' curr',
            closed' ++ [curr'] = closed st ++ [set_ids (ids seeded ++ [Z.of_nat k]) seeded]
            ∨ (closed' = closed st ++ [set_ids (ids seeded ++ [Z.of_nat k]) seeded]) →
            ∀ (j : nat) row, (j < S k)%nat → db !! j = Some row → starts_section db j →
              ∃ s rest parent_id,
                s ∈ closed' ++ [curr']
                ∧ make_id_map db !! P row = Some parent_id
                ∧ ids s = parent_id :: Z.of_nat j :: rest).
  { intros closed' curr' Hshape j row Hj Hrowj Hsj.
    assert (∃ s rest parent_id,
              s ∈ closed st ++ [set_ids (ids seeded ++ [Z.of_nat k]) seeded]
              ∧ make_id_map db !! P row = Some parent_id
              ∧ ids s = parent_id :: Z.of_nat j :: rest) as (s & rest & p & Hs & Hpj & Hids).
    { destruct (decide (j = k)) as [->|Hne].
      - rewrite Hk in Hrowj. injection Hrowj as <-.
        eexists _, [], parent_id. split; [apply elem_of_snoc|].
        split; [done|]. simpl. by rewrite (Hstart Hsj).
      - destruct (Hstarts j row) as (s & rest & p & Hs & Hpj & Hids); [lia|done|done|].
        apply elem_of_app in Hs as [Hs|Hs%list_elem_of_singleton].
        + exists s, rest, p. split; [apply elem_of_app; by left|done].
        + subst s. eexists _, (rest ++ [Z.of_nat k]), p.
          split; [apply elem_of_snoc|]. split; [done|]. simpl.
          unfold seeded. rewrite (seed_section_cons _ _ _ _ _ Hids). by rewrite Hids. }
    exists s, rest, p. split; [|done].
    destruct Hshape as [-> | ->]; [done|]. apply elem_of_app. by left. }
  case_decide as Hend; injection Hrow as <-; split;
    cbn [closed curr_section parent_section _gap_sections sec_end_pts]; try done.
  - rewrite seq_S, !fmap_app, filter_app, fmap_app, Hlasts. simpl.
    rewrite last_snoc. by rewrite filter_cons_True.
  - by rewrite decide_True.
  - apply Hnew. by right.
  - rewrite seq_S, fmap_app, filter_app. simpl.
    rewrite filter_cons_False by done. by rewrite app_nil_r.
  - rewrite decide_False by done. apply last_snoc.
  - apply Hnew. by left.
Qed.

(** The invariant holds after every prefix of the scan. *)
Lemma scan_inv_prefix db (k : nat) st :
  NoDup (ID <$> db) → contiguous db →
  foldlM (scan_row (make_id_map db)) (scan_init db) (take k db) = Some st →
  scan_inv db (min k (length db)) st.
Proof.
  intros Hnd Hcont. revert st. induction k as [|k IH]; intros st Hrun.
  - simpl in Hrun. injection Hrun as <-. apply scan_inv_init.
  - destruct (db !! k) as [r|] eqn:Hk.
    + rewrite (take_S_r _ _ _ Hk), foldlM_snoc in Hrun.
      destruct (foldlM _ _ (take k db)) as [mid|]; [|done]. simpl in Hrun.
      pose proof (lookup_lt_Some _ _ _ Hk) as Hlt.
      replace (min (S k) (length db)) with (S k) by lia.
      apply (scan_inv_step db k mid st r Hnd Hcont Hk); [|done].
      specialize (IH mid eq_refl). by replace (min k (length db)) with k in IH by lia.
    + apply lookup_ge_None in Hk.
      assert (Htake : take (S k) db = take k db) by (by rewrite !take_ge by lia).
      rewrite Htake in Hrun. specialize (IH st Hrun).
      by replace (min (S k) (length db)) with (min k (length db)) by lia.
Qed.

(** Without recorded gap, the resolution changes no point ids. *)
Lemma resolve_no_gaps (parents : gmap Z Z) h h' :
  resolve parents ∅ h = Some h' → ids <$> h' = ids <$> h.
Proof.
  unfold resolve.
  apply (foldlM_invariant (λ h', ids <$> h' = ids <$> h)); [done|].
  intros h1 i h2 <- _. unfold resolve_section. intros Hstep.
  destruct (h1 !! i) as [sec|] eqn:Hi; [|done]. simpl in Hstep.
  assert (Hset : ∀ p, ids <$> alter (set_pid p) i h1 = ids <$> h1).
  { intros p. apply list_eq. intros j. rewrite !list_lookup_fmap.
    destruct (decide (i = j)) as [->|Hne].
    - rewrite list_lookup_alter_eq. by destruct (h1 !! j).
    - by rewrite list_lookup_alter_ne. }
  destruct (ids sec) as [|first rest].
  - simpl in Hstep. rewrite Hi in Hstep. simpl in Hstep.
    rewrite decide_False in Hstep by apply not_elem_of_empty. by injection Hstep as <-.
  - destruct (parents !! first) as [p|]; [|done]. simpl in Hstep.
    destruct (alter _ i h1 !! i); [|done]. simpl in Hstep.
    rewrite decide_False in Hstep by apply not_elem_of_empty. injection Hstep as <-.
    apply Hset.
Qed.

Lemma lookup_same_ids h h' (j : nat) (s : Sec) :
  ids <$> h' = ids <$> h → h !! j = Some s →
  ∃ s', h' !! j = Some s' ∧ ids s' = ids s.
Proof.
  intros Heq Hj.
  assert (Hlook : (ids <$> h') !! j = Some (ids s)) by (by rewrite Heq, list_lookup_fmap, Hj).
  rewrite list_lookup_fmap in Hlook.
  destruct (h' !! j) as [s'|]; [|done]. injection Hlook as Hids. eauto.
Qed.

(** Two of the elements selected by a filter that keeps at least two. *)
Lemma filter_two {A : Type} (Q : A → Prop) `{∀ x, Decision (Q x)} (l : list A) :
  (2 ≤ length (filter Q l))%nat →
  ∃ (j1 j2 : nat) x1 x2,
    j1 ≠ j2 ∧ l !! j1 = Some x1 ∧ l !! j2 = Some x2 ∧ Q x1 ∧ Q x2.
Proof.
  induction l as [|x l IH]; [simpl; lia|].
  destruct (decide (Q x)) as [Hx|Hx].
  - rewrite filter_cons_True by done. simpl. intros Hlen.
    destruct (filter Q l) as [|y k] eqn:Hfilter; [simpl in Hlen; lia|].
    assert (Hy : y ∈ filter Q l) by (rewrite Hfilter; left).
    apply list_elem_of_filter in Hy as [Hy [j Hj]%list_elem_of_lookup].
    by exists 0%nat, (S j), x, y.
  - rewrite filter_cons_False by done. intros Hlen.
    destruct (IH Hlen) as (j1 & j2 & x1 & x2 & Hne & H1 & H2 & HQ1 & HQ2).
    exists (S j1), (S j2), x1, x2. split; [lia|done].
Qed.

(** In a table with distinct identifiers and without discontinuity whose
    last row has no child, the scan finds no gap at the last row: the list of
    sections ends with the empty section. *)
Lemma contiguous_trailing_section db front r (secs : list Sec) :
  NoDup (ID <$> db) → contiguous db →
  db = front ++ [r] →
  child_count db (ID r) = 0%nat →
  extract_sections db = Some secs →
  last secs = Some new_Section.
Proof.
  intros Hnd Hcont -> Hleaf Hrun.
  set (db := front ++ [r]) in *.
  assert (∃ st, foldlM (scan_row (make_id_map db)) (scan_init db) front = Some st
                ∧ is_Some (scan_row (make_id_map db) st r)) as (st & Hfront & [st' Hrow]).
  { unfold extract_sections, scan in Hrun. unfold db in Hrun at 3.
    rewrite foldlM_snoc in Hrun.
    destruct (foldlM _ _ front) as [st|]; [|done]. simpl in Hrun.
    exists st. split; [done|]. destruct (scan_row _ st r); [by eexists|done]. }
  apply (trailing_section_new db front r st secs eq_refl Hleaf Hfront); [|done].
  assert (Hk : db !! length front = Some r) by (by apply list_lookup_middle).
  assert (Hinv : scan_inv db (length front) st).
  { pose proof (scan_inv_prefix db (length front) st Hnd Hcont) as Hpre.
    replace (take (length front) db) with front in Hpre
      by (unfold db; by rewrite take_app_length).
    replace (min (length front) (length db)) with (length front) in Hpre
      by (unfold db; rewrite length_app; simpl; lia).
    by apply Hpre. }
  assert (∃ parent_id, make_id_map db !! P r = Some parent_id) as [parent_id Hp].
  { unfold scan_row in Hrow. destruct (make_id_map db !! ID r); [|done]. simpl in Hrow.
    destruct (make_id_map db !! P r); [eauto|done]. }
  destruct (scan_inv_seed db _ st r parent_id Hnd Hcont Hk Hinv Hp) as [Hlast _].
  unfold gap_at. rewrite Hp. simpl. rewrite Hlast. simpl.
  by rewrite bool_decide_eq_false_2 by tauto.
Qed.

End Contiguous.

Lemma y_branch_contiguous : contiguous y_branch.
Proof.
  intros i row next Hi Hnext Hone.
  do 5 (destruct i as [|i];
        [simpl in Hi, Hnext;
         first [discriminate
               | injection Hi as <-; injection Hnext as <-;
                 first [reflexivity | vm_compute in Hone; discriminate]]|]).
  done.
Qed.

(** Point 2 of [y_branch] has two children, and it is the last point of one
    section only, the first one; the sections of its children start with it. *)
Lemma branch_point_ends_one_section :
  ∃ secs,
    extract_sections y_branch = Some secs
    ∧ child_count y_branch 2 = 2%nat
    ∧ length (filter (λ s, last (ids s) = Some 2) secs) = 1%nat.
Proof. eexists. split; [vm_compute; reflexivity|]. split; vm_compute; reflexivity. Qed.

(** With a discontinuity the branch point may end no section at all: in
    [branch_after_gap], point 2 has two children and is reached through a
    gap; no section of the result ends with it. *)
Lemma branch_point_lost_after_gap :
  ∃ secs,
    extract_sections branch_after_gap = Some secs
    ∧ child_count branch_after_gap 2 = 2%nat
    ∧ filter (λ s, last (ids s) = Some 2) secs = [].
Proof. eexists. split; [vm_compute; reflexivity|]. split; vm_compute; reflexivity. Qed.

(** ** Well-formed tables are extracted *)

Section Total.

Context {coord : Type}.
Implicit Types (db : list (Row coord)) (r : Row coord) (st : ScanState) (h : list Sec).

Lemma make_id_map_root db :
  (∀ r, r ∈ db → ID r ≠ -1) → make_id_map db !! (-1) = Some (-1).
Proof.
  induction db as [|r front IH] using rev_ind; intros Hids; [done|].
  rewrite make_id_map_snoc, lookup_insert_ne.
  - apply IH. intros r' Hr'. apply Hids, elem_of_app. by left.
  - apply Hids, elem_of_snoc.
Qed.

(** Two rows with the same parent make a child count of two at least. *)
Lemma child_count_two db (j1 j2 : nat) r1 r2 (x : Z) :
  j1 ≠ j2 → db !! j1 = Some r1 → db !! j2 = Some r2 → P r1 = x → P r2 = x →
  (2 ≤ child_count db x)%nat.
Proof.
  assert (Hordered : ∀ (j1 j2 : nat) r1 r2,
            (j1 < j2)%nat → db !! j1 = Some r1 → db !! j2 = Some r2 →
            P r1 = x → P r2 = x → (2 ≤ child_count db x)%nat).
  { clear. intros j1 j2 r1 r2 Hlt H1 H2 Hp1 Hp2. unfold child_count.
    rewrite <- (take_drop_middle db j2 r2 H2), filter_app, length_app.
    rewrite filter_cons_True by done. simpl.
    assert (Hin : r1 ∈ filter (λ row, P row = x) (take j2 db)).
    { apply list_elem_of_filter. split; [done|].
      apply list_elem_of_lookup. exists j1. by rewrite lookup_take_lt. }
    destruct (filter _ (take j2 db)); [by apply elem_of_nil in Hin|]. simpl. lia. }
  intros Hne H1 H2 Hp1 Hp2. destruct (decide (j1 < j2)%nat).
  - by apply (Hordered j1 j2 r1 r2).
  - apply (Hordered j2 j1 r2 r1); [lia|done..].
Qed.

Section Rows.

Variable db : list (Row coord).
Hypothesis Hnd : NoDup (ID <$> db).
Hypothesis Hroot : ∀ r, r ∈ db → ID r ≠ -1.
Hypothesis Hfirst : parents_first db.
Hypothesis Hcont : contiguous db.

(** The parent of a row is [-1] or an earlier row, found by [id_map]. *)
Lemma parent_position (k : nat) r :
  db !! k = Some r →
  make_id_map db !! P r = Some (-1)
  ∨ ∃ (j : nat) parent, (j < k)%nat ∧ db !! j = Some parent ∧ ID parent = P r
                        ∧ make_id_map db !! P r = Some (Z.of_nat j).
Proof.
  intros Hk. destruct (Hfirst k r Hk) as [->|(j & parent & Hlt & Hj & Hid)].
  - left. by apply make_id_map_root.
  - right. exists j, parent. repeat split; try done.
    rewrite <- Hid. by apply make_id_map_lookup.
Qed.

(** The iteration on row [k] returns. *)
Lemma scan_row_total (k : nat) st r :
  db !! k = Some r → scan_inv db k st →
  is_Some (scan_row (make_id_map db) st r).
Proof.
  intros Hk Hinv.
  assert (∃ parent_id, make_id_map db !! P r = Some parent_id) as [parent_id Hp].
  { destruct (parent_position k r Hk) as [?|(j & ? & _ & _ & _ & ?)]; eauto. }
  destruct (scan_inv_seed db k st r parent_id Hnd Hcont Hk Hinv Hp) as [Hlast _].
  rewrite (scan_row_no_gap _ _ _ _ _ (make_id_map_lookup db k r Hnd Hk) Hp Hlast).
  by eexists.
Qed.

(** A row that starts a section has an end point for parent, or none. *)
Lemma start_parent_is_end (k j : nat) r parent :
  db !! k = Some r → starts_section db k →
  (j < k)%nat → db !! j = Some parent → ID parent = P r →
  Z.of_nat j ∈ _section_end_points db.
Proof.
  intros Hk Hstart Hlt Hj Hid.
  destruct (decide (Z.of_nat j ∈ _section_end_points db)) as [|Hnot]; [done|].
  pose proof (not_end_point_one_child db j parent Hj Hnot) as Hone.
  destruct (lookup_lt_is_Some_2 db (S j)) as [next Hnext].
  { apply lookup_lt_Some in Hk. lia. }
  pose proof (Hcont j parent next Hj Hnext Hone) as Hp.
  destruct (decide (S j = k)) as [<-|Hne].
  - simpl in Hstart. done.
  - pose proof (child_count_two db (S j) k next r (ID parent) Hne Hnext Hk Hp (eq_sym Hid)).
    lia.
Qed.

Lemma keys_inv_init : keys_inv db 0 (scan_init db).
Proof.
  split.
  - simpl. by rewrite lookup_singleton_eq.
  - intros e He. lia.
  - simpl. intros s first rest ->%list_elem_of_singleton. done.
Qed.

Lemma keys_inv_step (k : nat) st st' r :
  db !! k = Some r →
  scan_inv db k st → keys_inv db k st →
  scan_row (make_id_map db) st r = Some st' →
  keys_inv db (S k) st'.
Proof.
  intros Hk Hinv [Hkroot Hkends Hkfirsts] Hrow.
  pose proof (make_id_map_lookup db k r Hnd Hk) as Hid.
  assert (∃ parent_id, make_id_map db !! P r = Some parent_id) as [parent_id Hp].
  { destruct (parent_position k r Hk) as [?|(j & ? & _ & _ & _ & ?)]; eauto. }
  destruct (scan_inv_seed db k st r parent_id Hnd Hcont Hk Hinv Hp) as [Hlast Hstart].
  rewrite (scan_row_no_gap _ _ _ _ _ Hid Hp Hlast) in Hrow.
  set (seeded := seed_section parent_id r (curr_section st)) in *.
  set (curr := set_ids (ids seeded ++ [Z.of_nat k]) seeded) in *.
  assert (Hcurr : ∀ first rest, ids curr = first :: rest →
            first = -1
            ∨ ∃ e : nat, first = Z.of_nat e ∧ (e < S k)%nat
                         ∧ Z.of_nat e ∈ _section_end_points db).
  { intros first rest. unfold curr, seeded. simpl.
    destruct (ids (curr_section st)) as [|x l] eqn:Hids.
    - rewrite seed_section_empty by done. simpl. intros [= <- _].
      destruct (parent_position k r Hk) as [Hm|(j & parent & Hlt & Hj & Hidp & Hm)];
        rewrite Hp in Hm; injection Hm as ->; [by left|].
      right. exists j. split; [done|]. split; [lia|].
      apply (start_parent_is_end k j r parent Hk); try done.
      destruct Hinv as [_ _ _ Hc _]. destruct k as [|k0]; [done|]. simpl.
      destruct (decide (Z.of_nat k0 ∈ _section_end_points db)); [done|].
      by rewrite Hids in Hc.
    - rewrite (seed_section_cons _ _ _ _ _ Hids), Hids. simpl. intros [= <- _].
      destruct (Hkfirsts (curr_section st) x l) as [?|(e & ? & ? & ?)];
        [apply elem_of_snoc|done|by left|].
      right. exists e. split; [done|]. split; [lia|done]. }
  assert (Hold : ∀ s first rest, s ∈ closed st → ids s = first :: rest →
            first = -1
            ∨ ∃ e : nat, first = Z.of_nat e ∧ (e < S k)%nat
                         ∧ Z.of_nat e ∈ _section_end_points db).
  { intros s first rest Hs Hids.
    destruct (Hkfirsts s first rest) as [?|(e & ? & ? & ?)];
      [apply elem_of_app; by left|done|by left|].
    right. exists e. split; [done|]. split; [lia|done]. }
  destruct Hinv as [Hends _ _ _ _].
  case_decide as Hend; injection Hrow as <-; split;
    cbn [closed curr_section parent_section].
  - rewrite lookup_insert_ne; [done|lia].
  - intros e He Hin. destruct (decide (e = k)) as [->|Hne].
    + rewrite lookup_insert_eq. by eexists.
    + rewrite lookup_insert_ne by lia. apply Hkends; [lia|done].
  - intros s first rest [[Hs | ->%list_elem_of_singleton]%elem_of_app
                         | ->%list_elem_of_singleton]%elem_of_app Hids.
    + by apply (Hold s first rest).
    + by apply (Hcurr first rest).
    + done.
  - done.
  - intros e He Hin. apply Hkends; [|done].
    destruct (decide (e = k)) as [->|Hne]; [|lia].
    rewrite Hends in Hend. done.
  - intros s first rest [Hs | ->%list_elem_of_singleton]%elem_of_app Hids.
    + by apply (Hold s first rest).
    + by apply (Hcurr first rest).
Qed.

(** The scan returns on every prefix of the table. *)
Lemma scan_total_prefix (k : nat) :
  (k ≤ length db)%nat →
  ∃ st, foldlM (scan_row (make_id_map db)) (scan_init db) (take k db) = Some st
        ∧ scan_inv db k st ∧ keys_inv db k st.
Proof.
  induction k as [|k IH]; intros Hlen.
  - exists (scan_init db). split; [done|]. split; [apply scan_inv_init|apply keys_inv_init].
  - destruct IH as (st & Hrun & Hinv & Hkeys); [lia|].
    destruct (lookup_lt_is_Some_2 db k) as [r Hk]; [lia|].
    destruct (scan_row_total k st r Hk Hinv) as [st' Hrow].
    exists st'. rewrite (take_S_r _ _ _ Hk), foldlM_snoc, Hrun. simpl.
    split; [done|]. split.
    + by apply (scan_inv_step db k st st' r).
    + by apply (keys_inv_step k st st' r).
Qed.

End Rows.

(** Without recorded gap, the resolution returns when the first point of
    every section is a key of [parent_section]. *)
Lemma resolve_total (parents : gmap Z Z) h :
  (∀ s first rest, s ∈ h → ids s = first :: rest → is_Some (parents !! first)) →
  is_Some (resolve parents ∅ h).
Proof.
  intros Hkeys. unfold resolve.
  destruct (foldlM_total (λ h', ids <$> h' = ids <$> h)
              (resolve_section parents ∅) h (seq 0 (length h))) as (h' & -> & _);
    [done| |by eexists].
  intros h1 i Hids [_ Hi]%elem_of_seq. simpl in Hi.
  assert (Hlen : length h1 = length h)
    by (by rewrite <- (length_fmap ids h1), Hids, length_fmap).
  destruct (lookup_lt_is_Some_2 h1 i) as [sec Hsec]; [lia|].
  assert (Hset : ∀ p, ids <$> alter (set_pid p) i h1 = ids <$> h1).
  { intros p. apply list_eq. intros j. rewrite !list_lookup_fmap.
    destruct (decide (i = j)) as [->|Hne].
    - rewrite list_lookup_alter_eq. by destruct (h1 !! j).
    - by rewrite list_lookup_alter_ne. }
  unfold resolve_section. rewrite Hsec. simpl.
  destruct (ids sec) as [|first rest] eqn:Hsecids.
  - simpl. rewrite Hsec. simpl. rewrite decide_False by apply not_elem_of_empty. eauto.
  - destruct (lookup_lt_is_Some_2 h i) as [sec0 Hsec0]; [lia|].
    destruct (lookup_same_ids h h1 i sec0) as (sec' & Hsec' & Hids'); [done|done|].
    rewrite Hsec in Hsec'. injection Hsec' as <-.
    destruct (Hkeys sec0 first rest) as [p Hp];
      [by eapply list_elem_of_lookup_2|congruence|].
    rewrite Hp. simpl. rewrite list_lookup_alter_eq, Hsec. simpl.
    rewrite decide_False by apply not_elem_of_empty.
    eexists. split; [done|]. by rewrite Hset.
Qed.

(** [extract_sections] returns on every table with distinct identifiers
    other than [-1], in which every row comes after its parent and there is
    no discontinuity. *)
Lemma extract_sections_total db :
  NoDup (ID <$> db) →
  (∀ r, r ∈ db → ID r ≠ -1) →
  parents_first db →
  contiguous db →
  is_Some (extract_sections db).
Proof.
  intros Hnd Hroot Hfirst Hcont.
  destruct (scan_total_prefix db Hnd Hroot Hfirst Hcont (length db))
    as (st & Hrun & [_ Hgaps _ _ _] & [Hkroot Hkends Hkfirsts]); [done|].
  rewrite take_ge in Hrun by done.
  unfold extract_sections, scan. rewrite Hrun. simpl. rewrite Hgaps.
  apply resolve_total. intros s first rest Hs Hids.
  destruct (Hkfirsts s first rest Hs Hids) as [->|(e & -> & He & Hend)]; [done|].
  by apply Hkends.
Qed.

End Total.

(** * Further properties *)

(** ** The shape of the sections *)

Section Shape.

Context {coord : Type}.
Implicit Types (db : list (Row coord)) (r : Row coord) (st : ScanState) (h : list Sec).

(** The values of [id_map] are point indices of the table. *)
Lemma make_id_map_range db (k v : Z) :
  make_id_map db !! k = Some v → in_table (length db) v.
Proof.
  unfold in_table. revert v. induction db as [|r front IH] using rev_ind; intros v.
  - unfold make_id_map. simpl. intros [_ <-]%lookup_singleton_Some. simpl. lia.
  - rewrite make_id_map_snoc, length_app. simpl.
    destruct (decide (ID r = k)) as [->|Hne].
    + rewrite lookup_insert_eq. intros [= <-]. lia.
    + rewrite lookup_insert_ne by done. intros Hv. specialize (IH v Hv). lia.
Qed.

(** The iteration of the scan at a gap. *)
Lemma scan_row_gap (id_map : gmap Z Z) st r (row_id parent_id lst : Z) :
  id_map !! ID r = Some row_id →
  id_map !! P r = Some parent_id →
  last (ids (curr_section st)) = Some lst →
  parent_id ≠ lst →
  scan_row id_map st r =
    Some {| closed := closed st ++ [curr_section st];
            curr_section := {| ids := [parent_id; row_id]; ntype := TYPE r; pid := -1 |};
            parent_section := <[lst := Z.of_nat (length (closed st))]> (parent_section st);
            _gap_sections := {[ Z.of_nat (length (closed st)) ]} ∪ _gap_sections st;
            sec_end_pts := {[ row_id ]} ∪ sec_end_pts st |}.
Proof.
  intros Hid Hp Hlast Hgap. unfold scan_row.
  rewrite Hid, Hp. simpl.
  rewrite (seed_section_nonempty _ _ _ lst Hlast), Hlast. simpl.
  rewrite bool_decide_eq_true_2 by done.
  rewrite decide_True by (apply elem_of_union; left; by apply elem_of_singleton).
  rewrite Hlast. simpl. rewrite !length_app. simpl.
  replace (Z.of_nat (length (closed st) + 1) - 1) with (Z.of_nat (length (closed st))) by lia.
  by replace (Z.of_nat (length (closed st) + 1 + 1) - 2)
    with (Z.of_nat (length (closed st))) by lia.
Qed.

(** An iteration that returns is one without gap or one at a gap. *)
Lemma scan_row_cases (id_map : gmap Z Z) st st' r :
  scan_row id_map st r = Some st' →
  ∃ row_id parent_id,
    id_map !! ID r = Some row_id ∧ id_map !! P r = Some parent_id
    ∧ (last (ids (seed_section parent_id r (curr_section st))) = Some parent_id
       ∨ ∃ lst, last (ids (curr_section st)) = Some lst ∧ parent_id ≠ lst).
Proof.
  unfold scan_row. intros Hrun.
  destruct (id_map !! ID r) as [row_id|]; [|done]. simpl in Hrun.
  destruct (id_map !! P r) as [parent_id|]; [|done]. simpl in Hrun.
  exists row_id, parent_id. split; [done|]. split; [done|].
  destruct (ids (curr_section st)) as [|x l] eqn:Hids.
  - left. by rewrite seed_section_empty.
  - rewrite (seed_section_cons _ _ _ _ _ Hids), Hids.
    destruct (last (x :: l)) as [lst|] eqn:Hlast; [|by apply last_None in Hlast].
    destruct (decide (parent_id = lst)) as [->|Hne]; [by left|].
    right. by exists lst.
Qed.

Lemma scan_shape_init db : scan_shape (length db) (scan_init db).
Proof.
  split; simpl.
  - intros s []%elem_of_nil.
  - split; [done|]. split; [by left|constructor].
  - intros g []%elem_of_empty.
  - intros e j [_ <-]%lookup_singleton_Some. simpl. lia.
Qed.

Lemma scan_shape_step (n : nat) (id_map : gmap Z Z) st st' r :
  (∀ k v, id_map !! k = Some v → in_table n v) →
  scan_shape n st →
  scan_row id_map st r = Some st' →
  scan_shape n st'.
Proof.
  intros Hrange [Hclosed (Hcpid & Hclen & Hcids) Hgaps Hparents] Hrow.
  destruct (scan_row_cases _ _ _ _ Hrow) as (row_id & parent_id & Hid & Hp & Hcase).
  pose proof (Hrange _ _ Hid) as Hrid. pose proof (Hrange _ _ Hp) as Hpar.
  assert (Hgrow : ∀ s, s ∈ closed st ++ [s] → True) by done. clear Hgrow.
  destruct Hcase as [Hlast|(lst & Hlast & Hne)].
  - rewrite (scan_row_no_gap _ _ _ _ _ Hid Hp Hlast) in Hrow.
    set (seeded := seed_section parent_id r (curr_section st)) in *.
    assert (Hseeded : pid seeded = -1 ∧ (1 ≤ length (ids seeded))%nat
                      ∧ Forall (in_table n) (ids seeded)).
    { unfold seeded. destruct (ids (curr_section st)) as [|x l] eqn:Hids.
      - rewrite seed_section_empty by done. simpl. split; [done|].
        split; [lia|]. by constructor.
      - rewrite (seed_section_cons _ _ _ _ _ Hids), Hids. split; [done|].
        split; [simpl; lia|]. first [exact Hcids | by rewrite <- Hids]. }
    destruct Hseeded as (Hspid & Hslen & Hsids).
    assert (Hcurr : pid (set_ids (ids seeded ++ [row_id]) seeded) = -1
                    ∧ (2 ≤ length (ids (set_ids (ids seeded ++ [row_id]) seeded)))%nat
                    ∧ Forall (in_table n) (ids (set_ids (ids seeded ++ [row_id]) seeded))).
    { simpl. split; [done|]. split; [rewrite length_app; simpl; lia|].
      apply Forall_app. split; [done|]. by constructor. }
    case_decide; injection Hrow as <-; split;
      cbn [closed curr_section parent_section _gap_sections].
    + intros s [Hs | ->%list_elem_of_singleton]%elem_of_app; [by apply Hclosed|done].
    + split; [done|]. split; [by left|constructor].
    + intros g Hg. specialize (Hgaps g Hg). rewrite length_app. simpl. lia.
    + intros e j. rewrite length_app. simpl.
      destruct (decide (row_id = e)) as [->|He].
      * rewrite lookup_insert_eq. intros [= <-]. lia.
      * rewrite lookup_insert_ne by done. intros Hj. specialize (Hparents e j Hj). lia.
    + done.
    + destruct Hcurr as (? & ? & ?). split; [done|]. split; [by right|done].
    + done.
    + done.
  - rewrite (scan_row_gap _ _ _ _ _ _ Hid Hp Hlast Hne) in Hrow.
    injection Hrow as <-. split; cbn [closed curr_section parent_section _gap_sections].
    + intros s [Hs | ->%list_elem_of_singleton]%elem_of_app; [by apply Hclosed|].
      split; [done|]. split; [|done].
      destruct Hclen as [Hnil|?]; [|done]. by rewrite Hnil in Hlast.
    + simpl. split; [done|]. split; [right; lia|].
      repeat (apply Forall_cons_2; [done|]). apply Forall_nil_2.
    + rewrite length_app. simpl.
      intros g [->%elem_of_singleton|Hg]%elem_of_union; [lia|].
      specialize (Hgaps g Hg). lia.
    + intros e j. rewrite length_app. simpl.
      destruct (decide (lst = e)) as [->|He].
      * rewrite lookup_insert_eq. intros [= <-]. lia.
      * rewrite lookup_insert_ne by done. intros Hj. specialize (Hparents e j Hj). lia.
Qed.

(** The state that the scan returns has the shape. *)
Lemma scan_shape_final db st :
  scan db = Some st → scan_shape (length db) st.
Proof.
  unfold scan.
  apply (foldlM_invariant (scan_shape (length db))); [apply scan_shape_init|].
  intros st1 r st2 Hst1 _. apply scan_shape_step; [|done].
  intros k v. apply make_id_map_range.
Qed.

End Shape.

Section Resolved.

Context {coord : Type}.
Implicit Types (db : list (Row coord)) (h : list Sec).

(** What an iteration of the resolver does to the store: the parent of
    section [i] is set, and when it is in the gap set, the section is merged
    with it. *)
Lemma resolve_section_effect (parents : gmap Z Z) (gaps : gset Z) h h' (i : nat) :
  resolve_section parents gaps h i = Some h' →
  ∃ sec p,
    h !! i = Some sec
    ∧ match ids sec with [] => Some (pid sec) | first :: _ => parents !! first end = Some p
    ∧ (((p ∉ gaps) ∧ h' = <[i := set_pid p sec]> h)
       ∨ ((p ∈ gaps)
          ∧ ∃ a bridge,
              py_position (length h) p = Some a
              ∧ <[i := set_pid p sec]> h !! a = Some bridge
              ∧ h' = <[a := {| ids := []; ntype := ntype bridge; pid := -1 |}]>
                       (<[i := {| ids := ids bridge ++ drop 1 (ids sec);
                                  ntype := ntype bridge;
                                  pid := pid bridge |}]> h))).
Proof.
  unfold resolve_section. intros Hrun.
  destruct (h !! i) as [sec|] eqn:Hi; [|done]. simpl in Hrun.
  pose proof (lookup_lt_Some _ _ _ Hi) as Hlt.
  assert (∃ p, match ids sec with [] => Some (pid sec) | first :: _ => parents !! first end
               = Some p
               ∧ match ids sec with
                 | [] => Some h
                 | first :: _ => parents !! first ≫= λ p, Some (alter (set_pid p) i h)
                 end = Some (<[i := set_pid p sec]> h)) as (p & Hp & Hh1).
  { assert (Halter : ∀ p, alter (set_pid p) i h = <[i := set_pid p sec]> h).
    { intros p. apply list_eq. intros j. destruct (decide (j = i)) as [->|Hj].
      - by rewrite list_lookup_alter_eq, list_lookup_insert_eq, Hi.
      - by rewrite list_lookup_alter_ne, list_lookup_insert_ne. }
    destruct (ids sec) as [|first rest].
    - exists (pid sec). split; [done|]. f_equal. symmetry.
      apply list_insert_id. rewrite Hi. by destruct sec.
    - destruct (parents !! first) as [p|]; [|done]. exists p. split; [done|].
      simpl. by rewrite Halter. }
  rewrite Hh1 in Hrun. simpl in Hrun. rewrite list_lookup_insert_eq in Hrun by done.
  simpl in Hrun. exists sec, p. split; [done|]. split; [done|].
  case_decide as Hgap; [|left; split; [done|by injection Hrun as <-]].
  right. split; [done|]. rewrite length_insert in Hrun.
  destruct (py_position (length h) p) as [a|] eqn:Hpos; [|done]. simpl in Hrun.
  destruct (<[i := set_pid p sec]> h !! a) as [bridge|] eqn:Ha.
  2:{ unfold _merge_sections in Hrun. by rewrite Ha in Hrun. }
  exists a, bridge. split; [done|]. split; [done|].
  assert (Hla : (a < length h)%nat) by (apply lookup_lt_Some in Ha; by rewrite length_insert in Ha).
  destruct (decide (a = i)) as [->|Hne].
  - rewrite (merge_sections_alias i _ _ Ha) in Hrun. injection Hrun as <-.
    apply list_eq. intros j. destruct (decide (j = i)) as [->|Hj].
    + rewrite !list_lookup_insert_eq; [done| |]; by rewrite ?length_insert.
    + by rewrite !list_lookup_insert_ne.
  - rewrite (merge_sections_distinct a i _ bridge (set_pid p sec) Hne Ha) in Hrun.
    2:{ by rewrite list_lookup_insert_eq. }
    injection Hrun as <-. simpl.
    apply list_eq. intros j. destruct (decide (j = a)) as [->|Hja].
    + rewrite !list_lookup_insert_eq; [done| |]; by rewrite ?length_insert.
    + rewrite !(list_lookup_insert_ne _ a j) by done.
      destruct (decide (j = i)) as [->|Hji].
      * rewrite !list_lookup_insert_eq; [done| |]; by rewrite ?length_insert.
      * by rewrite !list_lookup_insert_ne.
Qed.

Lemma resolve_section_shape (n m : nat) (parents : gmap Z Z) (gaps : gset Z) h h' (i : nat) :
  (∀ e j, parents !! e = Some j → -1 ≤ j < Z.of_nat m) →
  (∀ g, g ∈ gaps → 0 ≤ g < Z.of_nat m) →
  length h = m →
  (∀ j s, h !! j = Some s → resolved_shape n m s) →
  (∀ j s, (i ≤ j)%nat → h !! j = Some s → unresolved_shape s) →
  resolve_section parents gaps h i = Some h' →
  length h' = m
  ∧ (∀ j s, h' !! j = Some s → resolved_shape n m s)
  ∧ (∀ j s, (S i ≤ j)%nat → h' !! j = Some s → unresolved_shape s).
Proof.
  intros Hparents Hgaps Hlen Hres Hunres Hrun.
  destruct (resolve_section_effect _ _ _ _ _ Hrun) as (sec & p & Hi & Hp & Heffect).
  pose proof (lookup_lt_Some _ _ _ Hi) as Hlt.
  destruct (Hunres i sec (le_n _) Hi) as [Hpid Hids].
  destruct (Hres i sec Hi) as (_ & _ & Hin).
  assert (Hprange : -1 ≤ p < Z.of_nat m
                    ∧ (p = -1 ∨ (2 ≤ length (ids sec))%nat)).
  { destruct (ids sec) as [|first rest] eqn:Hsec.
    - injection Hp as <-. rewrite Hpid. split; [lia|by left].
      - split; [by eapply Hparents|]. right. by destruct Hids. }
  destruct Hprange as [Hprange Hplen].
  assert (Hsec1 : resolved_shape n m (set_pid p sec)) by done.
  assert (Hh1 : ∀ j s, <[i := set_pid p sec]> h !! j = Some s → resolved_shape n m s).
  { intros j s. destruct (decide (j = i)) as [->|Hj].
    - rewrite list_lookup_insert_eq by done. by intros [= <-].
    - rewrite list_lookup_insert_ne by done. apply Hres. }
  destruct Heffect as [[Hnot ->]|(Hgap & a & bridge & Hpos & Ha & ->)].
  - split; [by rewrite length_insert|]. split; [done|].
    intros j s Hj. rewrite list_lookup_insert_ne by lia. by apply Hunres; lia.
  - destruct (Hh1 a bridge Ha) as (Hbpid & Hbrange & Hbin).
    pose proof (lookup_lt_Some _ _ _ Ha) as Hla. rewrite length_insert in Hla.
    assert (Htomb : resolved_shape n m {| ids := []; ntype := ntype bridge; pid := -1 |}
                    ∧ unresolved_shape {| ids := []; ntype := ntype bridge; pid := -1 |}).
    { split; [|by split; [|left]]. split; [by left|]. split; [simpl; lia|constructor]. }
    assert (Hmerged : resolved_shape n m
              {| ids := ids bridge ++ drop 1 (ids sec); ntype := ntype bridge;
                 pid := pid bridge |}).
    { split; [|split; [done|]]; simpl.
      - destruct Hbpid as [?|?]; [by left|]. right. rewrite length_app. lia.
      - apply Forall_app. split; [done|]. by apply Forall_drop. }
    split; [by rewrite !length_insert|]. split.
    + intros j s. destruct (decide (j = a)) as [->|Hja].
      * rewrite list_lookup_insert_eq by (by rewrite length_insert).
        intros [= <-]. apply Htomb.
      * rewrite list_lookup_insert_ne by done. destruct (decide (j = i)) as [->|Hji].
        -- rewrite list_lookup_insert_eq by done. by intros [= <-].
        -- rewrite list_lookup_insert_ne by done. apply Hres.
    + intros j s Hj. destruct (decide (j = a)) as [->|Hja].
      * rewrite list_lookup_insert_eq by (by rewrite length_insert).
        intros [= <-]. apply Htomb.
      * rewrite !list_lookup_insert_ne by lia. by apply Hunres; lia.
Qed.

(** Every section that [extract_sections] returns has the resolved shape. *)
Lemma extract_sections_shape db (secs : list Sec) :
  extract_sections db = Some secs →
  ∀ s, s ∈ secs → resolved_shape (length db) (length secs) s.
Proof.
  unfold extract_sections. destruct (scan db) as [st|] eqn:Hscan; [|done]. simpl.
  destruct (scan_shape_final db st Hscan) as [Hclosed (Hcpid & Hclen & Hcids) Hgaps Hparents].
  set (n := length db). set (m := length (_sections st)).
  assert (Hm : m = S (length (closed st)))
    by (unfold m, _sections; rewrite length_app; simpl; lia).
  assert (Hinit : ∀ j s, _sections st !! j = Some s →
            resolved_shape n m s ∧ unresolved_shape s).
  { intros j s Hj. apply list_elem_of_lookup_2 in Hj. unfold _sections in Hj.
    apply elem_of_app in Hj as [Hs | ->%list_elem_of_singleton].
    - destruct (Hclosed s Hs) as (Hp & Hl & Hi).
      split; [|by split; [|right]]. split; [by left|]. split; [lia|done].
    - split; [|done]. split; [by left|]. split; [lia|done]. }
  assert (Hsteps : ∀ k h',
            foldlM (resolve_section (parent_section st) (_gap_sections st))
              (_sections st) (seq 0 k) = Some h' →
            length h' = m
            ∧ (∀ j s, h' !! j = Some s → resolved_shape n m s)
            ∧ (∀ j s, (k ≤ j)%nat → h' !! j = Some s → unresolved_shape s)).
  { induction k as [|k IH]; intros h'.
    - intros Hrun. simpl in Hrun. injection Hrun as <-. split; [done|].
      split; intros j s; [|intros _]; intros Hj; by apply (Hinit j s).
    - rewrite seq_S, foldlM_snoc. intros Hrun.
      destruct (foldlM _ _ (seq 0 k)) as [mid|]; [|done]. simpl in Hrun.
      destruct (IH mid eq_refl) as (Hlen & Hres & Hunres).
      apply (resolve_section_shape n m (parent_section st) (_gap_sections st) mid h' k);
        try done.
      + intros e j Hj. specialize (Hparents e j Hj). lia.
      + intros g Hg. specialize (Hgaps g Hg). lia. }
  unfold resolve. intros Hrun s Hs.
  destruct (Hsteps _ _ Hrun) as (Hlen & Hres & _).
  apply list_elem_of_lookup in Hs as [j Hj]. rewrite Hlen. by apply (Hres j s).
Qed.

End Resolved.

(** ** Sections and trunks *)

Section Trunks.

Context {coord : Type}.
Variable SOMA : Z.
Implicit Types (db : list (Row coord)) (secs : list Sec).

Lemma py_position_in_range (len : nat) (i : Z) :
  0 ≤ i < Z.of_nat len → py_position len i = Some (Z.to_nat i).
Proof. intros Hi. unfold py_position. by rewrite decide_True. Qed.

Lemma py_index_is_Some {A : Type} (l : list A) (i : Z) :
  - Z.of_nat (length l) ≤ i < Z.of_nat (length l) → is_Some (py_index l i).
Proof.
  intros Hi. unfold py_index, py_position. case_decide.
  - apply lookup_lt_is_Some_2. lia.
  - rewrite decide_True by lia. apply lookup_lt_is_Some_2. lia.
Qed.

(** X1.  A section returned by [extract_sections] that has a parent (its
    [pid] is not [-1]) has two point ids at least; so a section without point
    ids, disabled or left open, has no parent. *)
Theorem section_with_parent_has_points db secs (s : Sec) :
  extract_sections db = Some secs → s ∈ secs → pid s ≠ -1 →
  (2 ≤ length (ids s))%nat.
Proof.
  intros Hrun Hs Hpid.
  destruct (extract_sections_shape db secs Hrun s Hs) as ([?|?] & _); done.
Qed.

(** X2.  In the list returned by [extract_sections], the parent of every
    section is [-1] or the index of a section of the list, and every point
    id is [-1] or the position of a row of the data block. *)
Theorem section_indices_in_range db secs (s : Sec) :
  extract_sections db = Some secs → s ∈ secs →
  -1 ≤ pid s < Z.of_nat (length secs)
  ∧ ∀ x, x ∈ ids s → -1 ≤ x < Z.of_nat (length db).
Proof.
  intros Hrun Hs.
  destruct (extract_sections_shape db secs Hrun s Hs) as (_ & Hpid & Hids).
  split; [done|]. intros x Hx. by apply (proj1 (Forall_forall _ _) Hids).
Qed.

Lemma neurite_trunks_returns (db : list (Row coord)) secs :
  (∀ s, s ∈ secs → -1 ≤ pid s < Z.of_nat (length secs)) →
  is_Some (neurite_trunks SOMA {| data_block := db; sections := secs |}).
Proof.
  intros Hrange. unfold neurite_trunks. simpl.
  destruct (mapM_is_Some_2
              (λ '(i, ss), is_trunk SOMA secs ss ≫= λ b, Some (i, b)) (enumerate secs))
    as [flagged ->]; [|by eexists].
  apply Forall_forall. intros [i ss] Hin.
  apply list_elem_of_lookup in Hin as [k Hk]. apply lookup_enumerate in Hk as [_ Hk].
  unfold is_trunk. simpl. case_decide as Hpid; [|by eexists].
  destruct (py_index_is_Some secs (pid ss)) as [parent ->]; [|by eexists].
  specialize (Hrange ss (list_elem_of_lookup_2 _ _ _ Hk)). lia.
Qed.

(** X3.  [neurite_trunks] does not raise on the sections that
    [extract_sections] returns: every parent it looks up is in the list. *)
Theorem neurite_trunks_of_extracted db secs :
  extract_sections db = Some secs →
  is_Some (neurite_trunks SOMA {| data_block := db; sections := secs |}).
Proof.
  intros Hrun. apply neurite_trunks_returns. intros s Hs.
  by destruct (extract_sections_shape db secs Hrun s Hs) as (_ & ? & _).
Qed.

End Trunks.

Lemma section_with_parent_has_points_witness :
  (2 ≤ length (ids branch_section))%nat.
Proof.
  apply (section_with_parent_has_points y_branch y_branch_sections).
  - vm_compute. reflexivity.
  - apply list_elem_of_lookup. by exists 1%nat.
  - simpl. lia.
Defined.

Lemma section_indices_in_range_witness :
  -1 ≤ pid branch_section < Z.of_nat (length y_branch_sections)
  ∧ ∀ x, x ∈ ids branch_section → -1 ≤ x < Z.of_nat (length y_branch).
Proof.
  apply (section_indices_in_range y_branch y_branch_sections).
  - vm_compute. reflexivity.
  - apply list_elem_of_lookup. by exists 1%nat.
Defined.

Lemma neurite_trunks_of_extracted_witness :
  is_Some (neurite_trunks 1
             {| data_block := branch_after_gap;
                sections := [ {| ids := [-1; 0]; ntype := 3; pid := -1 |};
                              {| ids := []; ntype := 3; pid := -1 |};
                              {| ids := []; ntype := 3; pid := -1 |};
                              {| ids := [0; 1; 3]; ntype := 3; pid := 0 |};
                              {| ids := [0; 2; 4]; ntype := 3; pid := 0 |};
                              {| ids := [5]; ntype := 3; pid := -1 |} ] |}).
Proof.
  apply (neurite_trunks_of_extracted 1 branch_after_gap). vm_compute. reflexivity.
Defined.

(** ** A parent that is not in the table *)

Section UnknownParent.

Context {coord : Type}.
Implicit Types (db : list (Row coord)) (r : Row coord).

(** A loop raises when one of its iterations does, whatever the state. *)
Lemma foldlM_fails {A B : Type} (f : B → A → option B) (b : B) (l : list A) (x : A) :
  x ∈ l → (∀ b', f b' x = None) → foldlM f b l = None.
Proof.
  intros Hx Hf. revert b. induction l as [|y l IH]; intros b; [by apply elem_of_nil in Hx|].
  simpl. apply elem_of_cons in Hx as [<-|Hx]; [by rewrite Hf|].
  destruct (f b y); [by apply IH|done].
Qed.

(** [id_map] has no entry for a key that is neither [-1] nor an identifier
    of the table. *)
Lemma make_id_map_None db (k : Z) :
  k ≠ -1 → (∀ r, r ∈ db → ID r ≠ k) → make_id_map db !! k = None.
Proof.
  intros Hk. induction db as [|r front IH] using rev_ind; intros Hids.
  - unfold make_id_map. simpl. by apply lookup_singleton_ne.
  - rewrite make_id_map_snoc, lookup_insert_ne; [|apply Hids, elem_of_snoc].
    apply IH. intros r' Hr'. apply Hids, elem_of_app. by left.
Qed.

(** X4.  [extract_sections] raises ([KeyError]) on a table that has a row
    whose parent identifier is neither [-1] nor the identifier of a row. *)
Theorem extract_sections_unknown_parent db r :
  r ∈ db → P r ≠ -1 → (∀ r', r' ∈ db → ID r' ≠ P r) →
  extract_sections db = None.
Proof.
  intros Hr Hroot Hids. unfold extract_sections, scan.
  rewrite (foldlM_fails _ _ db r Hr); [done|].
  intros st. unfold scan_row. rewrite (make_id_map_None db (P r) Hroot Hids).
  by destruct (make_id_map db !! ID r).
Qed.

End UnknownParent.

Lemma extract_sections_unknown_parent_witness :
  extract_sections unknown_parent = None.
Proof.
  apply (extract_sections_unknown_parent unknown_parent (pt 1 3 7)).
  - apply list_elem_of_lookup. by exists 1%nat.
  - simpl. lia.
  - intros r' [i Hi]%list_elem_of_lookup.
    do 2 (destruct i as [|i]; [injection Hi as <-; simpl; lia|]). done.
Defined.

(** ** Connecting the nodes *)

Section Wiring.

Context {coord NeuriteType : Type}.
Variable SOMA : Z.
Variable _TREE_TYPES : list NeuriteType.
Implicit Types (rdw : SecDataWrapper coord) (nodes : list (Tree coord NeuriteType)).

(** What the iteration on node [i] does to each node of the store. *)
Lemma connect_node_effect rdw (start_node : Z) nodes nodes' (i : nat) :
  0 ≤ start_node →
  connect_node _TREE_TYPES rdw start_node nodes i = Some nodes' →
  ∃ sec ty,
    sections rdw !! i = Some sec ∧ py_index _TREE_TYPES (ntype sec) = Some ty
    ∧ length nodes' = length nodes
    ∧ ∀ j nd, nodes !! j = Some nd →
        ∃ nd', nodes' !! j = Some nd'
               ∧ value nd' = value nd
               ∧ type nd' = (if decide (j = i) then Some ty else type nd)
               ∧ section_id nd' = (if decide (j = i) then Some (Z.of_nat i) else section_id nd)
               ∧ children nd' =
                   children nd
                   ++ (if decide (pid sec = Z.of_nat j ∧ start_node ≤ Z.of_nat j)
                       then [i] else []).
Proof.
  intros Hstart. unfold connect_node. intros Hrun.
  destruct (sections rdw !! i) as [sec|] eqn:Hsec; [|done]. simpl in Hrun.
  destruct (py_index _ _) as [ty|] eqn:Hty; [|done]. simpl in Hrun.
  exists sec, ty. split; [done|]. split; [done|].
  set (tagged := alter (set_section_id (Z.of_nat i)) i (alter (set_type ty) i nodes)) in *.
  assert (Htagged : ∀ j nd, nodes !! j = Some nd →
            ∃ nd', tagged !! j = Some nd' ∧ value nd' = value nd
                   ∧ type nd' = (if decide (j = i) then Some ty else type nd)
                   ∧ section_id nd' =
                       (if decide (j = i) then Some (Z.of_nat i) else section_id nd)
                   ∧ children nd' = children nd).
  { intros j nd Hj. unfold tagged. destruct (decide (j = i)) as [->|Hne].
    - rewrite !list_lookup_alter_eq, Hj. simpl.
      eexists. split; [done|]. by repeat split.
    - rewrite !list_lookup_alter_ne by done.
      exists nd. split; [done|]. by repeat split. }
  assert (Hlen : length tagged = length nodes) by (unfold tagged; by rewrite !length_alter).
  case_decide as Hpid.
  - destruct (py_position _ _) as [parent|] eqn:Hpos; [|done]. simpl in Hrun.
    injection Hrun as <-. split; [by rewrite length_alter|].
    assert (Hparent : parent = Z.to_nat (pid sec)).
    { unfold py_position in Hpos. case_decide; [by injection Hpos|].
      case_decide; [lia|done]. }
    intros j nd Hj. destruct (Htagged j nd Hj) as (nd' & Hj' & Hv & Ht & Hs & Hc).
    destruct (decide (parent = j)) as [<-|Hne].
    + rewrite list_lookup_alter_eq, Hj'. simpl.
      eexists. split; [done|]. simpl. repeat (split; [done|]).
      rewrite Hc, decide_True; [done|]. lia.
    + rewrite list_lookup_alter_ne by done.
      exists nd'. repeat (split; [done|]).
      rewrite Hc, decide_False; [by rewrite app_nil_r|]. lia.
  - injection Hrun as <-. split; [done|].
    intros j nd Hj. destruct (Htagged j nd Hj) as (nd' & Hj' & Hv & Ht & Hs & Hc).
    exists nd'. repeat (split; [done|]).
    rewrite Hc, decide_False; [by rewrite app_nil_r|]. lia.
Qed.

(** What the loop has done to each node after [k] iterations. *)
Lemma connect_nodes_effect rdw (start_node : Z) nodes nodes' (k : nat) :
  0 ≤ start_node →
  foldlM (connect_node _TREE_TYPES rdw start_node) nodes (seq 0 k) = Some nodes' →
  length nodes' = length nodes
  ∧ ∀ j nd, nodes !! j = Some nd →
      ∃ nd', nodes' !! j = Some nd'
             ∧ value nd' = value nd
             ∧ type nd' =
                 (if decide (j < k)%nat
                  then sections rdw !! j ≫= λ sec, py_index _TREE_TYPES (ntype sec)
                  else type nd)
             ∧ section_id nd' = (if decide (j < k)%nat then Some (Z.of_nat j) else section_id nd)
             ∧ children nd' =
                 children nd
                 ++ filter (λ i, pid <$> sections rdw !! i = Some (Z.of_nat j)
                                 ∧ start_node ≤ Z.of_nat j) (seq 0 k).
Proof.
  intros Hstart. revert nodes'. induction k as [|k IH]; intros nodes'.
  - intros Hrun. simpl in Hrun. injection Hrun as <-. split; [done|].
    intros j nd Hj. exists nd. rewrite !decide_False by lia.
    repeat (split; [done|]). by rewrite app_nil_r.
  - rewrite seq_S, foldlM_snoc. intros Hstep.
    destruct (foldlM _ nodes (seq 0 k)) as [mid|]; [|done]. simpl in Hstep.
    destruct (IH mid eq_refl) as [Hlen Hmid].
    destruct (connect_node_effect _ _ _ _ _ Hstart Hstep)
      as (sec & ty & Hsec & Hty & Hlen' & Hstep').
    split; [congruence|]. intros j nd Hj.
    destruct (Hmid j nd Hj) as (nd1 & Hj1 & Hv1 & Ht1 & Hs1 & Hc1).
    destruct (Hstep' j nd1 Hj1) as (nd2 & Hj2 & Hv2 & Ht2 & Hs2 & Hc2).
    exists nd2. split; [done|]. split; [congruence|]. split; [|split].
    + rewrite Ht2, Ht1. destruct (decide (j = k)) as [->|Hne].
      * rewrite decide_True by lia. by rewrite Hsec.
      * destruct (decide (j < k)%nat).
        -- by rewrite decide_True by lia.
        -- by rewrite decide_False by lia.
    + rewrite Hs2, Hs1. destruct (decide (j = k)) as [->|Hne].
      * by rewrite decide_True by lia.
      * destruct (decide (j < k)%nat).
        -- by rewrite decide_True by lia.
        -- by rewrite decide_False by lia.
    + rewrite Hc2, Hc1, filter_app, <- app_assoc. f_equal. f_equal.
      destruct (decide (pid sec = Z.of_nat j ∧ start_node ≤ Z.of_nat j)) as [[Hp ?]|Hno].
      * rewrite filter_cons_True; [done|]. simpl. rewrite Hsec. simpl. by rewrite Hp.
      * rewrite filter_cons_False; [done|]. simpl. rewrite Hsec. simpl.
        intros [[= Hp] ?]. by apply Hno.
Qed.

(** The first trunk is not before the first section. *)
Lemma py_min_trunks_nonneg rdw (trunks : list Z) (start_node : Z) :
  neurite_trunks SOMA rdw = Some trunks → py_min trunks = Some start_node →
  0 ≤ start_node.
Proof.
  intros Htr Hmin.
  assert (Hall : ∀ i, i ∈ trunks → 0 ≤ i).
  { intros i Hi. destruct (neurite_trunks_inv SOMA rdw trunks i Htr Hi) as (k & _ & -> & _).
    lia. }
  destruct trunks as [|x l]; [done|]. simpl in Hmin. injection Hmin as <-.
  assert (Hx : 0 ≤ x) by (apply Hall; left).
  assert (Hl : ∀ i, i ∈ l → 0 ≤ i) by (intros i Hi; apply Hall; by right).
  clear Hall Htr. revert x Hx. induction l as [|y l IH]; intros x Hx; [done|].
  simpl. apply IH.
  - intros i Hi. apply Hl. by right.
  - assert (0 ≤ y) by (apply Hl; left). lia.
Qed.

(** The store of nodes that [make_neurites] builds before the post-action. *)
Lemma make_neurites_nodes rdw
    (post_action : option (Tree coord NeuriteType → option (Tree coord NeuriteType)))
    (neurites : list (Neurite coord NeuriteType)) nodes (trunks : list Z) (start_node : Z) :
  make_neurites SOMA _TREE_TYPES rdw post_action = Some (neurites, nodes) →
  neurite_trunks SOMA rdw = Some trunks → py_min trunks = Some start_node →
  ∃ nodes0 nodes1,
    mapM (λ sec, new_Tree <$> py_take_rows (data_block rdw) (ids sec)) (sections rdw)
    = Some nodes0
    ∧ foldlM (connect_node _TREE_TYPES rdw start_node) nodes0 (seq 0 (length nodes0))
      = Some nodes1
    ∧ mapM (λ i, py_position (length nodes1) i ≫= Neurite_init nodes1) trunks = Some neurites
    ∧ match post_action with
      | Some action => foldlM (apply_action action) nodes1 neurites
      | None => Some nodes1
      end = Some nodes.
Proof.
  unfold make_neurites. intros Hrun Htr Hmin. rewrite Htr in Hrun. simpl in Hrun.
  case_decide as Hlen; [by destruct trunks|]. rewrite Hmin in Hrun. simpl in Hrun.
  destruct (mapM _ (sections rdw)) as [nodes0|] eqn:Hnodes0; [|done]. simpl in Hrun.
  destruct (foldlM _ nodes0 _) as [nodes1|] eqn:Hnodes1; [|done]. simpl in Hrun.
  destruct (mapM _ trunks) as [neurites'|] eqn:Hneurites; [|done]. simpl in Hrun.
  exists nodes0, nodes1. split; [done|]. split; [done|].
  destruct post_action as [action|].
  - destruct (foldlM _ nodes1 neurites') as [nodes2|] eqn:Hact; [|done]. simpl in Hrun.
    injection Hrun as <- <-. by rewrite Hact.
  - simpl in Hrun. by injection Hrun as <- <-.
Qed.

(** X5.  Without post-action, the nodes that [make_neurites] returns are
    connected as follows, [start_node] being the first trunk: the children
    of node [j] are the sections whose parent is [j], in the order of the
    section list, when [j] is not before [start_node], and node [j] has no
    child when it is; node [j] has the type that [_TREE_TYPES] gives for the
    type tag of section [j]. *)
Theorem make_neurites_children rdw (neurites : list (Neurite coord NeuriteType)) nodes
    (trunks : list Z) (start_node : Z) (j : nat) (nd : Tree coord NeuriteType) :
  make_neurites SOMA _TREE_TYPES rdw None = Some (neurites, nodes) →
  neurite_trunks SOMA rdw = Some trunks → py_min trunks = Some start_node →
  nodes !! j = Some nd →
  children nd = children_of (sections rdw) start_node j
  ∧ type nd = sections rdw !! j ≫= λ sec, py_index _TREE_TYPES (ntype sec).
Proof.
  intros Hrun Htr Hmin Hj.
  destruct (make_neurites_nodes _ _ _ _ _ _ Hrun Htr Hmin)
    as (nodes0 & nodes1 & Hnodes0 & Hnodes1 & _ & Hnodes).
  injection Hnodes as ->.
  pose proof (length_mapM _ _ _ Hnodes0) as Hlen0.
  destruct (connect_nodes_effect _ _ _ _ _ (py_min_trunks_nonneg _ _ _ Htr Hmin) Hnodes1)
    as [Hlen1 Heffect].
  destruct (lookup_lt_is_Some_2 nodes0 j) as [nd0 Hnd0].
  { apply lookup_lt_Some in Hj. lia. }
  destruct (Heffect j nd0 Hnd0) as (nd' & Hj' & _ & Hty & _ & Hch).
  rewrite Hj in Hj'. injection Hj' as <-.
  assert (Hnew : children nd0 = [] ∧ type nd0 = None).
  { apply mapM_Some_1 in Hnodes0.
    destruct (Forall2_lookup_r _ _ _ _ _ Hnodes0 Hnd0) as (sec & _ & Hsec).
    destruct (py_take_rows _ _); [|done]. simpl in Hsec. by injection Hsec as <-. }
  destruct Hnew as [Hc0 _]. split.
  - rewrite Hch, Hc0. unfold children_of. by rewrite Hlen0.
  - rewrite Hty, decide_True; [done|]. by apply lookup_lt_Some in Hnd0.
Qed.

End Wiring.

Lemma make_neurites_children_witness :
  ∃ rdw neurites nodes nd,
    SecDataWrapper_init soma_y_branch None = Some rdw
    ∧ make_neurites 1 TT rdw None = Some (neurites, nodes)
    ∧ nodes !! 2%nat = Some nd
    ∧ children nd = children_of (sections rdw) 2 2
    ∧ type nd = sections rdw !! 2%nat ≫= λ sec, py_index TT (ntype sec).
Proof.
  eexists {| data_block := soma_y_branch; sections := _ |}.
  do 3 eexists. split; [vm_compute; reflexivity|].
  split; [vm_compute; reflexivity|]. split; [reflexivity|].
  eapply (make_neurites_children 1 TT _ _ _ [2] 2 2%nat).
  - vm_compute. reflexivity.
  - vm_compute. reflexivity.
  - reflexivity.
  - reflexivity.
Defined.

(** ** The post-action of the SWC format *)

Section SomaAction.

Context {coord NeuriteType : Type}.
Variable SOMA : Z.
Variable _TREE_TYPES : list NeuriteType.
Implicit Types (rdw : SecDataWrapper coord) (nodes : list (Tree coord NeuriteType))
  (ns : list (Neurite coord NeuriteType)).

(** The action on one trunk: the node of the trunk keeps everything but
    its rows, of which it may lose the first; the other nodes are kept. *)
Lemma apply_soma_action nodes nodes' (n : Neurite coord NeuriteType) :
  apply_action (_remove_soma_initial_point SOMA) nodes n = Some nodes' →
  length nodes' = length nodes
  ∧ ∀ j nd, nodes !! j = Some nd →
      ∃ nd', nodes' !! j = Some nd'
             ∧ children nd' = children nd ∧ type nd' = type nd
             ∧ section_id nd' = section_id nd
             ∧ (value nd' = value nd ∨ (value nd' = drop 1 (value nd) ∧ value nd ≠ []))
             ∧ (root_node n ≠ j → nd' = nd).
Proof.
  unfold apply_action, _remove_soma_initial_point. intros Hrun.
  destruct (nodes !! root_node n) as [t|] eqn:Hroot; [|done]. simpl in Hrun.
  destruct (head (value t)) as [first|] eqn:Hhead; [|done]. simpl in Hrun.
  assert (Hne : value t ≠ []) by (by destruct (value t)).
  assert (∃ t', nodes' = <[root_node n := t']> nodes
                ∧ children t' = children t ∧ type t' = type t
                ∧ section_id t' = section_id t
                ∧ (value t' = value t ∨ value t' = drop 1 (value t)))
    as (t' & -> & Hc & Ht & Hs & Hv).
  { case_decide; simpl in Hrun; injection Hrun as <-; eexists; (split; [done|]);
      simpl; auto. }
  split; [by rewrite length_insert|].
  intros j nd Hj. destruct (decide (root_node n = j)) as [<-|Hj'].
  - rewrite Hroot in Hj. injection Hj as <-.
    exists t'. rewrite list_lookup_insert_eq by (by apply lookup_lt_Some in Hroot).
    split; [done|]. repeat (split; [done|]). split; [|done].
    destruct Hv as [?|?]; [by left|by right].
  - exists nd. rewrite list_lookup_insert_ne by done. split; [done|].
    repeat (split; [done|]). split; [by left|done].
Qed.

(** The actions on a sequence of trunks. *)
Lemma apply_soma_actions nodes nodes' ns :
  foldlM (apply_action (_remove_soma_initial_point SOMA)) nodes ns = Some nodes' →
  length nodes' = length nodes
  ∧ ∀ j nd, nodes !! j = Some nd →
      ∃ nd', nodes' !! j = Some nd'
             ∧ children nd' = children nd ∧ type nd' = type nd
             ∧ section_id nd' = section_id nd
             ∧ value nd' `suffix_of` value nd
             ∧ ((∀ n, n ∈ ns → root_node n ≠ j) → nd' = nd).
Proof.
  revert nodes. induction ns as [|n ns IH]; intros nodes Hrun.
  - simpl in Hrun. injection Hrun as <-. split; [done|]. intros j nd Hj.
    exists nd. by repeat split.
  - simpl in Hrun.
    destruct (apply_action _ nodes n) as [mid|] eqn:Hstep; [|done].
    destruct (apply_soma_action _ _ _ Hstep) as [Hlen Hmid].
    destruct (IH mid Hrun) as [Hlen' Hrest].
    split; [congruence|]. intros j nd Hj.
    destruct (Hmid j nd Hj) as (nd1 & Hj1 & Hc1 & Ht1 & Hs1 & Hv1 & Hsame1).
    destruct (Hrest j nd1 Hj1) as (nd2 & Hj2 & Hc2 & Ht2 & Hs2 & Hv2 & Hsame2).
    exists nd2. split; [done|]. split; [congruence|]. split; [congruence|].
    split; [congruence|]. split.
    + etrans; [exact Hv2|]. destruct Hv1 as [->|[-> _]]; [done|apply suffix_drop].
    + intros Hroots. rewrite Hsame2, Hsame1; [done| |].
      * apply Hroots. left.
      * intros n' Hn'. apply Hroots. by right.
Qed.

(** X6.  With the post-action of the SWC format, [make_neurites] returns
    the neurites and the tree that it returns without post-action: each node
    has the same children, type and section identifier, and its rows are a
    suffix of what they are without post-action; a node that is not the
    trunk of a neurite is the same. *)
Theorem soma_action_keeps_tree rdw ns nodes' :
  make_neurites SOMA _TREE_TYPES rdw (Some (_remove_soma_initial_point SOMA))
  = Some (ns, nodes') →
  ∃ nodes,
    make_neurites SOMA _TREE_TYPES rdw None = Some (ns, nodes)
    ∧ length nodes' = length nodes
    ∧ ∀ j nd, nodes !! j = Some nd →
        ∃ nd', nodes' !! j = Some nd'
               ∧ children nd' = children nd ∧ type nd' = type nd
               ∧ section_id nd' = section_id nd
               ∧ value nd' `suffix_of` value nd
               ∧ ((∀ n, n ∈ ns → root_node n ≠ j) → nd' = nd).
Proof.
  unfold make_neurites.
  destruct (neurite_trunks SOMA rdw) as [trunks|]; [|done]. simpl.
  case_decide.
  - intros [= <- <-]. exists []. split; [done|]. split; [done|]. by intros j nd.
  - destruct (py_min trunks) as [start_node|]; [|done]. simpl.
    destruct (mapM _ (sections rdw)) as [nodes0|]; [|done]. simpl.
    destruct (foldlM _ nodes0 _) as [nodes1|]; [|done]. simpl.
    destruct (mapM _ trunks) as [neurites|]; [|done]. simpl.
    destruct (foldlM _ nodes1 neurites) as [nodes2|] eqn:Hact; [|done]. simpl.
    intros [= <- <-]. exists nodes1. split; [done|].
    by apply apply_soma_actions.
Qed.

End SomaAction.

Lemma soma_action_keeps_tree_witness :
  ∃ rdw ns nodes' nodes,
    SecDataWrapper_init soma_y_branch None = Some rdw
    ∧ make_neurites 1 TT rdw (Some (_remove_soma_initial_point 1)) = Some (ns, nodes')
    ∧ make_neurites 1 TT rdw None = Some (ns, nodes)
    ∧ length nodes' = length nodes
    ∧ ∀ j nd, nodes !! j = Some nd →
        ∃ nd', nodes' !! j = Some nd'
               ∧ children nd' = children nd ∧ type nd' = type nd
               ∧ section_id nd' = section_id nd
               ∧ value nd' `suffix_of` value nd
               ∧ ((∀ n, n ∈ ns → root_node n ≠ j) → nd' = nd).
Proof.
  eexists {| data_block := soma_y_branch; sections := _ |}.
  do 2 eexists.
  assert (Hrun : make_neurites 1 TT
            {| data_block := soma_y_branch;
               sections := default [] (extract_sections soma_y_branch) |}
            (Some (_remove_soma_initial_point 1)) = Some (_, _))
    by (vm_compute; reflexivity).
  destruct (soma_action_keeps_tree 1 TT _ _ _ Hrun) as (nodes & Hnone & Hrest).
  exists nodes. split; [vm_compute; reflexivity|]. split; [exact Hrun|]. by split.
Defined.

(** ** From the table to the neurites *)

Section Pipeline.

Context {coord NeuriteType : Type}.
Variable SOMA : Z.
Variable _TREE_TYPES : list NeuriteType.
Implicit Types (db : list (Row coord)) (secs : list Sec)
  (rdw : SecDataWrapper coord) (nodes : list (Tree coord NeuriteType))
  (ns : list (Neurite coord NeuriteType)).

(** No section index is a trunk twice. *)
Lemma neurite_trunks_NoDup rdw (trunks : list Z) :
  neurite_trunks SOMA rdw = Some trunks → NoDup trunks.
Proof.
  unfold neurite_trunks.
  destruct (mapM _ _) as [flagged|] eqn:Hmap; [|done]. simpl. intros [= <-].
  apply mapM_Some_1 in Hmap.
  apply (sublist_NoDup _ (fst <$> flagged)).
  - apply NoDup_alt. intros i j x Hi Hj.
    rewrite list_lookup_fmap in Hi, Hj.
    destruct (flagged !! i) as [[a b]|] eqn:Hfi; [|done].
    destruct (flagged !! j) as [[a' b']|] eqn:Hfj; [|done].
    simpl in Hi, Hj. injection Hi as ->. injection Hj as ->.
    destruct (Forall2_lookup_r _ _ _ _ _ Hmap Hfi) as ([i1 s1] & Hl1 & Hf1).
    destruct (Forall2_lookup_r _ _ _ _ _ Hmap Hfj) as ([i2 s2] & Hl2 & Hf2).
    apply lookup_enumerate in Hl1 as [-> _]. apply lookup_enumerate in Hl2 as [-> _].
    destruct (is_trunk _ _ s1); [|done]. destruct (is_trunk _ _ s2); [|done].
    simpl in Hf1, Hf2. injection Hf1 as Hf1 _. injection Hf2 as Hf2 _. lia.
  - apply fmap_sublist, sublist_filter.
Qed.

Lemma extract_sections_nil : extract_sections ([] : list (Row coord)) = Some [new_Section].
Proof.
  unfold extract_sections, scan, resolve, _sections, resolve_section. simpl.
  by rewrite decide_False by apply not_elem_of_empty.
Qed.

(** The rows of a section of an extracted list can be taken from the data
    block, and they are as many as its point ids. *)
Lemma take_rows_of_extracted db secs (s : Sec) :
  extract_sections db = Some secs → s ∈ secs →
  ∃ rows, py_take_rows db (ids s) = Some rows ∧ length rows = length (ids s).
Proof.
  intros Hrun Hs.
  destruct (mapM_is_Some_2 (py_index db) (ids s)) as [rows Hrows].
  - apply Forall_forall. intros x Hx. apply py_index_is_Some.
    destruct db as [|r db'].
    + rewrite extract_sections_nil in Hrun. injection Hrun as <-.
      apply list_elem_of_singleton in Hs as ->. by apply elem_of_nil in Hx.
    + destruct (extract_sections_shape _ secs Hrun s Hs) as (_ & _ & Hids).
      pose proof (proj1 (Forall_forall _ _) Hids x Hx) as Hin. unfold in_table in Hin.
      simpl in *. lia.
  - exists rows. split; [done|]. symmetry. by eapply length_mapM.
Qed.

(** The loop that connects the nodes returns when every section has a known
    type and a parent in the list. *)
Lemma connect_nodes_total rdw (start_node : Z) nodes :
  length nodes = length (sections rdw) →
  (∀ s, s ∈ sections rdw → is_Some (py_index _TREE_TYPES (ntype s))) →
  (∀ s, s ∈ sections rdw → pid s < Z.of_nat (length (sections rdw))) →
  0 ≤ start_node →
  is_Some (foldlM (connect_node _TREE_TYPES rdw start_node) nodes (seq 0 (length nodes))).
Proof.
  intros Hlen Htypes Hpids Hstart.
  destruct (foldlM_total (λ nodes', length nodes' = length nodes)
              (connect_node _TREE_TYPES rdw start_node) nodes (seq 0 (length nodes)))
    as (nodes' & -> & _); [done| |by eexists].
  intros nodes1 i Hlen1 [_ Hi]%elem_of_seq. simpl in Hi.
  destruct (lookup_lt_is_Some_2 (sections rdw) i) as [sec Hsec]; [lia|].
  pose proof (list_elem_of_lookup_2 _ _ _ Hsec) as Hin.
  destruct (Htypes sec Hin) as [ty Hty]. specialize (Hpids sec Hin).
  unfold connect_node. rewrite Hsec. simpl. rewrite Hty. simpl.
  case_decide.
  - rewrite !length_alter, py_position_in_range by lia. simpl.
    eexists. split; [done|]. by rewrite !length_alter.
  - eexists. split; [done|]. by rewrite !length_alter.
Qed.

(** The post-action of the SWC format returns on trunks that are distinct
    and have rows. *)
Lemma apply_soma_actions_total nodes ns :
  NoDup (root_node <$> ns) →
  (∀ n, n ∈ ns → ∃ nd, nodes !! root_node n = Some nd ∧ value nd ≠ []) →
  is_Some (foldlM (apply_action (_remove_soma_initial_point SOMA)) nodes ns).
Proof.
  revert nodes. induction ns as [|n ns IH]; intros nodes Hnd Hrows; [by eexists|].
  rewrite fmap_cons in Hnd. apply NoDup_cons in Hnd as [Hfresh Hnd].
  destruct (Hrows n) as (nd & Hroot & Hvalue); [left|].
  assert (∃ mid, apply_action (_remove_soma_initial_point SOMA) nodes n = Some mid)
    as [mid Hmid].
  { unfold apply_action, _remove_soma_initial_point. rewrite Hroot. simpl.
    destruct (value nd) as [|first rest]; [done|]. simpl. case_decide; by eexists. }
  simpl. rewrite Hmid. apply IH; [done|].
  intros n' Hn'. destruct (Hrows n') as (nd' & Hroot' & Hvalue'); [by right|].
  destruct (apply_soma_action _ _ _ _ Hmid) as [_ Heffect].
  destruct (Heffect _ _ Hroot') as (nd2 & Hroot2 & _ & _ & _ & _ & Hsame).
  exists nd2. split; [done|]. rewrite Hsame; [done|].
  intros Heq. apply Hfresh. rewrite Heq. apply list_elem_of_fmap. by exists n'.
Qed.

(** What [make_neurites] builds from an extracted list of sections, before
    the post-action: it does not raise when every type tag has its type, the
    trunks are distinct nodes, and every trunk has two rows at least. *)
Lemma make_neurites_of_extracted_nodes db secs (trunks : list Z) (start_node : Z) :
  extract_sections db = Some secs →
  (∀ s, s ∈ secs → is_Some (py_index _TREE_TYPES (ntype s))) →
  neurite_trunks SOMA {| data_block := db; sections := secs |} = Some trunks →
  py_min trunks = Some start_node →
  ∃ nodes0 nodes1 ns,
    mapM (λ sec, new_Tree <$> py_take_rows db (ids sec)) secs = Some nodes0
    ∧ foldlM (connect_node _TREE_TYPES {| data_block := db; sections := secs |} start_node)
        nodes0 (seq 0 (length nodes0)) = Some nodes1
    ∧ mapM (λ i, py_position (length nodes1) i ≫= Neurite_init nodes1) trunks = Some ns
    ∧ NoDup (root_node <$> ns)
    ∧ ∀ n, n ∈ ns →
        ∃ nd, nodes1 !! root_node n = Some nd ∧ (2 ≤ length (value nd))%nat.
Proof.
  intros Hrun Htypes Htr Hmin.
  set (rdw := {| data_block := db; sections := secs |}) in *.
  pose proof (py_min_trunks_nonneg SOMA rdw trunks start_node Htr Hmin) as Hstart.
  destruct (mapM_is_Some_2
              (λ sec, @new_Tree coord NeuriteType <$> py_take_rows db (ids sec)) secs)
    as [nodes0 Hnodes0].
  { apply Forall_forall. intros s Hs.
    destruct (take_rows_of_extracted db secs s Hrun Hs) as (rows & Hrows & _).
    simpl. rewrite Hrows. by eexists. }
  pose proof (length_mapM _ _ _ Hnodes0) as Hlen0.
  destruct (connect_nodes_total rdw start_node nodes0) as [nodes1 Hnodes1]; try done.
  { intros s Hs. destruct (extract_sections_shape db secs Hrun s Hs) as (_ & Hp & _).
    simpl. lia. }
  destruct (connect_nodes_effect _TREE_TYPES rdw start_node nodes0 nodes1 _ Hstart Hnodes1)
    as [Hlen1 Heffect].
  assert (Htrunk : ∀ i, i ∈ trunks →
            ∃ (k : nat) n nd,
              i = Z.of_nat k
              ∧ py_position (length nodes1) i ≫= Neurite_init nodes1 = Some n
              ∧ root_node n = k
              ∧ nodes1 !! k = Some nd ∧ (2 ≤ length (value nd))%nat).
  { intros i Hi.
    destruct (neurite_trunks_inv SOMA rdw trunks i Htr Hi) as (k & ss & -> & Hss & Hpid & _).
    simpl in Hss. pose proof (list_elem_of_lookup_2 _ _ _ Hss) as Hin.
    apply mapM_Some_1 in Hnodes0.
    destruct (Forall2_lookup_l _ _ _ _ _ Hnodes0 Hss) as (nd0 & Hnd0 & Hrows0).
    destruct (take_rows_of_extracted db secs ss Hrun Hin) as (rows & Hrows & Hlen).
    rewrite Hrows in Hrows0. simpl in Hrows0. injection Hrows0 as <-.
    destruct (Heffect k _ Hnd0) as (nd & Hnd & Hv & Hty & _).
    rewrite decide_True in Hty by (by apply lookup_lt_Some in Hnd0).
    simpl in Hty. rewrite Hss in Hty. simpl in Hty.
    destruct (Htypes ss Hin) as [ty Hty']. rewrite Hty' in Hty.
    exists k, {| root_node := k; neurite_type := ty; _points := None |}, nd.
    split; [done|]. split.
    { rewrite py_position_in_range by (apply lookup_lt_Some in Hnd; lia).
      simpl. rewrite Nat2Z.id. unfold Neurite_init. rewrite Hnd. simpl. by rewrite Hty. }
    split; [done|]. split; [done|]. rewrite Hv. simpl. rewrite Hlen.
    destruct (extract_sections_shape db secs Hrun ss Hin) as ([?|?] & _); [lia|done]. }
  destruct (mapM_is_Some_2 (λ i, py_position (length nodes1) i ≫= Neurite_init nodes1) trunks)
    as [ns Hns].
  { apply Forall_forall. intros i Hi.
    destruct (Htrunk i Hi) as (k & n & nd & _ & Hn & _). simpl. by rewrite Hn. }
  exists nodes0, nodes1, ns. split; [done|]. split; [done|]. split; [done|].
  apply mapM_Some_1 in Hns.
  assert (Hroots : ∀ (j : nat) n, ns !! j = Some n →
            trunks !! j = Some (Z.of_nat (root_node n))
            ∧ ∃ nd, nodes1 !! root_node n = Some nd ∧ (2 ≤ length (value nd))%nat).
  { intros j n Hj. destruct (Forall2_lookup_r _ _ _ _ _ Hns Hj) as (i & Hi & Hinit).
    destruct (Htrunk i (list_elem_of_lookup_2 _ _ _ Hi)) as (k & n' & nd & -> & Hn' & Hk & Hnd).
    rewrite Hn' in Hinit. injection Hinit as <-. rewrite Hk. split; [done|].
    by exists nd. }
  split.
  - apply NoDup_alt. intros j1 j2 x Hj1 Hj2. rewrite list_lookup_fmap in Hj1, Hj2.
    destruct (ns !! j1) as [n1|] eqn:Hn1; [|done].
    destruct (ns !! j2) as [n2|] eqn:Hn2; [|done].
    simpl in Hj1, Hj2. injection Hj1 as Hj1. injection Hj2 as Hj2.
    destruct (Hroots j1 n1 Hn1) as [Ht1 _]. destruct (Hroots j2 n2 Hn2) as [Ht2 _].
    rewrite Hj1 in Ht1. rewrite Hj2 in Ht2.
    by apply (NoDup_lookup trunks j1 j2 (Z.of_nat x) (neurite_trunks_NoDup rdw trunks Htr)).
  - intros n [j Hj]%list_elem_of_lookup. by destruct (Hroots j n Hj) as [_ ?].
Qed.

(** X7.  On the sections that [extract_sections] returns for a data block,
    [make_neurites] does not raise, without post-action and with that of the
    SWC format, provided [_TREE_TYPES] has an entry for the type tag of every
    section. *)
Theorem make_neurites_of_extracted db secs :
  extract_sections db = Some secs →
  (∀ s, s ∈ secs → is_Some (py_index _TREE_TYPES (ntype s))) →
  is_Some (make_neurites SOMA _TREE_TYPES {| data_block := db; sections := secs |} None)
  ∧ is_Some (make_neurites SOMA _TREE_TYPES {| data_block := db; sections := secs |}
               (Some (_remove_soma_initial_point SOMA))).
Proof.
  intros Hrun Htypes.
  destruct (neurite_trunks_returns SOMA db secs) as [trunks Htr].
  { intros s Hs. by destruct (extract_sections_shape db secs Hrun s Hs) as (_ & ? & _). }
  unfold make_neurites. rewrite Htr. simpl.
  case_decide as Hlen; [split; by eexists|].
  destruct (py_min trunks) as [start_node|] eqn:Hmin; [|by destruct trunks].
  destruct (make_neurites_of_extracted_nodes db secs trunks start_node Hrun Htypes Htr Hmin)
    as (nodes0 & nodes1 & ns & Hnodes0 & Hnodes1 & Hns & Hnd & Hrows).
  simpl. rewrite Hnodes0. simpl. rewrite Hnodes1. simpl.
  destruct (mapM _ trunks) as [ns'|] eqn:Hns'.
  2:{ first [ discriminate Hns
            | assert (Some ns = None) by (etrans; [symmetry; exact Hns|exact Hns']); done ]. }
  assert (ns' = ns) as ->
    by first [ by injection Hns
             | apply (inj Some); etrans; [symmetry; exact Hns'|exact Hns] ].
  simpl. split; [by eexists|].
  destruct (apply_soma_actions_total nodes1 ns Hnd) as [nodes2 Hnodes2].
  - intros n Hn. destruct (Hrows n Hn) as (nd & Hroot & Hlen2).
    exists nd. split; [done|]. destruct (value nd); [simpl in Hlen2; lia|done].
  - rewrite Hnodes2. by eexists.
Qed.

(** The trunk nodes keep rows: the post-action of the SWC format takes one
    row at most from each of them. *)
Lemma trunk_node_rows db secs
    (post_action : option (Tree coord NeuriteType → option (Tree coord NeuriteType)))
    ns nodes (n : Neurite coord NeuriteType) :
  extract_sections db = Some secs →
  post_action = None ∨ post_action = Some (_remove_soma_initial_point SOMA) →
  make_neurites SOMA _TREE_TYPES {| data_block := db; sections := secs |} post_action
  = Some (ns, nodes) →
  n ∈ ns →
  ∃ nd, nodes !! root_node n = Some nd
        ∧ (1 ≤ length (value nd))%nat
        ∧ (post_action = None → (2 ≤ length (value nd))%nat).
Proof.
  intros Hrun Haction Hmake Hn.
  set (rdw := {| data_block := db; sections := secs |}) in *.
  assert (∃ trunks, neurite_trunks SOMA rdw = Some trunks) as [trunks Htr].
  { unfold make_neurites in Hmake. destruct (neurite_trunks SOMA rdw); [eauto|done]. }
  assert (∃ start_node, py_min trunks = Some start_node) as [start_node Hmin].
  { destruct trunks as [|x l]; [|by eexists].
    unfold make_neurites in Hmake. rewrite Htr in Hmake. simpl in Hmake.
    injection Hmake as <- _. by apply elem_of_nil in Hn. }
  destruct (make_neurites_nodes SOMA _TREE_TYPES rdw post_action ns nodes trunks start_node
              Hmake Htr Hmin) as (nodes0 & nodes1 & Hnodes0 & Hnodes1 & Hns & Hnodes).
  assert (Htypes : ∀ s, s ∈ secs → is_Some (py_index _TREE_TYPES (ntype s))).
  { intros s [i Hi]%list_elem_of_lookup.
    pose proof (py_min_trunks_nonneg SOMA rdw trunks start_node Htr Hmin) as Hstart.
    assert (Hsub : ∀ k mid,
              foldlM (connect_node _TREE_TYPES rdw start_node) nodes0 (seq 0 k) = Some mid →
              ∀ j sec, (j < k)%nat → sections rdw !! j = Some sec →
                is_Some (py_index _TREE_TYPES (ntype sec))).
    { induction k as [|k IH]; intros mid Hmid j sec Hj Hsec; [lia|].
      rewrite seq_S, foldlM_snoc in Hmid.
      destruct (foldlM _ nodes0 (seq 0 k)) as [mid0|] eqn:Hmid0; [|done]. simpl in Hmid.
      destruct (connect_node_effect _ _ _ _ _ _ Hstart Hmid) as (sec' & ty & Hsec' & Hty & _).
      destruct (decide (j = k)) as [->|Hne].
      - rewrite Hsec in Hsec'. injection Hsec' as <-. by eexists.
      - apply (IH mid0 eq_refl j sec); [lia|done]. }
    apply (Hsub _ _ Hnodes1 i s); [|done].
    apply lookup_lt_Some in Hi. by rewrite <- (length_mapM _ _ _ Hnodes0). }
  destruct (make_neurites_of_extracted_nodes db secs trunks start_node Hrun Htypes Htr Hmin)
    as (nodes0' & nodes1' & ns' & Hnodes0' & Hnodes1' & Hns' & Hnd & Hrows).
  assert (nodes0' = nodes0) as ->
    by (apply (inj Some); etrans; [symmetry; exact Hnodes0'|exact Hnodes0]).
  assert (nodes1' = nodes1) as ->
    by (apply (inj Some); etrans; [symmetry; exact Hnodes1'|exact Hnodes1]).
  assert (ns' = ns) as ->
    by (apply (inj Some); etrans; [symmetry; exact Hns'|exact Hns]).
  destruct (Hrows n Hn) as (nd & Hroot & Hlen).
  destruct Haction as [-> | ->].
  - injection Hnodes as <-. exists nd. split; [done|]. split; [lia|done].
  - destruct (apply_soma_actions SOMA nodes1 nodes ns Hnodes) as [_ Heffect].
    clear Hrows Hns Hmake.
    assert (Honce : ∀ (l : list (Neurite coord NeuriteType)) h h',
              NoDup (root_node <$> l) →
              foldlM (apply_action (_remove_soma_initial_point SOMA)) h l = Some h' →
              ∀ j t, h !! j = Some t →
                ∃ t', h' !! j = Some t' ∧ (length (value t) ≤ S (length (value t')))%nat).
    { induction l as [|n0 l IH]; intros h h' Hdup Hfold j t Hj.
      - simpl in Hfold. injection Hfold as <-. exists t. split; [done|lia].
      - rewrite fmap_cons in Hdup. apply NoDup_cons in Hdup as [Hfresh Hdup].
        simpl in Hfold.
        destruct (apply_action _ h n0) as [mid|] eqn:Hstep; [|done].
        destruct (apply_soma_action _ _ _ _ Hstep) as [_ Hmid].
        destruct (Hmid j t Hj) as (t1 & Hj1 & _ & _ & _ & Hv1 & Hsame1).
        destruct (decide (root_node n0 = j)) as [<-|Hne].
        + destruct (apply_soma_actions SOMA mid h' l Hfold) as [_ Hrest].
          destruct (Hrest _ _ Hj1) as (t2 & Hj2 & _ & _ & _ & _ & Hsame2).
          exists t2. split; [done|]. rewrite Hsame2.
          * destruct Hv1 as [->|[-> _]]; [lia|]. rewrite length_drop. lia.
          * intros n' Hn' Heq. apply Hfresh. rewrite <- Heq.
            apply list_elem_of_fmap. by exists n'.
        + rewrite (Hsame1 Hne) in Hj1. by apply (IH mid h' Hdup Hfold j t). }
    destruct (Honce ns nodes1 nodes Hnd Hnodes _ _ Hroot) as (nd' & Hroot' & Hlen').
    exists nd'. split; [done|]. split; [lia|done].
Qed.

(** X8.  In what [make_neurites] returns on the sections extracted from a
    data block, every neurite has a trunk node with rows: two at least
    without post-action, one at least with the post-action of the SWC
    format.  So [points] always finds the first row of the trunk. *)
Theorem neurite_trunk_has_rows db secs
    (post_action : option (Tree coord NeuriteType → option (Tree coord NeuriteType)))
    ns nodes (n : Neurite coord NeuriteType) :
  extract_sections db = Some secs →
  post_action = None ∨ post_action = Some (_remove_soma_initial_point SOMA) →
  make_neurites SOMA _TREE_TYPES {| data_block := db; sections := secs |} post_action
  = Some (ns, nodes) →
  n ∈ ns →
  ∃ nd, nodes !! root_node n = Some nd
        ∧ (1 ≤ length (value nd))%nat
        ∧ (post_action = None → (2 ≤ length (value nd))%nat).
Proof.
  intros Hrun Haction Hmake Hn.
  destruct (trunk_node_rows db secs post_action ns nodes n Hrun Haction Hmake Hn)
    as (nd & Hroot & Hrows).
  by exists nd.
Qed.

End Pipeline.

Lemma soma_y_sections_types (s : Sec) :
  s ∈ soma_y_sections → is_Some (py_index TT (ntype s)).
Proof.
  intros [i Hi]%list_elem_of_lookup.
  do 6 (destruct i as [|i]; [injection Hi as <-; vm_compute; by eexists|]). done.
Qed.

Lemma make_neurites_of_extracted_witness :
  is_Some (make_neurites 1 TT
             {| data_block := soma_y_branch; sections := soma_y_sections |} None)
  ∧ is_Some (make_neurites 1 TT
               {| data_block := soma_y_branch; sections := soma_y_sections |}
               (Some (_remove_soma_initial_point 1))).
Proof.
  apply (make_neurites_of_extracted 1 TT soma_y_branch soma_y_sections).
  - vm_compute. reflexivity.
  - exact soma_y_sections_types.
Defined.

Lemma neurite_trunk_has_rows_witness :
  ∃ ns nodes n nd,
    make_neurites 1 TT {| data_block := soma_y_branch; sections := soma_y_sections |}
      (Some (_remove_soma_initial_point 1)) = Some (ns, nodes)
    ∧ n ∈ ns
    ∧ nodes !! root_node n = Some nd
    ∧ (1 ≤ length (value nd))%nat.
Proof.
  assert (Hmake : make_neurites 1 TT
            {| data_block := soma_y_branch; sections := soma_y_sections |}
            (Some (_remove_soma_initial_point 1))
          = Some ([ {| root_node := 2; neurite_type := basal_dendrite; _points := None |} ],
                  default [] (snd <$> make_neurites 1 TT
                     {| data_block := soma_y_branch; sections := soma_y_sections |}
                     (Some (_remove_soma_initial_point 1)))))
    by (vm_compute; reflexivity).
  destruct (neurite_trunk_has_rows 1 TT soma_y_branch soma_y_sections _ _ _
              {| root_node := 2; neurite_type := basal_dendrite; _points := None |}
              ltac:(vm_compute; reflexivity) (or_intror eq_refl) Hmake
              ltac:(by left)) as (nd & Hroot & Hrows & _).
  eexists _, _, _, nd. split; [exact Hmake|]. split; [by left|]. by split.
Defined.

(** ** Rows and sections of a table without discontinuity *)

Section Coverage.

Context {coord : Type}.
Implicit Types (db : list (Row coord)) (r : Row coord) (st : ScanState) (h : list Sec).

(** An iteration of the scan that returns places the row read in a section,
    as a point that is not the first one. *)
Lemma scan_row_places (id_map : gmap Z Z) st st' r :
  scan_row id_map st r = Some st' →
  ∃ row_id,
    id_map !! ID r = Some row_id
    ∧ flat_map (λ s, drop 1 (ids s)) (_sections st')
      = flat_map (λ s, drop 1 (ids s)) (_sections st) ++ [row_id].
Proof.
  intros Hrow.
  destruct (scan_row_cases _ _ _ _ Hrow) as (row_id & parent_id & Hid & Hp & Hcase).
  exists row_id. split; [done|]. unfold _sections.
  destruct Hcase as [Hlast|(lst & Hlast & Hne)].
  - rewrite (scan_row_no_gap _ _ _ _ _ Hid Hp Hlast) in Hrow.
    assert (Hdrop : drop 1 (ids (seed_section parent_id r (curr_section st)) ++ [row_id])
                    = drop 1 (ids (curr_section st)) ++ [row_id]).
    { destruct (ids (curr_section st)) as [|x l] eqn:Hids.
      - by rewrite seed_section_empty.
      - by rewrite (seed_section_cons _ _ _ _ _ Hids), Hids. }
    case_decide; injection Hrow as <-; cbn [closed curr_section];
      rewrite !flat_map_app; simpl; rewrite Hdrop, ?app_nil_r; by rewrite ?app_assoc.
  - rewrite (scan_row_gap _ _ _ _ _ _ Hid Hp Hlast Hne) in Hrow. injection Hrow as <-.
    cbn [closed curr_section]. rewrite !flat_map_app. simpl.
    by rewrite !app_nil_r, <- app_assoc.
Qed.

(** After [k] rows, the points of the sections that are not first points
    are the first [k] rows, in the order of the table. *)
Lemma scan_places_prefix db (k : nat) st :
  NoDup (ID <$> db) →
  foldlM (scan_row (make_id_map db)) (scan_init db) (take k db) = Some st →
  flat_map (λ s, drop 1 (ids s)) (_sections st) = Z.of_nat <$> seq 0 (min k (length db)).
Proof.
  intros Hnd. revert st. induction k as [|k IH]; intros st Hrun.
  - simpl in Hrun. by injection Hrun as <-.
  - destruct (db !! k) as [r|] eqn:Hk.
    + rewrite (take_S_r _ _ _ Hk), foldlM_snoc in Hrun.
      destruct (foldlM _ _ (take k db)) as [mid|]; [|done]. simpl in Hrun.
      pose proof (lookup_lt_Some _ _ _ Hk) as Hlt.
      replace (min (S k) (length db)) with (S k) by lia.
      specialize (IH mid eq_refl). replace (min k (length db)) with k in IH by lia.
      destruct (scan_row_places _ _ _ _ Hrun) as (row_id & Hid & ->).
      rewrite (make_id_map_lookup db k r Hnd Hk) in Hid. injection Hid as <-.
      by rewrite IH, seq_S, fmap_app.
    + apply lookup_ge_None in Hk.
      assert (Htake : take (S k) db = take k db) by (by rewrite !take_ge by lia).
      rewrite Htake in Hrun. specialize (IH st Hrun).
      by replace (min (S k) (length db)) with (min k (length db)) by lia.
Qed.

Lemma flat_map_ids (f : list Z → list Z) h :
  flat_map (λ s, f (ids s)) h = flat_map f (ids <$> h).
Proof. induction h as [|s h IH]; [done|]. simpl. by rewrite IH. Qed.

(** The state in which the scan of a table without discontinuity ends. *)
Lemma scan_contiguous db st :
  NoDup (ID <$> db) → contiguous db → scan db = Some st →
  scan_inv db (length db) st.
Proof.
  intros Hnd Hcont Hscan. unfold scan in Hscan.
  rewrite <- (take_ge db (length db)) in Hscan at 3 by done.
  pose proof (scan_inv_prefix db (length db) st Hnd Hcont Hscan) as Hinv.
  by rewrite Nat.min_id in Hinv.
Qed.

(** X9.  For a table with distinct identifiers and without discontinuity,
    the sections that [extract_sections] returns hold every row exactly once
    as a point that is not the first of its section: the point ids of the
    sections, without the first one of each, are the row positions
    [0, 1, ..., len(data_block) - 1] in this order. *)
Theorem sections_cover_rows db (secs : list Sec) :
  NoDup (ID <$> db) →
  contiguous db →
  extract_sections db = Some secs →
  flat_map (λ s, drop 1 (ids s)) secs = Z.of_nat <$> seq 0 (length db).
Proof.
  intros Hnd Hcont. unfold extract_sections.
  destruct (scan db) as [st|] eqn:Hscan; [|done]. simpl.
  destruct (scan_contiguous db st Hnd Hcont Hscan) as [_ Hgaps _ _ _].
  rewrite Hgaps. intros Hres%resolve_no_gaps.
  rewrite (flat_map_ids (drop 1)), Hres, <- (flat_map_ids (drop 1)).
  unfold scan in Hscan.
  rewrite <- (take_ge db (length db)) in Hscan at 3 by done.
  rewrite (scan_places_prefix db (length db) st Hnd Hscan).
  by rewrite Nat.min_id.
Qed.

(** The scan links every key of [parent_section] to the section it closed. *)
Lemma parents_linked_step (id_map : gmap Z Z) st st' r :
  parents_linked st → scan_row id_map st r = Some st' → parents_linked st'.
Proof.
  intros Hlinked Hrow.
  destruct (scan_row_cases _ _ _ _ Hrow) as (row_id & parent_id & Hid & Hp & Hcase).
  assert (Hclose : ∀ curr lst,
            last (ids curr) = Some lst →
            ∀ e j, <[lst := Z.of_nat (length (closed st))]> (parent_section st) !! e = Some j →
              (e = -1 ∧ j = -1)
              ∨ ∃ (i : nat) s, j = Z.of_nat i ∧ (closed st ++ [curr]) !! i = Some s
                               ∧ last (ids s) = Some e).
  { intros curr lst Hlst e j. destruct (decide (lst = e)) as [->|Hne].
    - rewrite lookup_insert_eq. intros [= <-]. right.
      exists (length (closed st)), curr. split; [done|]. split; [|done].
      by rewrite list_lookup_middle.
    - rewrite lookup_insert_ne by done. intros Hj.
      destruct (Hlinked e j Hj) as [?|(i & s & -> & Hi & Hs)]; [by left|].
      right. exists i, s. split; [done|]. split; [|done].
      by apply lookup_app_l_Some. }
  destruct Hcase as [Hlast|(lst & Hlast & Hne)].
  - rewrite (scan_row_no_gap _ _ _ _ _ Hid Hp Hlast) in Hrow.
    case_decide; injection Hrow as <-; [|done].
    intros e j. cbn [closed parent_section]. apply Hclose. simpl. apply last_snoc.
  - rewrite (scan_row_gap _ _ _ _ _ _ Hid Hp Hlast Hne) in Hrow. injection Hrow as <-.
    intros e j. cbn [closed parent_section]. by apply Hclose.
Qed.

Lemma scan_parents_linked db st : scan db = Some st → parents_linked st.
Proof.
  unfold scan. apply (foldlM_invariant parents_linked).
  - intros e j. simpl. intros [<- <-]%lookup_singleton_Some. by left.
  - intros st1 r st2 Hst1 _. by apply parents_linked_step.
Qed.

(** Without recorded gap, the resolution gives each section the parent
    found for its first point, and changes nothing else. *)
Lemma resolve_no_gaps_sections (parents : gmap Z Z) h h' (i : nat) (s : Sec) :
  resolve parents ∅ h = Some h' → h' !! i = Some s →
  ∃ s0,
    h !! i = Some s0 ∧ ids s = ids s0 ∧ ntype s = ntype s0
    ∧ match ids s0 with
      | [] => pid s = pid s0
      | first :: _ => parents !! first = Some (pid s)
      end.
Proof.
  unfold resolve. intros Hrun Hi.
  assert (Hsteps : ∀ k mid,
            foldlM (resolve_section parents ∅) h (seq 0 k) = Some mid →
            length mid = length h
            ∧ ∀ j t, mid !! j = Some t →
                ∃ t0, h !! j = Some t0
                      ∧ if decide (j < k)%nat
                        then ids t = ids t0 ∧ ntype t = ntype t0
                             ∧ match ids t0 with
                               | [] => pid t = pid t0
                               | first :: _ => parents !! first = Some (pid t)
                               end
                        else t = t0).
  { induction k as [|k IH]; intros mid.
    - intros Hmid. simpl in Hmid. injection Hmid as <-. split; [done|].
      intros j t Hj. exists t. split; [done|]. by rewrite decide_False by lia.
    - rewrite seq_S, foldlM_snoc. intros Hmid.
      destruct (foldlM _ h (seq 0 k)) as [mid0|]; [|done]. simpl in Hmid.
      destruct (IH mid0 eq_refl) as [Hlen0 Hmid0].
      destruct (resolve_section_effect _ _ _ _ _ Hmid)
        as (sec & p & Hk & Hp & [[_ ->]|[[]%elem_of_empty _]]).
      split; [by rewrite length_insert|].
      pose proof (lookup_lt_Some _ _ _ Hk) as Hlt.
      intros j t. destruct (decide (j = k)) as [->|Hne].
      + rewrite list_lookup_insert_eq by done. intros [= <-].
        destruct (Hmid0 k sec Hk) as (t0 & Ht0 & Hsame).
        rewrite decide_False in Hsame by lia. subst t0.
        exists sec. split; [done|]. rewrite decide_True by lia.
        split; [done|]. split; [done|].
        destruct (ids sec); simpl; [by injection Hp|done].
      + rewrite list_lookup_insert_ne by done. intros Hj.
        destruct (Hmid0 j t Hj) as (t0 & Ht0 & Hsame).
        exists t0. split; [done|].
        destruct (decide (j < k)%nat).
        * by rewrite decide_True by lia.
        * by rewrite decide_False by lia. }
  destruct (Hsteps _ _ Hrun) as [Hlen Hall].
  destruct (Hall i s Hi) as (s0 & Hs0 & Hsame).
  exists s0. split; [done|].
  rewrite decide_True in Hsame; [done|].
  apply lookup_lt_Some in Hi. lia.
Qed.

(** X10.  For a table with distinct identifiers and without discontinuity,
    every section with points that [extract_sections] returns starts where
    its parent section ends: its first point is the last point of the
    section at index [pid], or it is [-1] and the section has no parent. *)
Theorem section_starts_at_parent_end db (secs : list Sec) (i : nat) (s : Sec)
    (first : Z) (rest : list Z) :
  NoDup (ID <$> db) →
  contiguous db →
  extract_sections db = Some secs →
  secs !! i = Some s →
  ids s = first :: rest →
  (first = -1 ∧ pid s = -1)
  ∨ ∃ (j : nat) parent,
      pid s = Z.of_nat j ∧ secs !! j = Some parent ∧ last (ids parent) = Some first.
Proof.
  intros Hnd Hcont. unfold extract_sections.
  destruct (scan db) as [st|] eqn:Hscan; [|done]. simpl.
  destruct (scan_contiguous db st Hnd Hcont Hscan) as [_ Hgaps _ _ _].
  rewrite Hgaps. intros Hres Hi Hids.
  destruct (resolve_no_gaps_sections _ _ _ _ _ Hres Hi) as (s0 & Hs0 & Hids0 & _ & Hpid).
  rewrite <- Hids0, Hids in Hpid.
  destruct (scan_parents_linked db st Hscan first (pid s) Hpid)
    as [[-> ->]|(j & sj & Hj & Hsj & Hlast)]; [by left|].
  right.
  destruct (lookup_same_ids (_sections st) secs j sj) as (parent & Hparent & Hsame).
  - by apply resolve_no_gaps in Hres.
  - unfold _sections. by apply lookup_app_l_Some.
  - exists j, parent. split; [done|]. split; [done|]. by rewrite Hsame.
Qed.

End Coverage.

Lemma sections_cover_rows_witness :
  flat_map (λ s, drop 1 (ids s)) y_branch_sections = Z.of_nat <$> seq 0 (length y_branch).
Proof.
  apply (sections_cover_rows y_branch y_branch_sections).
  - apply (bool_decide_unpack _). vm_compute. exact I.
  - exact y_branch_contiguous.
  - vm_compute. reflexivity.
Defined.

Lemma section_starts_at_parent_end_witness :
  (2 = -1 ∧ pid branch_section = -1)
  ∨ ∃ (j : nat) parent,
      pid branch_section = Z.of_nat j ∧ y_branch_sections !! j = Some parent
      ∧ last (ids parent) = Some 2.
Proof.
  apply (section_starts_at_parent_end y_branch y_branch_sections 1 branch_section 2 [3]).
  - apply (bool_decide_unpack _). vm_compute. exact I.
  - exact y_branch_contiguous.
  - vm_compute. reflexivity.
  - reflexivity.
  - reflexivity.
Defined.

(** ** Parents before children *)

Section Order.

Context {coord : Type}.
Implicit Types (r : Row coord) (st : ScanState) (h : list Sec).

Variable db : list (Row coord).
Hypothesis Hnd : NoDup (ID <$> db).
Hypothesis Hroot : ∀ r, r ∈ db → ID r ≠ -1.
Hypothesis Hfirst : parents_first db.
Hypothesis Hcont : contiguous db.

(** The first point of the section that takes row [k] is a key of
    [parent_section] when the row is read. *)
Lemma seeded_first_key (k : nat) st r (parent_id first : Z) (rest : list Z) :
  db !! k = Some r → scan_inv db k st → keys_inv db k st →
  make_id_map db !! P r = Some parent_id →
  ids (seed_section parent_id r (curr_section st)) = first :: rest →
  is_Some (parent_section st !! first).
Proof.
  intros Hk Hinv [Hkroot Hkends Hkfirsts] Hp.
  destruct (ids (curr_section st)) as [|x l] eqn:Hids.
  - rewrite seed_section_empty by done. simpl. intros [= <- _].
    destruct (parent_position db Hnd Hroot Hfirst k r Hk)
      as [Hm|(j & parent & Hlt & Hj & Hidp & Hm)];
      rewrite Hp in Hm; injection Hm as ->; [done|].
    apply Hkends; [done|].
    apply (start_parent_is_end db Hcont k j r parent Hk); try done.
    destruct Hinv as [_ _ _ Hc _]. destruct k as [|k0]; [done|]. simpl.
    destruct (decide (Z.of_nat k0 ∈ _section_end_points db)); [done|].
    by rewrite Hids in Hc.
  - rewrite (seed_section_cons _ _ _ _ _ Hids), Hids. intros [= <- _].
    destruct (Hkfirsts (curr_section st) x l) as [->|(e & -> & ? & ?)];
      [apply elem_of_snoc|done|done|].
    by apply Hkends.
Qed.

Lemma order_inv_step (k : nat) st st' r :
  db !! k = Some r →
  scan_inv db k st → keys_inv db k st → scan_shape (length db) st → order_inv k st →
  scan_row (make_id_map db) st r = Some st' →
  order_inv (S k) st'.
Proof.
  intros Hk Hinv Hkeys Hshape [Hokeys Hosecs] Hrow.
  pose proof (make_id_map_lookup db k r Hnd Hk) as Hid.
  assert (∃ parent_id, make_id_map db !! P r = Some parent_id) as [parent_id Hp].
  { destruct (parent_position db Hnd Hroot Hfirst k r Hk) as [?|(j & ? & _ & _ & _ & ?)];
      eauto. }
  destruct (scan_inv_seed db k st r parent_id Hnd Hcont Hk Hinv Hp) as [Hlast _].
  rewrite (scan_row_no_gap _ _ _ _ _ Hid Hp Hlast) in Hrow.
  assert (Hcurr : ∀ first rest,
            ids (seed_section parent_id r (curr_section st)) ++ [Z.of_nat k] = first :: rest →
            ∃ j, parent_section st !! first = Some j
                 ∧ j < Z.of_nat (length (closed st))).
  { intros first rest Hids.
    destruct (ids (seed_section parent_id r (curr_section st))) as [|x l] eqn:Hseeded;
      [done|].
    injection Hids as <- _.
    destruct (seeded_first_key k st r parent_id x l Hk Hinv Hkeys Hp Hseeded) as [j Hj].
    exists j. split; [done|]. destruct Hshape as [_ _ _ Hparents].
    specialize (Hparents x j Hj). lia. }
  assert (Hold : ∀ (i : nat) s first rest,
            closed st !! i = Some s → ids s = first :: rest →
            ∃ j, parent_section st !! first = Some j ∧ j < Z.of_nat i).
  { intros i s first rest Hi. apply Hosecs. unfold _sections. by apply lookup_app_l_Some. }
  assert (Hfresh : ∀ first j,
            parent_section st !! first = Some j →
            <[Z.of_nat k := Z.of_nat (length (closed st))]> (parent_section st) !! first
            = Some j).
  { intros first j Hj. rewrite lookup_insert_ne; [done|].
    destruct (Hokeys first) as [->|?]; [by eexists|lia|lia]. }
  assert (Hkeys' : ∀ e, is_Some (parent_section st !! e) → e = -1 ∨ 0 ≤ e < Z.of_nat (S k)).
  { intros e He. destruct (Hokeys e He); [by left|right; lia]. }
  case_decide as Hend; injection Hrow as <-; split; unfold _sections;
    cbn [closed curr_section parent_section].
  - intros e. destruct (decide (e = Z.of_nat k)) as [->|Hne]; [intros _; right; lia|].
    rewrite lookup_insert_ne by done. apply Hkeys'.
  - intros i s first rest Hi Hids.
    apply lookup_app_Some in Hi as [Hi | [Hlen Hi]].
    + apply lookup_app_Some in Hi as [Hi | [Hlen Hi]].
      * destruct (Hold i s first rest Hi Hids) as (j & Hj & Hlt).
        exists j. split; [by apply Hfresh|done].
      * apply list_lookup_singleton_Some in Hi as [Hi <-].
        destruct (Hcurr first rest Hids) as (j & Hj & Hlt).
        exists j. split; [by apply Hfresh|lia].
    + apply list_lookup_singleton_Some in Hi as [_ <-]. done.
  - apply Hkeys'.
  - intros i s first rest Hi Hids.
    apply lookup_app_Some in Hi as [Hi | [Hlen Hi]].
    + by apply (Hold i s first rest).
    + apply list_lookup_singleton_Some in Hi as [Hi <-].
      destruct (Hcurr first rest Hids) as (j & Hj & Hlt).
      exists j. split; [done|lia].
Qed.

(** The scan returns on every prefix of the table, with its invariants. *)
Lemma scan_order_prefix (k : nat) :
  (k ≤ length db)%nat →
  ∃ st, foldlM (scan_row (make_id_map db)) (scan_init db) (take k db) = Some st
        ∧ scan_inv db k st ∧ keys_inv db k st
        ∧ scan_shape (length db) st ∧ order_inv k st.
Proof.
  induction k as [|k IH]; intros Hlen.
  - exists (scan_init db). split; [done|]. split; [apply scan_inv_init|].
    split; [apply keys_inv_init|]. split; [apply scan_shape_init|]. split.
    + simpl. intros e [j [<- _]%lookup_singleton_Some]. by left.
    + unfold _sections. simpl. intros i s first rest Hi Hids.
      apply list_lookup_singleton_Some in Hi as [_ <-]. done.
  - destruct IH as (st & Hrun & Hinv & Hkeys & Hshape & Horder); [lia|].
    destruct (lookup_lt_is_Some_2 db k) as [r Hk]; [lia|].
    destruct (scan_row_total db Hnd Hroot Hfirst Hcont k st r Hk Hinv) as [st' Hrow].
    exists st'. rewrite (take_S_r _ _ _ Hk), foldlM_snoc, Hrun. simpl.
    split; [done|]. split; [by apply (scan_inv_step db k st st' r)|].
    split; [by apply (keys_inv_step db Hnd Hroot Hfirst Hcont k st st' r)|].
    split; [|by apply (order_inv_step k st st' r)].
    apply (scan_shape_step _ (make_id_map db) st st' r); [|done|done].
    intros ? ?. apply make_id_map_range.
Qed.

(** The parent of a section is a section before it. *)
Lemma sections_ordered (secs : list Sec) (i : nat) (s : Sec) :
  extract_sections db = Some secs → secs !! i = Some s → pid s < Z.of_nat i.
Proof.
  destruct (scan_order_prefix (length db))
    as (st & Hrun & [_ Hgaps _ _ _] & _ & [Hclosed (Hcpid & _) _ _] & [_ Hosecs]); [done|].
  rewrite take_ge in Hrun by done.
  unfold extract_sections, scan. rewrite Hrun. simpl. rewrite Hgaps. intros Hres Hi.
  destruct (resolve_no_gaps_sections _ _ _ _ _ Hres Hi) as (s0 & Hs0 & _ & _ & Hpid).
  destruct (ids s0) as [|first rest] eqn:Hids.
  - rewrite Hpid.
    assert (pid s0 = -1) as ->; [|lia].
    apply list_elem_of_lookup_2 in Hs0. unfold _sections in Hs0.
    apply elem_of_app in Hs0 as [Hs0 | ->%list_elem_of_singleton]; [|done].
    by destruct (Hclosed s0 Hs0).
  - destruct (Hosecs i s0 first rest Hs0 Hids) as (j & Hj & Hlt).
    rewrite Hj in Hpid. by injection Hpid as <-.
Qed.

(** X11.  For a table with distinct identifiers other than [-1], in which
    every row comes after its parent and there is no discontinuity,
    [extract_sections] returns, and in the list it returns the parent of
    every section is a section before it: [pid] is smaller than the index
    of the section.  So no section is its own ancestor. *)
Theorem well_formed_sections_ordered :
  ∃ secs,
    extract_sections db = Some secs
    ∧ ∀ (i : nat) s, secs !! i = Some s → pid s < Z.of_nat i.
Proof.
  destruct (extract_sections_total db Hnd Hroot Hfirst Hcont) as [secs Hsecs].
  exists secs. split; [done|]. intros i s. by apply sections_ordered.
Qed.

End Order.

Lemma y_branch_parents_first : parents_first y_branch.
Proof.
  intros i row Hi.
  do 5 (destruct i as [|i];
        [injection Hi as <-;
         first [ by left
               | right; eexists 0%nat, _; split; [lia|]; split; reflexivity
               | right; eexists 1%nat, _; split; [lia|]; split; reflexivity
               | right; eexists 2%nat, _; split; [lia|]; split; reflexivity ]|]).
  done.
Qed.

Lemma y_branch_identifiers (r : Row Z) : r ∈ y_branch → ID r ≠ -1.
Proof.
  intros [i Hi]%list_elem_of_lookup.
  do 5 (destruct i as [|i]; [by injection Hi as <-|]). done.
Qed.

Lemma well_formed_sections_ordered_witness :
  ∃ secs,
    extract_sections y_branch = Some secs
    ∧ ∀ (i : nat) s, secs !! i = Some s → pid s < Z.of_nat i.
Proof.
  apply (well_formed_sections_ordered y_branch).
  - apply (bool_decide_unpack _). vm_compute. exact I.
  - exact y_branch_identifiers.
  - exact y_branch_parents_first.
  - exact y_branch_contiguous.
Defined.

(** ** The trees of a well-formed table *)

Section Finite.

Context {coord NeuriteType : Type}.
Variable SOMA : Z.
Variable _TREE_TYPES : list NeuriteType.
Implicit Types (db : list (Row coord)) (secs : list Sec)
  (h nodes : list (Tree coord NeuriteType)) (ns : list (Neurite coord NeuriteType)).

(** A sequence of nodes has a pre-order when each of them has one below. *)
Lemma preorder_list h (stack : list nat) :
  (∀ c, c ∈ stack → ∃ t below, h !! c = Some t ∧ preorder h (children t) below) →
  ∃ order, preorder h stack order.
Proof.
  induction stack as [|c stack IH]; intros Hall.
  - exists []. constructor.
  - destruct (Hall c) as (t & below & Hc & Hbelow); [left|].
    destruct IH as [after Hafter]. { intros c' Hc'. apply Hall. by right. }
    exists (c :: below ++ after). by econstructor.
Qed.

(** When the children of every node come after it in the store, the nodes
    below any node have a pre-order. *)
Lemma preorder_node h :
  (∀ (j : nat) t c, h !! j = Some t → c ∈ children t → (j < c < length h)%nat) →
  ∀ (m j : nat), (length h ≤ m + j)%nat → (j < length h)%nat →
    ∃ t below, h !! j = Some t ∧ preorder h (children t) below.
Proof.
  intros Hup. induction m as [|m IH]; intros j Hm Hj; [lia|].
  destruct (lookup_lt_is_Some_2 h j Hj) as [t Ht].
  destruct (preorder_list h (children t)) as [below Hbelow].
  - intros c Hc. destruct (Hup j t c Ht Hc). apply IH; lia.
  - by exists t, below.
Qed.

(** When the parent of every section is a section before it, the children
    of every node that [make_neurites] returns come after the node; and the
    neurites are returned without cached points. *)
Lemma make_neurites_children_up db secs
    (post_action : option (Tree coord NeuriteType → option (Tree coord NeuriteType)))
    ns nodes :
  (∀ (i : nat) s, secs !! i = Some s → pid s < Z.of_nat i) →
  post_action = None ∨ post_action = Some (_remove_soma_initial_point SOMA) →
  make_neurites SOMA _TREE_TYPES {| data_block := db; sections := secs |} post_action
  = Some (ns, nodes) →
  (∀ (j : nat) t c, nodes !! j = Some t → c ∈ children t → (j < c < length nodes)%nat)
  ∧ ∀ n, n ∈ ns → _points n = None.
Proof.
  intros Hord Haction Hmake.
  set (rdw := {| data_block := db; sections := secs |}) in *.
  assert (∃ trunks, neurite_trunks SOMA rdw = Some trunks) as [trunks Htr].
  { unfold make_neurites in Hmake. destruct (neurite_trunks SOMA rdw); [eauto|done]. }
  destruct (py_min trunks) as [start_node|] eqn:Hmin.
  2:{ destruct trunks; [|done]. unfold make_neurites in Hmake.
      rewrite Htr in Hmake. simpl in Hmake. injection Hmake as <- <-.
      split; [by intros j t c|]. by intros n Hn%elem_of_nil. }
  destruct (make_neurites_nodes SOMA _TREE_TYPES rdw post_action ns nodes trunks start_node
              Hmake Htr Hmin) as (nodes0 & nodes1 & Hnodes0 & Hnodes1 & Hns & Hnodes).
  pose proof (py_min_trunks_nonneg SOMA rdw trunks start_node Htr Hmin) as Hstart.
  destruct (connect_nodes_effect _TREE_TYPES rdw start_node nodes0 nodes1 _ Hstart Hnodes1)
    as [Hlen1 Heffect].
  assert (Hfinal : length nodes = length nodes1
                   ∧ ∀ j nd, nodes1 !! j = Some nd →
                       ∃ nd', nodes !! j = Some nd' ∧ children nd' = children nd).
  { destruct Haction as [-> | ->].
    - injection Hnodes as <-. split; [done|]. intros j nd Hj. by exists nd.
    - destruct (apply_soma_actions SOMA nodes1 nodes ns Hnodes) as [Hlen Hsame].
      split; [done|]. intros j nd Hj.
      destruct (Hsame j nd Hj) as (nd' & Hj' & Hc & _). by exists nd'. }
  destruct Hfinal as [Hlen Hfinal]. split.
  - intros j t c Hj Hc.
    destruct (lookup_lt_is_Some_2 nodes0 j) as [nd0 Hnd0].
    { apply lookup_lt_Some in Hj. lia. }
    destruct (Heffect j nd0 Hnd0) as (nd1 & Hnd1 & _ & _ & _ & Hch).
    destruct (Hfinal j nd1 Hnd1) as (nd' & Hj' & Hsame).
    rewrite Hj in Hj'. injection Hj' as <-.
    assert (Hnew : children nd0 = []).
    { apply mapM_Some_1 in Hnodes0.
      destruct (Forall2_lookup_r _ _ _ _ _ Hnodes0 Hnd0) as (sec & _ & Hsec).
      destruct (py_take_rows _ _); [|done]. simpl in Hsec. by injection Hsec as <-. }
    rewrite Hsame, Hch, Hnew in Hc. simpl in Hc.
    apply list_elem_of_filter in Hc as [[Hpid _] [_ Hc]%elem_of_seq]. simpl in Hc, Hpid.
    destruct (secs !! c) as [s|] eqn:Hs; [|done]. simpl in Hpid. injection Hpid as Hpid.
    specialize (Hord c s Hs). lia.
  - intros n [k Hk]%list_elem_of_lookup.
    apply mapM_Some_1 in Hns.
    destruct (Forall2_lookup_r _ _ _ _ _ Hns Hk) as (i & _ & Hinit).
    destruct (py_position _ i) as [root|]; [|done]. simpl in Hinit.
    unfold Neurite_init in Hinit.
    destruct (nodes1 !! root) as [t|]; [|done]. simpl in Hinit.
    destruct (type t); [|done]. simpl in Hinit. by injection Hinit as <-.
Qed.

(** X12.  Take a table with distinct identifiers other than [-1], in which
    every row comes after its parent and there is no discontinuity, and what
    [make_neurites] returns on its sections, without post-action or with
    that of the SWC format.  The children of every node come after the node
    in the sequence of nodes, so that the nodes form finite trees; and the
    points of every neurite can be computed: once the bound on the visits of
    the traversal is large enough, [points] returns. *)
Theorem well_formed_table_points db secs
    (post_action : option (Tree coord NeuriteType → option (Tree coord NeuriteType)))
    ns nodes :
  NoDup (ID <$> db) →
  (∀ r, r ∈ db → ID r ≠ -1) →
  parents_first db →
  contiguous db →
  extract_sections db = Some secs →
  post_action = None ∨ post_action = Some (_remove_soma_initial_point SOMA) →
  make_neurites SOMA _TREE_TYPES {| data_block := db; sections := secs |} post_action
  = Some (ns, nodes) →
  (∀ (j : nat) t c, nodes !! j = Some t → c ∈ children t → (j < c < length nodes)%nat)
  ∧ ∀ n, n ∈ ns →
      ∃ fuel0, ∀ fuel, (fuel0 ≤ fuel)%nat → is_Some (points fuel nodes n).
Proof.
  intros Hnd Hroot Hfirst Hcont Hrun Haction Hmake.
  destruct (make_neurites_children_up db secs post_action ns nodes) as [Hup Hcache];
    try done.
  { intros i s. by apply (sections_ordered db Hnd Hroot Hfirst Hcont secs). }
  split; [done|]. intros n Hn.
  destruct (trunk_node_rows SOMA _TREE_TYPES db secs post_action ns nodes n
              Hrun Haction Hmake Hn) as (nd & Hnroot & Hrows & _).
  destruct (preorder_node nodes Hup (length nodes) (root_node n))
    as (t & below & Ht & Hbelow); [lia|by apply lookup_lt_Some in Hnroot|].
  assert (Hpre : preorder nodes [root_node n] (root_node n :: below ++ []))
    by (econstructor; [done|done|constructor]).
  destruct (preorder_nodes nodes _ _ Hpre) as [visited Hvisited].
  exists (length (root_node n :: below ++ [])). intros fuel Hfuel.
  unfold points.
  rewrite (Hcache n Hn), (ipreorder_preorder fuel nodes _ _ Hpre Hfuel). simpl.
  simpl in Hvisited. rewrite Hvisited. simpl. rewrite Hnroot. simpl.
  destruct (value nd); [simpl in Hrows; lia|]. by eexists.
Qed.

End Finite.

Lemma soma_y_branch_contiguous : contiguous soma_y_branch.
Proof.
  intros i row next Hi Hnext Hone.
  do 7 (destruct i as [|i];
        [simpl in Hi, Hnext;
         first [discriminate
               | injection Hi as <-; injection Hnext as <-;
                 first [reflexivity | vm_compute in Hone; discriminate]]|]).
  done.
Qed.

Lemma soma_y_branch_parents_first : parents_first soma_y_branch.
Proof.
  intros i row Hi.
  do 7 (destruct i as [|i];
        [injection Hi as <-;
         first [ by left
               | right; eexists 0%nat, _; split; [lia|]; split; reflexivity
               | right; eexists 2%nat, _; split; [lia|]; split; reflexivity
               | right; eexists 3%nat, _; split; [lia|]; split; reflexivity
               | right; eexists 4%nat, _; split; [lia|]; split; reflexivity ]|]).
  done.
Qed.

Lemma soma_y_branch_identifiers (r : Row Z) : r ∈ soma_y_branch → ID r ≠ -1.
Proof.
  intros [i Hi]%list_elem_of_lookup.
  do 7 (destruct i as [|i]; [by injection Hi as <-|]). done.
Qed.

Lemma well_formed_table_points_witness :
  ∃ ns nodes,
    make_neurites 1 TT {| data_block := soma_y_branch; sections := soma_y_sections |}
      (Some (_remove_soma_initial_point 1)) = Some (ns, nodes)
    ∧ (∀ (j : nat) t c, nodes !! j = Some t → c ∈ children t → (j < c < length nodes)%nat)
    ∧ ∀ n, n ∈ ns →
        ∃ fuel0, ∀ fuel, (fuel0 ≤ fuel)%nat → is_Some (points fuel nodes n).
Proof.
  assert (Hmake : make_neurites 1 TT
            {| data_block := soma_y_branch; sections := soma_y_sections |}
            (Some (_remove_soma_initial_point 1))
          = Some ([ {| root_node := 2; neurite_type := basal_dendrite; _points := None |} ],
                  default [] (snd <$> make_neurites 1 TT
                     {| data_block := soma_y_branch; sections := soma_y_sections |}
                     (Some (_remove_soma_initial_point 1)))))
    by (vm_compute; reflexivity).
  eexists _, _. split; [exact Hmake|].
  apply (well_formed_table_points 1 TT soma_y_branch soma_y_sections
           (Some (_remove_soma_initial_point 1))).
  - apply (bool_decide_unpack _). vm_compute. exact I.
  - exact soma_y_branch_identifiers.
  - exact soma_y_branch_parents_first.
  - exact soma_y_branch_contiguous.
  - vm_compute. reflexivity.
  - by right.
  - exact Hmake.
Defined.

(** ** Types and number of the sections, end points *)

Section Census.

Context {coord : Type}.
Implicit Types (db : list (Row coord)) (r : Row coord) (st : ScanState) (h : list Sec).

(** The scan types every section by the row of its second point. *)
Lemma scan_row_typed db st st' r :
  NoDup (ID <$> db) → r ∈ db →
  (∀ s, s ∈ _sections st → typed_by_second_point db s) →
  scan_row (make_id_map db) st r = Some st' →
  ∀ s, s ∈ _sections st' → typed_by_second_point db s.
Proof.
  intros Hnd [k Hk]%list_elem_of_lookup Htyped Hrow.
  pose proof (make_id_map_lookup db k r Hnd Hk) as Hid.
  destruct (scan_row_cases _ _ _ _ Hrow) as (row_id & parent_id & Hid' & Hp & Hcase).
  rewrite Hid in Hid'. injection Hid' as <-.
  assert (Hclosed : ∀ s, s ∈ closed st → typed_by_second_point db s).
  { intros s Hs. apply Htyped. unfold _sections. apply elem_of_app. by left. }
  assert (Hcurr : typed_by_second_point db (curr_section st))
    by (apply Htyped, elem_of_snoc).
  assert (Hnew : typed_by_second_point db new_Section) by done.
  destruct Hcase as [Hlast|(lst & Hlast & Hne)].
  - rewrite (scan_row_no_gap _ _ _ _ _ Hid Hp Hlast) in Hrow.
    assert (Hnext : typed_by_second_point db
              (set_ids (ids (seed_section parent_id r (curr_section st)) ++ [Z.of_nat k])
                 (seed_section parent_id r (curr_section st)))).
    { unfold typed_by_second_point in Hcurr |- *.
      destruct (ids (curr_section st)) as [|x l] eqn:Hids.
      - rewrite seed_section_empty by done. simpl. by exists k, r.
      - rewrite (seed_section_cons _ _ _ _ _ Hids), Hids. simpl.
        destruct l as [|j l]; [done|]. done. }
    unfold _sections.
    case_decide; injection Hrow as <-; cbn [closed curr_section]; intros s.
    + intros [[Hs | ->%list_elem_of_singleton]%elem_of_app
              | ->%list_elem_of_singleton]%elem_of_app; auto.
    + intros [Hs | ->%list_elem_of_singleton]%elem_of_app; auto.
  - rewrite (scan_row_gap _ _ _ _ _ _ Hid Hp Hlast Hne) in Hrow. injection Hrow as <-.
    unfold _sections. cbn [closed curr_section]. intros s.
    intros [[Hs | ->%list_elem_of_singleton]%elem_of_app
            | ->%list_elem_of_singleton]%elem_of_app; auto.
    unfold typed_by_second_point. simpl. by exists k, r.
Qed.

Lemma scan_typed db st :
  NoDup (ID <$> db) → scan db = Some st →
  ∀ s, s ∈ _sections st → typed_by_second_point db s.
Proof.
  intros Hnd. unfold scan.
  apply (foldlM_invariant (λ st, ∀ s, s ∈ _sections st → typed_by_second_point db s)).
  - unfold _sections. simpl. by intros s ->%list_elem_of_singleton.
  - intros st1 r st2 Hst1 Hr Hrow. by apply (scan_row_typed db st1 st2 r).
Qed.

(** X13.  For a table with distinct identifiers and without discontinuity,
    a section with point ids that [extract_sections] returns has the type
    tag of the row of its second point id, which is the first point of its
    own (the first point id is the duplicated parent point); a section
    without point ids has type 0. *)
Theorem section_type_of_second_point db (secs : list Sec) (s : Sec) :
  NoDup (ID <$> db) →
  contiguous db →
  extract_sections db = Some secs →
  s ∈ secs →
  (ids s = [] ∧ ntype s = 0)
  ∨ ∃ (first : Z) (k : nat) (rest : list Z) r,
      ids s = first :: Z.of_nat k :: rest ∧ db !! k = Some r ∧ ntype s = TYPE r.
Proof.
  intros Hnd Hcont. unfold extract_sections.
  destruct (scan db) as [st|] eqn:Hscan; [|done]. simpl.
  destruct (scan_contiguous db st Hnd Hcont Hscan) as [_ Hgaps _ _ _].
  rewrite Hgaps. intros Hres [i Hi]%list_elem_of_lookup.
  destruct (resolve_no_gaps_sections _ _ _ _ _ Hres Hi) as (s0 & Hs0 & Hids & Hty & _).
  pose proof (scan_typed db st Hnd Hscan s0 (list_elem_of_lookup_2 _ _ _ Hs0)) as Htyped.
  unfold typed_by_second_point in Htyped. rewrite Hids, Hty.
  destruct (ids s0) as [|first [|j rest]]; [by left|done|].
  destruct Htyped as (k & r & -> & Hk & Htype). right. by exists first, k, rest, r.
Qed.

(** Counting the positions of a list that satisfy a property of the
    element at the position. *)
Lemma filter_positions {A : Type} (R : Z → Prop) (Q : A → Prop)
    `{∀ x, Decision (R x)} `{∀ x, Decision (Q x)} (l : list A) :
  (∀ (j : nat) x, l !! j = Some x → (R (Z.of_nat j) ↔ Q x)) →
  length (filter R (Z.of_nat <$> seq 0 (length l))) = length (filter Q l).
Proof.
  induction l as [|x l IH] using rev_ind; intros Hiff; [done|].
  rewrite length_app. simpl. rewrite Nat.add_1_r, seq_S, fmap_app, !filter_app, !length_app.
  rewrite IH.
  - f_equal. simpl.
    pose proof (Hiff (length l) x (list_lookup_middle _ _ _ _ eq_refl)) as Hx.
    destruct (decide (Q x)) as [HQ|HQ].
    + rewrite !filter_cons_True; [done|done|by apply Hx].
    + rewrite !filter_cons_False; [done|done|]. intros HR. by apply HQ, Hx.
  - intros j y Hj. apply Hiff. by apply lookup_app_l_Some.
Qed.

(** X14.  For a table with distinct identifiers and without discontinuity,
    [extract_sections] returns one section for each end point, that is, for
    each row whose identifier is the parent of no row or of more than one
    row, and one more, the section left open at the end. *)
Theorem section_count db (secs : list Sec) :
  NoDup (ID <$> db) →
  contiguous db →
  extract_sections db = Some secs →
  length secs = S (length (filter (λ r, child_count db (ID r) ≠ 1%nat) db)).
Proof.
  intros Hnd Hcont. unfold extract_sections.
  destruct (scan db) as [st|] eqn:Hscan; [|done]. simpl.
  destruct (scan_contiguous db st Hnd Hcont Hscan) as [_ Hgaps Hlasts _ _].
  rewrite Hgaps. intros Hres%resolve_no_gaps.
  rewrite <- (length_fmap ids secs), Hres, length_fmap.
  unfold _sections. rewrite length_app. simpl. rewrite Nat.add_1_r. f_equal.
  rewrite <- (length_fmap (λ s, last (ids s)) (closed st)), Hlasts, length_fmap.
  apply filter_positions. intros j x Hj. split.
  - intros (j' & r' & Heq & Hj' & Hcount)%elem_of_section_end_points.
    apply Nat2Z.inj in Heq as <-. rewrite Hj in Hj'. by injection Hj' as <-.
  - intros Hcount. apply elem_of_section_end_points. by exists j, x.
Qed.

(** X15.  [_section_end_points] returns the positions of the rows whose
    identifier is the parent identifier of no row or of more than one row:
    the position of a row is in the set exactly when the number of rows
    that name its identifier as parent is not 1, and the set holds only
    positions of rows. *)
Theorem section_end_points_rows db :
  (∀ (j : nat) r, db !! j = Some r →
     (Z.of_nat j ∈ _section_end_points db ↔ child_count db (ID r) ≠ 1%nat))
  ∧ ∀ i, i ∈ _section_end_points db → 0 ≤ i < Z.of_nat (length db).
Proof.
  split.
  - intros j r Hj. split.
    + intros (j' & r' & Heq & Hj' & Hcount)%elem_of_section_end_points.
      apply Nat2Z.inj in Heq as <-. rewrite Hj in Hj'. by injection Hj' as <-.
    + intros Hcount. apply elem_of_section_end_points. by exists j, r.
  - intros i (j & r & -> & Hj & _)%elem_of_section_end_points.
    apply lookup_lt_Some in Hj. lia.
Qed.

End Census.

Lemma section_type_of_second_point_witness :
  (ids branch_section = [] ∧ ntype branch_section = 0)
  ∨ ∃ (first : Z) (k : nat) (rest : list Z) r,
      ids branch_section = first :: Z.of_nat k :: rest
      ∧ y_branch !! k = Some r ∧ ntype branch_section = TYPE r.
Proof.
  apply (section_type_of_second_point y_branch y_branch_sections branch_section).
  - apply (bool_decide_unpack _). vm_compute. exact I.
  - exact y_branch_contiguous.
  - vm_compute. reflexivity.
  - right. left.
Defined.

Lemma section_count_witness :
  length y_branch_sections
  = S (length (filter (λ r, child_count y_branch (ID r) ≠ 1%nat) y_branch)).
Proof.
  apply (section_count y_branch y_branch_sections).
  - apply (bool_decide_unpack _). vm_compute. exact I.
  - exact y_branch_contiguous.
  - vm_compute. reflexivity.
Defined.

(** ** Sections are chains of points *)

Section Chains.

Context {coord : Type}.
Implicit Types (db : list (Row coord)) (r : Row coord) (st : ScanState) (h : list Sec).

Lemma chain_tail (link : Z → Z → Prop) (x : Z) (l : list Z) :
  chain link (x :: l) → chain link l.
Proof. destruct l; [done|]. by intros [_ ?]. Qed.

Lemma chain_app (link : Z → Z → Prop) (l1 l2 : list Z) :
  chain link l1 → chain link l2 →
  (∀ a b, last l1 = Some a → head l2 = Some b → link a b) →
  chain link (l1 ++ l2).
Proof.
  induction l1 as [|x l1 IH]; [done|]. intros H1 H2 Hj.
  destruct l1 as [|y l1].
  - destruct l2 as [|b l2]; [done|]. simpl. split; [by apply Hj|done].
  - destruct H1 as [Hxy H1]. simpl. split; [done|]. apply IH; [done|done|].
    intros a b Ha. by apply Hj.
Qed.

Lemma chain_lookup (link : Z → Z → Prop) (l : list Z) (i : nat) (a b : Z) :
  chain link l → l !! i = Some a → l !! S i = Some b → link a b.
Proof.
  revert i. induction l as [|x l IH]; intros i Hc Ha Hb; [done|].
  destruct i as [|i].
  - simpl in Ha, Hb. injection Ha as ->. destruct l as [|y l]; [done|].
    simpl in Hb. injection Hb as ->. by destruct Hc.
  - apply (IH i); [by eapply chain_tail|done|done].
Qed.

(** What [id_map] holds for a key: the entry it starts with, or the
    position of a row with this identifier. *)
Lemma make_id_map_Some db (x v : Z) :
  make_id_map db !! x = Some v →
  (x = -1 ∧ v = -1)
  ∨ ∃ (j : nat) r, v = Z.of_nat j ∧ db !! j = Some r ∧ ID r = x.
Proof.
  revert v. induction db as [|r front IH] using rev_ind; intros v.
  - unfold make_id_map. simpl. intros [<- <-]%lookup_singleton_Some. by left.
  - rewrite make_id_map_snoc. destruct (decide (ID r = x)) as [<-|Hne].
    + rewrite lookup_insert_eq. intros [= <-]. right.
      exists (length front), r. split; [done|]. split; [|done].
      by apply list_lookup_middle.
    + rewrite lookup_insert_ne by done. intros Hv.
      destruct (IH v Hv) as [?|(j & r' & -> & Hj & Hid)]; [by left|].
      right. exists j, r'. split; [done|]. split; [|done]. by apply lookup_app_l_Some.
Qed.

(** The scan keeps every section a chain. *)
Lemma scan_row_chain db st st' r :
  NoDup (ID <$> db) → r ∈ db →
  (∀ s, s ∈ _sections st → chain (child_of db) (ids s)) →
  scan_row (make_id_map db) st r = Some st' →
  ∀ s, s ∈ _sections st' → chain (child_of db) (ids s).
Proof.
  intros Hnd [k Hk]%list_elem_of_lookup Hchain Hrow.
  pose proof (make_id_map_lookup db k r Hnd Hk) as Hid.
  destruct (scan_row_cases _ _ _ _ Hrow) as (row_id & parent_id & Hid' & Hp & Hcase).
  rewrite Hid in Hid'. injection Hid' as <-.
  assert (Hlink : child_of db parent_id (Z.of_nat k)) by (by exists k, r).
  assert (Hclosed : ∀ s, s ∈ closed st → chain (child_of db) (ids s)).
  { intros s Hs. apply Hchain. unfold _sections. apply elem_of_app. by left. }
  assert (Hcurr : chain (child_of db) (ids (curr_section st)))
    by (apply Hchain, elem_of_snoc).
  assert (Hnew : chain (child_of db) (ids new_Section)) by done.
  destruct Hcase as [Hlast|(lst & Hlast & Hne)].
  - rewrite (scan_row_no_gap _ _ _ _ _ Hid Hp Hlast) in Hrow.
    assert (Hnext : chain (child_of db)
              (ids (set_ids (ids (seed_section parent_id r (curr_section st))
                             ++ [Z.of_nat k])
                      (seed_section parent_id r (curr_section st))))).
    { simpl. apply chain_app; [|done|].
      - destruct (ids (curr_section st)) as [|x l] eqn:Hids.
        + by rewrite seed_section_empty.
        + by rewrite (seed_section_cons _ _ _ _ _ Hids), Hids.
      - intros a b Ha [= <-]. rewrite Hlast in Ha. by injection Ha as <-. }
    unfold _sections.
    case_decide; injection Hrow as <-; cbn [closed curr_section]; intros s.
    + intros [[Hs | ->%list_elem_of_singleton]%elem_of_app
              | ->%list_elem_of_singleton]%elem_of_app; auto.
    + intros [Hs | ->%list_elem_of_singleton]%elem_of_app; auto.
  - rewrite (scan_row_gap _ _ _ _ _ _ Hid Hp Hlast Hne) in Hrow. injection Hrow as <-.
    unfold _sections. cbn [closed curr_section]. intros s.
    intros [[Hs | ->%list_elem_of_singleton]%elem_of_app
            | ->%list_elem_of_singleton]%elem_of_app; auto.
    simpl. by split.
Qed.

Lemma scan_chain db st :
  NoDup (ID <$> db) → scan db = Some st →
  ∀ s, s ∈ _sections st → chain (child_of db) (ids s).
Proof.
  intros Hnd. unfold scan.
  apply (foldlM_invariant (λ st, ∀ s, s ∈ _sections st → chain (child_of db) (ids s))).
  - unfold _sections. simpl. by intros s ->%list_elem_of_singleton.
  - intros st1 r st2 Hst1 Hr Hrow. by apply (scan_row_chain db st1 st2 r).
Qed.

(** The resolution keeps every section a chain: a section merged at a gap
    continues from the last point of the section it is merged with. *)
Lemma resolve_chains db st (secs : list Sec) :
  NoDup (ID <$> db) →
  scan db = Some st →
  resolve (parent_section st) (_gap_sections st) (_sections st) = Some secs →
  ∀ s, s ∈ secs → chain (child_of db) (ids s).
Proof.
  intros Hnd Hscan.
  pose proof (scan_chain db st Hnd Hscan) as Hchain.
  pose proof (scan_parents_linked db st Hscan) as Hlinked.
  destruct (scan_shape_final db st Hscan) as [Hclosed (Hcpid & Hclen & Hcids) Hgaps Hparents].
  set (n := length db). set (m := length (_sections st)).
  assert (Hm : m = S (length (closed st)))
    by (unfold m, _sections; rewrite length_app; simpl; lia).
  assert (Hinit : ∀ j s, _sections st !! j = Some s →
            resolved_shape n m s ∧ unresolved_shape s).
  { intros j s Hj. apply list_elem_of_lookup_2 in Hj. unfold _sections in Hj.
    apply elem_of_app in Hj as [Hs | ->%list_elem_of_singleton].
    - destruct (Hclosed s Hs) as (Hp & Hl & Hi).
      split; [|by split; [|right]]. split; [by left|]. split; [lia|done].
    - split; [|done]. split; [by left|]. split; [lia|done]. }
  assert (Hsteps : ∀ k h',
            foldlM (resolve_section (parent_section st) (_gap_sections st))
              (_sections st) (seq 0 k) = Some h' →
            (length h' = m
             ∧ (∀ j s, h' !! j = Some s → resolved_shape n m s)
             ∧ (∀ j s, (k ≤ j)%nat → h' !! j = Some s → unresolved_shape s))
            ∧ ∀ j s, h' !! j = Some s →
                chain (child_of db) (ids s)
                ∧ (ids s = []
                   ∨ ∃ s0, _sections st !! j = Some s0 ∧ last (ids s) = last (ids s0))).
  { induction k as [|k IH]; intros h'.
    - intros Hrun. simpl in Hrun. injection Hrun as <-. split.
      + split; [done|]. split; intros j s; [|intros _]; intros Hj; by apply (Hinit j s).
      + intros j s Hj. split; [by apply Hchain, (list_elem_of_lookup_2 _ j)|].
        right. by exists s.
    - rewrite seq_S, foldlM_snoc. intros Hrun.
      destruct (foldlM _ _ (seq 0 k)) as [mid|]; [|done]. simpl in Hrun.
      destruct (IH mid eq_refl) as [(Hlen & Hres & Hunres) Hmid]. split.
      { apply (resolve_section_shape n m (parent_section st) (_gap_sections st) mid h' k);
          try done.
        - intros e j Hj. specialize (Hparents e j Hj). lia.
        - intros g Hg. specialize (Hgaps g Hg). lia. }
      destruct (resolve_section_effect _ _ _ _ _ Hrun) as (sec & p & Hk & Hp & Heffect).
      pose proof (lookup_lt_Some _ _ _ Hk) as Hlt.
      destruct (Hmid k sec Hk) as [Hsec_chain Hsec_last].
      destruct Heffect as [[_ ->]|(Hgap & a & bridge & Hpos & Ha & ->)].
      + intros j s. destruct (decide (j = k)) as [->|Hne].
        * rewrite list_lookup_insert_eq by done. by intros [= <-].
        * rewrite list_lookup_insert_ne by done. apply Hmid.
      + pose proof (lookup_lt_Some _ _ _ Ha) as Hla. rewrite length_insert in Hla.
        intros j s. destruct (decide (j = a)) as [->|Hja].
        { rewrite list_lookup_insert_eq by (by rewrite length_insert).
          intros [= <-]. split; [done|by left]. }
        rewrite list_lookup_insert_ne by done.
        destruct (decide (j = k)) as [->|Hjk]; [|rewrite list_lookup_insert_ne by done; apply Hmid].
        rewrite list_lookup_insert_eq by done. intros [= <-]. simpl.
        rewrite list_lookup_insert_ne in Ha by done.
        destruct (Hmid a bridge Ha) as [Hbridge_chain Hbridge_last].
        destruct (Hunres k sec (le_n _) Hk) as [Hpid Hids].
        pose proof (Hgaps p Hgap) as Hprange.
        destruct (ids sec) as [|first [|b rest]] eqn:Hsec;
          [injection Hp as <-; lia|destruct Hids as [?|Hl]; [done|simpl in Hl; lia]|].
        destruct (Hlinked first p Hp) as [[_ ->]|(i & si & -> & Hi & Hsi)]; [lia|].
        apply py_position_of_nat in Hpos as [-> _].
        assert (Hjoin : ∀ x, last (ids bridge) = Some x → x = first).
        { intros x Hx. destruct Hbridge_last as [Hnil|(s0 & Hs0 & Hlast0)].
          - by rewrite Hnil in Hx.
          - unfold _sections in Hs0. rewrite (lookup_app_l_Some _ _ _ _ Hi) in Hs0.
            injection Hs0 as <-. congruence. }
        split.
        * apply chain_app; [done|by eapply chain_tail|].
          intros x y Hx [= <-]. rewrite (Hjoin x Hx). by destruct Hsec_chain.
        * right. destruct Hsec_last as [?|(s0 & Hs0 & Hlast0)]; [done|].
          exists s0. split; [done|]. rewrite <- Hlast0, last_app. simpl.
          destruct (last (b :: rest)) eqn:Hrest; [done|by apply last_None in Hrest]. }
  unfold resolve. intros Hrun s [j Hj]%list_elem_of_lookup.
  destruct (Hsteps _ _ Hrun) as [_ Hall]. by destruct (Hall j s Hj).
Qed.

(** X16.  For every table with distinct identifiers, with or without
    discontinuity, every section that [extract_sections] returns is an
    unbranched chain of points: each point id after the first one is the
    position of a row whose parent is the point id just before it (the row
    at that position, or no row when that point id is [-1]). *)
Theorem section_points_chained db (secs : list Sec) (s : Sec) (i : nat) (a b : Z) :
  NoDup (ID <$> db) →
  extract_sections db = Some secs →
  s ∈ secs →
  ids s !! i = Some a →
  ids s !! S i = Some b →
  ∃ (k : nat) r,
    b = Z.of_nat k ∧ db !! k = Some r
    ∧ ((a = -1 ∧ P r = -1)
       ∨ ∃ (j : nat) parent, a = Z.of_nat j ∧ db !! j = Some parent ∧ ID parent = P r).
Proof.
  intros Hnd. unfold extract_sections.
  destruct (scan db) as [st|] eqn:Hscan; [|done]. simpl. intros Hres Hs Ha Hb.
  pose proof (resolve_chains db st secs Hnd Hscan Hres s Hs) as Hchain.
  destruct (chain_lookup _ _ _ _ _ Hchain Ha Hb) as (k & r & -> & Hk & Hparent).
  exists k, r. split; [done|]. split; [done|].
  destruct (make_id_map_Some db _ _ Hparent) as [[? ->]|(j & parent & -> & Hj & Hid)];
    [by left|].
  right. by exists j, parent.
Qed.

End Chains.

Lemma section_points_chained_witness :
  ∃ (k : nat) r,
    4 = Z.of_nat k ∧ gap_table !! k = Some r
    ∧ ((1 = -1 ∧ P r = -1)
       ∨ ∃ (j : nat) parent,
           1 = Z.of_nat j ∧ gap_table !! j = Some parent ∧ ID parent = P r).
Proof.
  apply (section_points_chained gap_table
           (default [] (extract_sections gap_table))
           {| ids := [0; 1; 4]; ntype := 3; pid := 0 |} 1 1 4).
  - apply (bool_decide_unpack _). vm_compute. exact I.
  - vm_compute. reflexivity.
  - vm_compute. do 3 right. left.
  - reflexivity.
  - reflexivity.
Defined.

(** ** The neurites and the trunks *)

Section Roots.

Context {coord NeuriteType : Type}.
Variable SOMA : Z.
Variable _TREE_TYPES : list NeuriteType.
Implicit Types (rdw : SecDataWrapper coord) (nodes : list (Tree coord NeuriteType))
  (ns : list (Neurite coord NeuriteType)).

(** X17.  [make_neurites] returns one neurite for each trunk, in the order
    of [neurite_trunks], whatever the post-action: neurite [k] is rooted at
    the node of trunk [k], it has the type that [_TREE_TYPES] gives for the
    type tag of the trunk section, and its points are not computed yet. *)
Theorem neurites_of_trunks rdw
    (post_action : option (Tree coord NeuriteType → option (Tree coord NeuriteType)))
    ns nodes (trunks : list Z) :
  make_neurites SOMA _TREE_TYPES rdw post_action = Some (ns, nodes) →
  neurite_trunks SOMA rdw = Some trunks →
  length ns = length trunks
  ∧ ∀ (k : nat) n, ns !! k = Some n →
      trunks !! k = Some (Z.of_nat (root_node n))
      ∧ _points n = None
      ∧ Some (neurite_type n)
        = sections rdw !! root_node n ≫= λ sec, py_index _TREE_TYPES (ntype sec).
Proof.
  intros Hmake Htr.
  destruct (py_min trunks) as [start_node|] eqn:Hmin.
  2:{ destruct trunks; [|done]. unfold make_neurites in Hmake.
      rewrite Htr in Hmake. simpl in Hmake. injection Hmake as <- <-.
      split; [done|]. by intros k n. }
  destruct (make_neurites_nodes SOMA _TREE_TYPES rdw post_action ns nodes trunks start_node
              Hmake Htr Hmin) as (nodes0 & nodes1 & Hnodes0 & Hnodes1 & Hns & _).
  pose proof (py_min_trunks_nonneg SOMA rdw trunks start_node Htr Hmin) as Hstart.
  destruct (connect_nodes_effect _TREE_TYPES rdw start_node nodes0 nodes1 _ Hstart Hnodes1)
    as [Hlen1 Heffect].
  split; [symmetry; by eapply length_mapM|].
  intros k n Hk. apply mapM_Some_1 in Hns.
  destruct (Forall2_lookup_r _ _ _ _ _ Hns Hk) as (i & Hi & Hinit).
  destruct (neurite_trunks_inv SOMA rdw trunks i Htr (list_elem_of_lookup_2 _ _ _ Hi))
    as (j & ss & -> & Hss & _).
  destruct (py_position _ _) as [root|] eqn:Hpos; [|done]. simpl in Hinit.
  apply py_position_of_nat in Hpos as [-> Hj].
  unfold Neurite_init in Hinit.
  destruct (nodes1 !! j) as [t|] eqn:Ht; [|done]. simpl in Hinit.
  destruct (type t) as [ty|] eqn:Hty; [|done]. simpl in Hinit. injection Hinit as <-.
  simpl. split; [done|]. split; [done|].
  destruct (lookup_lt_is_Some_2 nodes0 j) as [nd0 Hnd0]; [lia|].
  destruct (Heffect j nd0 Hnd0) as (nd1 & Hnd1 & _ & Htype & _).
  rewrite Ht in Hnd1. injection Hnd1 as <-.
  rewrite decide_True in Htype by lia. by rewrite <- Htype, Hty.
Qed.

End Roots.

Lemma neurites_of_trunks_witness :
  ∃ ns nodes,
    make_neurites 1 TT {| data_block := soma_y_branch; sections := soma_y_sections |}
      (Some (_remove_soma_initial_point 1)) = Some (ns, nodes)
    ∧ length ns = length [2]
    ∧ ∀ (k : nat) n, ns !! k = Some n →
        [2] !! k = Some (Z.of_nat (root_node n))
        ∧ _points n = None
        ∧ Some (neurite_type n)
          = soma_y_sections !! root_node n ≫= λ sec, py_index TT (ntype sec).
Proof.
  assert (Hmake : make_neurites 1 TT
            {| data_block := soma_y_branch; sections := soma_y_sections |}
            (Some (_remove_soma_initial_point 1))
          = Some ([ {| root_node := 2; neurite_type := basal_dendrite; _points := None |} ],
                  default [] (snd <$> make_neurites 1 TT
                     {| data_block := soma_y_branch; sections := soma_y_sections |}
                     (Some (_remove_soma_initial_point 1)))))
    by (vm_compute; reflexivity).
  eexists _, _. split; [exact Hmake|].
  apply (neurites_of_trunks 1 TT
           {| data_block := soma_y_branch; sections := soma_y_sections |}
           (Some (_remove_soma_initial_point 1)) _ _ [2] Hmake).
  vm_compute. reflexivity.
Defined.

(** ** A type tag without type *)

Section UnknownType.

Context {coord NeuriteType : Type}.
Variable SOMA : Z.
Variable _TREE_TYPES : list NeuriteType.
Implicit Types (rdw : SecDataWrapper coord).

(** X18.  When there is a trunk, [make_neurites] raises ([IndexError]) as
    soon as one section of the list, trunk or not, has a type tag for which
    [_TREE_TYPES] has no entry, whatever the post-action. *)
Theorem make_neurites_unknown_type rdw
    (post_action : option (Tree coord NeuriteType → option (Tree coord NeuriteType)))
    (trunks : list Z) (s : Sec) :
  neurite_trunks SOMA rdw = Some trunks →
  trunks ≠ [] →
  s ∈ sections rdw →
  py_index _TREE_TYPES (ntype s) = None →
  make_neurites SOMA _TREE_TYPES rdw post_action = None.
Proof.
  intros Htr Hne [i Hi]%list_elem_of_lookup Hty. unfold make_neurites.
  rewrite Htr. simpl. rewrite decide_False by (by destruct trunks).
  destruct (py_min trunks) as [start_node|]; [|done]. simpl.
  destruct (mapM _ (sections rdw)) as [nodes0|] eqn:Hnodes0; [|done]. simpl.
  rewrite (foldlM_fails _ _ (seq 0 (length nodes0)) i); [done| |].
  - apply elem_of_seq. apply lookup_lt_Some in Hi.
    rewrite <- (length_mapM _ _ _ Hnodes0). lia.
  - intros nodes. unfold connect_node. rewrite Hi. simpl. by rewrite Hty.
Qed.

End UnknownType.

Lemma make_neurites_unknown_type_witness :
  make_neurites 1 [undefined; soma]
    {| data_block := soma_y_branch; sections := soma_y_sections |} None = None.
Proof.
  apply (make_neurites_unknown_type 1 [undefined; soma]
           {| data_block := soma_y_branch; sections := soma_y_sections |} None [2]
           {| ids := [0; 2; 3; 4]; ntype := 3; pid := 0 |}).
  - vm_compute. reflexivity.
  - discriminate.
  - simpl. do 2 right. left.
  - reflexivity.
Defined.

(** ** The rows of a section with a parent *)

Section ParentRows.

Context {coord : Type}.
Implicit Types (db : list (Row coord)) (r : Row coord) (st : ScanState) (h : list Sec).

(** [id_map] sends the identifier of a row to the position of a row. *)
Lemma make_id_map_row db r :
  r ∈ db → ∃ j : nat, make_id_map db !! ID r = Some (Z.of_nat j).
Proof.
  induction db as [|r0 front IH] using rev_ind; [by intros ?%elem_of_nil|].
  intros Hr. rewrite make_id_map_snoc.
  destruct (decide (ID r0 = ID r)) as [->|Hne].
  - rewrite lookup_insert_eq. by eexists.
  - rewrite lookup_insert_ne by done. apply IH.
    apply elem_of_app in Hr as [Hr | ->%list_elem_of_singleton]; done.
Qed.

Lemma last_in_tail (l : list Z) (x : Z) :
  (2 ≤ length l)%nat → last l = Some x → x ∈ drop 1 l.
Proof.
  destruct l as [|a [|b l]]; simpl; [lia|lia|]. intros _ Hlast.
  change (last (b :: l) = Some x) in Hlast.
  apply last_Some in Hlast as [l' ->]. apply elem_of_snoc.
Qed.

Lemma Forall_drop_app (Q : Z → Prop) (l1 l2 : list Z) :
  Forall Q (drop 1 l1) → Forall Q l2 → Forall Q (drop 1 (l1 ++ l2)).
Proof.
  destruct l1 as [|a l1]; simpl.
  - intros _ H2. by apply Forall_drop.
  - rewrite drop_0. intros H1 H2. rewrite drop_0. by apply Forall_app.
Qed.

(** The scan keeps [-1] out of the sections, the first point id apart, and
    keeps the entry of [parent_section] for [-1]. *)
Lemma scan_row_rows db st st' r :
  r ∈ db →
  scan_shape (length db) st →
  (∀ s, s ∈ _sections st → Forall (λ x, 0 ≤ x) (drop 1 (ids s))) →
  parent_section st !! (-1) = Some (-1) →
  scan_row (make_id_map db) st r = Some st' →
  (∀ s, s ∈ _sections st' → Forall (λ x, 0 ≤ x) (drop 1 (ids s)))
  ∧ parent_section st' !! (-1) = Some (-1).
Proof.
  intros Hr [_ (_ & Hclen & _) _ _] Hall Hroot Hrow.
  destruct (make_id_map_row db r Hr) as [k Hid].
  destruct (scan_row_cases _ _ _ _ Hrow) as (row_id & parent_id & Hid' & Hp & Hcase).
  rewrite Hid in Hid'. injection Hid' as <-.
  assert (Hclosed : ∀ s, s ∈ closed st → Forall (λ x, 0 ≤ x) (drop 1 (ids s))).
  { intros s Hs. apply Hall. unfold _sections. apply elem_of_app. by left. }
  assert (Hcurr : Forall (λ x, 0 ≤ x) (drop 1 (ids (curr_section st))))
    by (apply Hall, elem_of_snoc).
  assert (Hnew : Forall (λ x, 0 ≤ x) (drop 1 (ids new_Section))) by constructor.
  destruct Hcase as [Hlast|(lst & Hlast & Hne)].
  - rewrite (scan_row_no_gap _ _ _ _ _ Hid Hp Hlast) in Hrow.
    assert (Hnext : Forall (λ x, 0 ≤ x)
              (drop 1 (ids (set_ids (ids (seed_section parent_id r (curr_section st))
                                     ++ [Z.of_nat k])
                              (seed_section parent_id r (curr_section st)))))).
    { simpl. apply Forall_drop_app; [|repeat constructor; lia].
      destruct (ids (curr_section st)) as [|x l] eqn:Hids.
      - rewrite seed_section_empty by done. constructor.
      - by rewrite (seed_section_cons _ _ _ _ _ Hids), Hids. }
    unfold _sections.
    case_decide; injection Hrow as <-; cbn [closed curr_section parent_section]; split.
    + intros s [[Hs | ->%list_elem_of_singleton]%elem_of_app
                | ->%list_elem_of_singleton]%elem_of_app; auto.
    + rewrite lookup_insert_ne; [done|lia].
    + intros s [Hs | ->%list_elem_of_singleton]%elem_of_app; auto.
    + done.
  - rewrite (scan_row_gap _ _ _ _ _ _ Hid Hp Hlast Hne) in Hrow. injection Hrow as <-.
    unfold _sections. cbn [closed curr_section parent_section]. split.
    + intros s [[Hs | ->%list_elem_of_singleton]%elem_of_app
                | ->%list_elem_of_singleton]%elem_of_app; auto.
      simpl. repeat constructor. lia.
    + rewrite lookup_insert_ne; [done|].
      destruct Hclen as [Hnil|Hlen]; [by rewrite Hnil in Hlast|].
      pose proof (last_in_tail _ _ Hlen Hlast) as Hin.
      pose proof (proj1 (Forall_forall _ _) Hcurr lst Hin). simpl in *. lia.
Qed.

Lemma scan_rows db st :
  scan db = Some st →
  (∀ s, s ∈ _sections st → rows_shape s) ∧ parent_section st !! (-1) = Some (-1).
Proof.
  intros Hscan.
  assert (Hinv : scan_shape (length db) st
                 ∧ (∀ s, s ∈ _sections st → Forall (λ x, 0 ≤ x) (drop 1 (ids s)))
                 ∧ parent_section st !! (-1) = Some (-1)).
  { revert Hscan. unfold scan.
    apply (foldlM_invariant
             (λ st, scan_shape (length db) st
                    ∧ (∀ s, s ∈ _sections st → Forall (λ x, 0 ≤ x) (drop 1 (ids s)))
                    ∧ parent_section st !! (-1) = Some (-1))).
    - split; [apply scan_shape_init|]. split; [|done].
      unfold _sections. simpl. intros s ->%list_elem_of_singleton. constructor.
    - intros st1 r st2 (Hshape & Hall & Hroot) Hr Hrow. split.
      + apply (scan_shape_step _ (make_id_map db) st1 st2 r); [|done|done].
        intros ? ?. apply make_id_map_range.
      + by apply (scan_row_rows db st1 st2 r). }
  destruct Hinv as ([Hclosed (Hcpid & _ & Hcids) _ _] & Hall & Hroot). split; [|done].
  intros s Hs. split; [|split; [by apply Hall|]].
  - assert (Hin : Forall (in_table (length db)) (ids s)).
    { unfold _sections in Hs. apply elem_of_app in Hs as [Hs | ->%list_elem_of_singleton];
        [by destruct (Hclosed s Hs) as (_ & _ & ?)|done]. }
    eapply Forall_impl; [exact Hin|]. intros x [? _]. done.
  - left. unfold _sections in Hs.
    apply elem_of_app in Hs as [Hs | ->%list_elem_of_singleton];
      [by destruct (Hclosed s Hs)|done].
Qed.

(** The resolution keeps [-1] out of the sections with a parent. *)
Lemma resolve_section_rows (parents : gmap Z Z) (gaps : gset Z) h h' (i : nat) :
  parents !! (-1) = Some (-1) →
  (∀ s, s ∈ h → rows_shape s) →
  resolve_section parents gaps h i = Some h' →
  ∀ s, s ∈ h' → rows_shape s.
Proof.
  intros Hroot Hall Hrun.
  destruct (resolve_section_effect _ _ _ _ _ Hrun) as (sec & p & Hi & Hp & Heffect).
  destruct (Hall sec (list_elem_of_lookup_2 _ _ _ Hi)) as (Hrange & Htail & Hpid).
  assert (Hsec1 : rows_shape (set_pid p sec)).
  { split; [done|]. split; [done|]. simpl.
    destruct (ids sec) as [|first rest] eqn:Hids.
    - injection Hp as <-. done.
    - destruct (decide (first = -1)) as [->|Hne].
      + left. rewrite Hroot in Hp. by injection Hp.
      + right. apply Forall_cons. split; [|done].
        apply Forall_cons in Hrange as [? _]. lia. }
  assert (Hh1 : ∀ j s, <[i := set_pid p sec]> h !! j = Some s → rows_shape s).
  { intros j s Hj. apply list_lookup_insert_Some in Hj as [(-> & <- & _)|[_ Hj]]; [done|].
    by apply Hall, (list_elem_of_lookup_2 _ j). }
  destruct Heffect as [[_ ->]|(_ & a & bridge & _ & Ha & ->)].
  - intros s [j Hj]%list_elem_of_lookup. by apply (Hh1 j).
  - destruct (Hh1 a bridge Ha) as (Hbrange & Hbtail & Hbpid).
    intros s [j Hj]%list_elem_of_lookup.
    apply list_lookup_insert_Some in Hj as [(-> & <- & _)|[_ Hj]].
    { split; [constructor|]. split; [constructor|by left]. }
    apply list_lookup_insert_Some in Hj as [(-> & <- & _)|[_ Hj]].
    + split; [|split]; simpl.
      * apply Forall_app. split; [done|]. by apply Forall_drop.
      * by apply Forall_drop_app.
      * destruct Hbpid as [?|Hb]; [by left|]. right. by apply Forall_app.
    + by apply Hall, (list_elem_of_lookup_2 _ j).
Qed.

Lemma extract_sections_rows db (secs : list Sec) :
  extract_sections db = Some secs → ∀ s, s ∈ secs → rows_shape s.
Proof.
  unfold extract_sections. destruct (scan db) as [st|] eqn:Hscan; [|done]. simpl.
  destruct (scan_rows db st Hscan) as [Hall Hroot]. unfold resolve.
  apply (foldlM_invariant (λ h, ∀ s, s ∈ h → rows_shape s)); [done|].
  intros h1 i h2 Hh1 _ Hstep.
  by apply (resolve_section_rows (parent_section st) (_gap_sections st) h1 h2 i).
Qed.

(** X19.  In the list that [extract_sections] returns, for any data block,
    the point ids of a section with a parent ([pid] other than [-1]) are
    positions of rows of the data block: [-1], the parent of a root point,
    is not among them. *)
Theorem section_with_parent_has_rows db (secs : list Sec) (s : Sec) (x : Z) :
  extract_sections db = Some secs →
  s ∈ secs →
  pid s ≠ -1 →
  x ∈ ids s →
  0 ≤ x < Z.of_nat (length db).
Proof.
  intros Hrun Hs Hpid Hx.
  destruct (extract_sections_rows db secs Hrun s Hs) as (_ & _ & [?|Hall]); [done|].
  destruct (extract_sections_shape db secs Hrun s Hs) as (_ & _ & Hin).
  pose proof (proj1 (Forall_forall _ _) Hall x Hx) as Hlow.
  pose proof (proj1 (Forall_forall _ _) Hin x Hx) as [_ Hup].
  simpl in Hlow. lia.
Qed.

End ParentRows.

Lemma section_with_parent_has_rows_witness :
  0 ≤ 2 < Z.of_nat (length y_branch).
Proof.
  apply (section_with_parent_has_rows y_branch y_branch_sections branch_section 2).
  - vm_compute. reflexivity.
  - right. left.
  - discriminate.
  - left.
Defined.

(** ** The rows of a node *)

Section NodeRows.

Context {coord NeuriteType : Type}.
Variable SOMA : Z.
Variable _TREE_TYPES : list NeuriteType.
Implicit Types (db : list (Row coord)) (secs : list Sec)
  (nodes : list (Tree coord NeuriteType)) (ns : list (Neurite coord NeuriteType)).

(** Without post-action, node [i] holds the rows that the point ids of
    section [i] select. *)
Lemma make_neurites_node_rows db secs ns nodes (i : nat) (sec : Sec)
    (nd : Tree coord NeuriteType) :
  make_neurites SOMA _TREE_TYPES {| data_block := db; sections := secs |} None
  = Some (ns, nodes) →
  secs !! i = Some sec → nodes !! i = Some nd →
  Forall2 (λ x row, py_index db x = Some row) (ids sec) (value nd).
Proof.
  intros Hmake Hsec Hnd.
  set (rdw := {| data_block := db; sections := secs |}) in *.
  assert (∃ trunks, neurite_trunks SOMA rdw = Some trunks) as [trunks Htr].
  { unfold make_neurites in Hmake. destruct (neurite_trunks SOMA rdw); [eauto|done]. }
  destruct (py_min trunks) as [start_node|] eqn:Hmin.
  2:{ destruct trunks; [|done]. unfold make_neurites in Hmake.
      rewrite Htr in Hmake. simpl in Hmake. by injection Hmake as <- <-. }
  destruct (make_neurites_nodes SOMA _TREE_TYPES rdw None ns nodes trunks start_node
              Hmake Htr Hmin) as (nodes0 & nodes1 & Hnodes0 & Hnodes1 & _ & Hnodes).
  injection Hnodes as ->.
  pose proof (py_min_trunks_nonneg SOMA rdw trunks start_node Htr Hmin) as Hstart.
  destruct (connect_nodes_effect _TREE_TYPES rdw start_node nodes0 nodes _ Hstart Hnodes1)
    as [Hlen1 Heffect].
  apply mapM_Some_1 in Hnodes0.
  destruct (Forall2_lookup_l _ _ _ _ _ Hnodes0 Hsec) as (nd0 & Hnd0 & Hrows0).
  destruct (Heffect i nd0 Hnd0) as (nd' & Hnd' & Hvalue & _).
  rewrite Hnd in Hnd'. injection Hnd' as <-. rewrite Hvalue.
  simpl in Hrows0. destruct (py_take_rows db (ids sec)) as [rows|] eqn:Hrows; [|done].
  simpl in Hrows0. injection Hrows0 as <-. simpl.
  by apply mapM_Some_1 in Hrows.
Qed.

(** X20.  Take the nodes that [make_neurites] returns, without post-action,
    on the sections extracted from a data block.  The node of a section with
    a parent holds, in order, the rows at the positions given by the point
    ids of the section.  The node of a section whose first point id is [-1]
    (a section that starts at a root point) has for first row the last row
    of the data block, which the index [-1] selects. *)
Theorem node_rows_of_section db secs ns nodes (i : nat) (sec : Sec)
    (nd : Tree coord NeuriteType) :
  extract_sections db = Some secs →
  make_neurites SOMA _TREE_TYPES {| data_block := db; sections := secs |} None
  = Some (ns, nodes) →
  secs !! i = Some sec →
  nodes !! i = Some nd →
  (pid sec ≠ -1 →
     Forall2 (λ x row, 0 ≤ x ∧ db !! Z.to_nat x = Some row) (ids sec) (value nd))
  ∧ (head (ids sec) = Some (-1) → head (value nd) = last db).
Proof.
  intros Hrun Hmake Hsec Hnd.
  pose proof (make_neurites_node_rows db secs ns nodes i sec nd Hmake Hsec Hnd) as Hrows.
  split.
  - intros Hpid.
    assert (Hids : ∀ x, x ∈ ids sec → 0 ≤ x < Z.of_nat (length db)).
    { intros x Hx. destruct (extract_sections_rows db secs Hrun sec) as (_ & _ & [?|Hall]);
        [by eapply list_elem_of_lookup_2|done|].
      destruct (extract_sections_shape db secs Hrun sec) as (_ & _ & Hin);
        [by eapply list_elem_of_lookup_2|].
      pose proof (proj1 (Forall_forall _ _) Hall x Hx) as Hlow.
      pose proof (proj1 (Forall_forall _ _) Hin x Hx) as [_ Hup].
      simpl in Hlow. lia. }
    clear Hsec. induction Hrows as [|x row l k Hx Hrows IH]; [constructor|].
    constructor.
    + assert (Hin : 0 ≤ x < Z.of_nat (length db)) by (apply Hids; left).
      split; [lia|]. unfold py_index in Hx.
      by rewrite py_position_in_range in Hx by done.
    + apply IH. intros y Hy. apply Hids. by right.
  - intros Hhead. destruct Hrows as [|x row l k Hx Hrows]; [done|].
    simpl in Hhead. injection Hhead as ->. simpl.
    unfold py_index, py_position in Hx.
    rewrite decide_False in Hx by lia.
    destruct (decide (- Z.of_nat (length db) ≤ -1 < 0)) as [Hlen|]; [|done].
    rewrite last_lookup, <- Hx. f_equal. lia.
Qed.

End NodeRows.

Lemma node_rows_of_section_witness :
  ∃ ns nodes nd,
    make_neurites 1 TT {| data_block := soma_y_branch; sections := soma_y_sections |} None
    = Some (ns, nodes)
    ∧ nodes !! 0%nat = Some nd
    ∧ (-1 ≠ -1 →
         Forall2 (λ x row, 0 ≤ x ∧ soma_y_branch !! Z.to_nat x = Some row)
           [-1; 0] (value nd))
    ∧ (head [-1; 0] = Some (-1) → head (value nd) = last soma_y_branch).
Proof.
  assert (Hmake : make_neurites 1 TT
            {| data_block := soma_y_branch; sections := soma_y_sections |} None
          = Some ([ {| root_node := 2; neurite_type := basal_dendrite; _points := None |} ],
                  default [] (snd <$> make_neurites 1 TT
                     {| data_block := soma_y_branch; sections := soma_y_sections |} None)))
    by (vm_compute; reflexivity).
  eexists _, _, _. split; [exact Hmake|]. split; [vm_compute; reflexivity|].
  apply (node_rows_of_section 1 TT soma_y_branch soma_y_sections _ _ 0
           {| ids := [-1; 0]; ntype := 1; pid := -1 |} _
           ltac:(vm_compute; reflexivity) Hmake eq_refl).
  vm_compute. reflexivity.
Defined.

(** ** The Y-branch, with any type tags *)

Section YBranch.

Context {coord NeuriteType : Type}.
Variable SOMA : Z.
Variable _TREE_TYPES : list NeuriteType.
Implicit Types (rdw : SecDataWrapper coord) (nodes : list (Tree coord NeuriteType))
  (ns : list (Neurite coord NeuriteType)).

(** With or without the post-action of the SWC format, the children of the
    nodes are the sections that have them for parent. *)
Lemma make_neurites_final_children rdw
    (post_action : option (Tree coord NeuriteType → option (Tree coord NeuriteType)))
    ns nodes (trunks : list Z) (start_node : Z) :
  post_action = None ∨ post_action = Some (_remove_soma_initial_point SOMA) →
  make_neurites SOMA _TREE_TYPES rdw post_action = Some (ns, nodes) →
  neurite_trunks SOMA rdw = Some trunks → py_min trunks = Some start_node →
  ∀ (j : nat) nd, nodes !! j = Some nd →
    children nd = children_of (sections rdw) start_node j.
Proof.
  intros Haction Hmake Htr Hmin j nd Hj.
  destruct (make_neurites_nodes SOMA _TREE_TYPES rdw post_action ns nodes trunks start_node
              Hmake Htr Hmin) as (nodes0 & nodes1 & Hnodes0 & Hnodes1 & _ & Hnodes).
  pose proof (length_mapM _ _ _ Hnodes0) as Hlen0.
  destruct (connect_nodes_effect _TREE_TYPES rdw start_node nodes0 nodes1 _
              (py_min_trunks_nonneg SOMA rdw trunks start_node Htr Hmin) Hnodes1)
    as [Hlen1 Heffect].
  assert (Hfinal : length nodes = length nodes1
                   ∧ ∀ k t, nodes1 !! k = Some t →
                       ∃ t', nodes !! k = Some t' ∧ children t' = children t).
  { destruct Haction as [-> | ->].
    - injection Hnodes as <-. split; [done|]. intros k t Hk. by exists t.
    - destruct (apply_soma_actions SOMA nodes1 nodes ns Hnodes) as [Hlen Hsame].
      split; [done|]. intros k t Hk.
      destruct (Hsame k t Hk) as (t' & Hk' & Hc & _). by exists t'. }
  destruct Hfinal as [Hlen Hfinal].
  destruct (lookup_lt_is_Some_2 nodes0 j) as [nd0 Hnd0].
  { apply lookup_lt_Some in Hj. lia. }
  destruct (Heffect j nd0 Hnd0) as (nd1 & Hnd1 & _ & _ & _ & Hch).
  destruct (Hfinal j nd1 Hnd1) as (nd' & Hj' & Hsame).
  rewrite Hj in Hj'. injection Hj' as <-.
  assert (Hnew : children nd0 = []).
  { apply mapM_Some_1 in Hnodes0.
    destruct (Forall2_lookup_r _ _ _ _ _ Hnodes0 Hnd0) as (sec & _ & Hsec).
    destruct (py_take_rows _ _); [|done]. simpl in Hsec. by injection Hsec as <-. }
  rewrite Hsame, Hch, Hnew. unfold children_of. by rewrite Hlen0.
Qed.

(** The root node of a neurite is the node of a trunk. *)
Lemma neurite_root_is_trunk rdw
    (post_action : option (Tree coord NeuriteType → option (Tree coord NeuriteType)))
    ns nodes (trunks : list Z) (n : Neurite coord NeuriteType) :
  make_neurites SOMA _TREE_TYPES rdw post_action = Some (ns, nodes) →
  neurite_trunks SOMA rdw = Some trunks →
  n ∈ ns → Z.of_nat (root_node n) ∈ trunks.
Proof.
  intros Hmake Htr [k Hk]%list_elem_of_lookup.
  destruct (py_min trunks) as [start_node|] eqn:Hmin.
  2:{ destruct trunks; [|done]. unfold make_neurites in Hmake.
      rewrite Htr in Hmake. simpl in Hmake. by injection Hmake as <- <-. }
  destruct (make_neurites_nodes SOMA _TREE_TYPES rdw post_action ns nodes trunks start_node
              Hmake Htr Hmin) as (nodes0 & nodes1 & _ & _ & Hns & _).
  apply mapM_Some_1 in Hns.
  destruct (Forall2_lookup_r _ _ _ _ _ Hns Hk) as (i & Hi & Hinit).
  destruct (neurite_trunks_inv SOMA rdw trunks i Htr (list_elem_of_lookup_2 _ _ _ Hi))
    as (j & ss & -> & _).
  destruct (py_position _ _) as [root|] eqn:Hpos; [|done]. simpl in Hinit.
  apply py_position_of_nat in Hpos as [-> _].
  unfold Neurite_init in Hinit.
  destruct (nodes1 !! j) as [t|]; [|done]. simpl in Hinit.
  destruct (type t); [|done]. simpl in Hinit. injection Hinit as <-. simpl.
  by eapply list_elem_of_lookup_2.
Qed.

(** C9, as the code has it.  For the Y-branch table, rows 0 to 4 with any
    type tags and any coordinates, [extract_sections] returns four sections:
    the chain (which starts with the parent [-1] of row 0), typed by row 0,
    the two branches, typed by rows 3 and 4, and a last section without
    point ids.  The chain has no parent and is no trunk: the trunks are the
    branches whose type tag is not the soma one, when row 0 has the soma type
    tag, and there is none otherwise, in which case [make_neurites] returns
    two empty sequences; the node of a trunk of this table has no child.
    When the Y-branch hangs off a soma of two points with the soma type tag
    that ends a section of its own, its first row not having the soma type
    tag and the type tags having their types, there are six sections and one
    neurite; its trunk has exactly two children, and its points are the five
    points of the Y-branch with the post-action that removes the initial
    soma point, six without post-action. *)
Theorem y_branch_pipeline
    (tag : nat → Z) (q qs : nat → coord * coord * coord * coord) :
  let secs :=
    [ {| ids := [-1; 0; 1; 2]; ntype := tag 0%nat; pid := -1 |};
      {| ids := [2; 3]; ntype := tag 3%nat; pid := 0 |};
      {| ids := [2; 4]; ntype := tag 4%nat; pid := 0 |};
      {| ids := []; ntype := 0; pid := -1 |} ] in
  let rdw := {| data_block := y_branch_of tag q; sections := secs |} in
  let soma_secs :=
    [ {| ids := [-1; 0]; ntype := SOMA; pid := -1 |};
      {| ids := [0; 1]; ntype := SOMA; pid := 0 |};
      {| ids := [0; 2; 3; 4]; ntype := tag 0%nat; pid := 0 |};
      {| ids := [4; 5]; ntype := tag 3%nat; pid := 2 |};
      {| ids := [4; 6]; ntype := tag 4%nat; pid := 2 |};
      {| ids := []; ntype := 0; pid := -1 |} ] in
  let soma_rdw :=
    {| data_block := soma_y_branch_of SOMA qs tag q; sections := soma_secs |} in
  extract_sections (y_branch_of tag q) = Some secs
  ∧ neurite_trunks SOMA rdw
    = Some ((if decide (tag 0%nat = SOMA ∧ tag 3%nat ≠ SOMA) then [1] else [])
            ++ (if decide (tag 0%nat = SOMA ∧ tag 4%nat ≠ SOMA) then [2] else []))
  ∧ (tag 0%nat ≠ SOMA →
     ∀ post_action, make_neurites SOMA _TREE_TYPES rdw post_action = Some ([], []))
  ∧ (∀ post_action ns nodes n trunk,
       post_action = None ∨ post_action = Some (_remove_soma_initial_point SOMA) →
       make_neurites SOMA _TREE_TYPES rdw post_action = Some (ns, nodes) →
       n ∈ ns → nodes !! root_node n = Some trunk →
       children trunk = [])
  ∧ extract_sections (soma_y_branch_of SOMA qs tag q) = Some soma_secs
  ∧ (tag 0%nat ≠ SOMA →
     Forall (λ t, is_Some (py_index _TREE_TYPES t))
       [SOMA; tag 0%nat; tag 3%nat; tag 4%nat; 0] →
     ∃ ty nodes0 nodes trunk,
       let n := {| root_node := 2; neurite_type := ty; _points := None |} in
       py_index _TREE_TYPES (tag 0%nat) = Some ty
       ∧ neurite_trunks SOMA soma_rdw = Some [2]
       ∧ make_neurites SOMA _TREE_TYPES soma_rdw None = Some ([n], nodes0)
       ∧ make_neurites SOMA _TREE_TYPES soma_rdw (Some (_remove_soma_initial_point SOMA))
         = Some ([n], nodes)
       ∧ nodes !! 2%nat = Some trunk
       ∧ children trunk = [3%nat; 4%nat]
       ∧ ∀ fuel, (3 ≤ fuel)%nat →
           fst <$> points fuel nodes n
           = Some [q 0%nat; q 1%nat; q 2%nat; q 3%nat; q 4%nat]
           ∧ fst <$> points fuel nodes0 n
             = Some [qs 0%nat; q 0%nat; q 1%nat; q 2%nat; q 3%nat; q 4%nat]).
Proof.
  intros secs rdw soma_secs soma_rdw.
  assert (Htrunks : neurite_trunks SOMA rdw
    = Some ((if decide (tag 0%nat = SOMA ∧ tag 3%nat ≠ SOMA) then [1] else [])
            ++ (if decide (tag 0%nat = SOMA ∧ tag 4%nat ≠ SOMA) then [2] else []))).
  { unfold neurite_trunks, is_trunk. simpl.
    repeat case_bool_decide; simpl; repeat case_decide; simpl; try done; tauto. }
  split; [vm_compute; reflexivity|]. split; [exact Htrunks|]. split; [|split; [|split]].
  - intros Hne post_action. unfold make_neurites. rewrite Htrunks.
    rewrite (decide_False (P := tag 0%nat = SOMA ∧ tag 3%nat ≠ SOMA)) by tauto.
    rewrite (decide_False (P := tag 0%nat = SOMA ∧ tag 4%nat ≠ SOMA)) by tauto.
    done.
  - intros post_action ns nodes n trunk Haction Hmake Hn Htrunk.
    pose proof (neurite_root_is_trunk rdw post_action ns nodes _ n Hmake Htrunks Hn) as Hroot.
    destruct (py_min ((if decide (tag 0%nat = SOMA ∧ tag 3%nat ≠ SOMA) then [1] else [])
                      ++ (if decide (tag 0%nat = SOMA ∧ tag 4%nat ≠ SOMA) then [2] else [])))
      as [start_node|] eqn:Hmin.
    2:{ destruct (_ ++ _); [by apply elem_of_nil in Hroot|done]. }
    rewrite (make_neurites_final_children rdw post_action ns nodes _ start_node
               Haction Hmake Htrunks Hmin _ _ Htrunk).
    assert (Hcases : root_node n = 1%nat ∨ root_node n = 2%nat).
    { clear Hmin. apply elem_of_app in Hroot as [Hroot|Hroot].
      - destruct (decide (tag 0%nat = SOMA ∧ tag 3%nat ≠ SOMA));
          [|by apply elem_of_nil in Hroot].
        apply list_elem_of_singleton in Hroot. lia.
      - destruct (decide (tag 0%nat = SOMA ∧ tag 4%nat ≠ SOMA));
          [|by apply elem_of_nil in Hroot].
        apply list_elem_of_singleton in Hroot. lia. }
    destruct Hcases as [-> | ->]; vm_compute; reflexivity.
  - vm_compute. reflexivity.
  - intros Hne Htypes.
    apply Forall_cons in Htypes as [[tys Hs] Htypes].
    apply Forall_cons in Htypes as [[ty0 H0] Htypes].
    apply Forall_cons in Htypes as [[ty3 H3] Htypes].
    apply Forall_cons in Htypes as [[ty4 H4] Htypes].
    apply Forall_cons in Htypes as [[tyz Hz] _].
    assert (Htr : neurite_trunks SOMA soma_rdw = Some [2]).
    { unfold neurite_trunks, is_trunk. simpl.
      rewrite !(bool_decide_eq_true_2 (SOMA = SOMA)) by done.
      rewrite !(bool_decide_eq_false_2 (SOMA ≠ SOMA)) by tauto.
      rewrite !(bool_decide_eq_true_2 (tag 0%nat ≠ SOMA)) by done.
      rewrite !(bool_decide_eq_false_2 (tag 0%nat = SOMA)) by done.
      done. }
    exists ty0. eexists _, _, _. cbv zeta.
    split; [exact H0|]. split; [exact Htr|].
    subst soma_rdw soma_secs. split.
    { unfold make_neurites. rewrite Htr. simpl.
      do 6 (unfold connect_node at 1; simpl;
            first [rewrite Hs | rewrite H0 | rewrite H3 | rewrite H4 | rewrite Hz]; simpl).
      unfold Neurite_init. simpl. reflexivity. }
    split.
    { unfold make_neurites. rewrite Htr. simpl.
      do 6 (unfold connect_node at 1; simpl;
            first [rewrite Hs | rewrite H0 | rewrite H3 | rewrite H4 | rewrite Hz]; simpl).
      unfold Neurite_init. simpl.
      unfold apply_action, _remove_soma_initial_point. simpl.
      rewrite decide_True by done. simpl. reflexivity. }
    split; [reflexivity|]. split; [reflexivity|].
    intros fuel Hfuel. destruct fuel as [|[|[|fuel]]]; [lia..|].
    split; unfold points; simpl; destruct fuel; simpl;
      destruct (q 0%nat) as [[[? ?] ?] ?], (q 1%nat) as [[[? ?] ?] ?],
               (q 2%nat) as [[[? ?] ?] ?], (q 3%nat) as [[[? ?] ?] ?],
               (q 4%nat) as [[[? ?] ?] ?], (qs 0%nat) as [[[? ?] ?] ?];
      reflexivity.
Qed.

End YBranch.

Lemma y_branch_pipeline_witness :
  ∃ nodes0 nodes trunk,
    let n := {| root_node := 2; neurite_type := basal_dendrite; _points := None |} in
    neurite_trunks 1 {| data_block := soma_y_branch; sections := soma_y_sections |}
    = Some [2]
    ∧ make_neurites 1 TT {| data_block := soma_y_branch; sections := soma_y_sections |} None
      = Some ([n], nodes0)
    ∧ make_neurites 1 TT {| data_block := soma_y_branch; sections := soma_y_sections |}
        (Some (_remove_soma_initial_point 1))
      = Some ([n], nodes)
    ∧ nodes !! 2%nat = Some trunk
    ∧ children trunk = [3%nat; 4%nat]
    ∧ (length <$> (fst <$> points 3 nodes n)) = Some 5%nat
    ∧ (length <$> (fst <$> points 3 nodes0 n)) = Some 6%nat.
Proof.
  destruct (y_branch_pipeline 1 TT (λ _, 3) (λ i, (Z.of_nat (i + 2), 0, 0, 1))
              (λ i, (Z.of_nat i, 0, 0, 1)))
    as (_ & _ & _ & _ & _ & Hsoma).
  destruct Hsoma as (ty & nodes0 & nodes & trunk & Hty & Htr & Hnone & Hsome & Htrunk
                     & Hchildren & Hpoints).
  - discriminate.
  - repeat (apply Forall_cons_2; [vm_compute; by eexists|]). apply Forall_nil_2.
  - injection Hty as <-. exists nodes0, nodes, trunk.
    destruct (Hpoints 3%nat (le_n _)) as [Hp Hp0].
    repeat (split; [done|]). split.
    + change (length <$> (fst <$> points 3 nodes
                {| root_node := 2; neurite_type := basal_dendrite; _points := None |})
              = Some 5%nat).
      by rewrite Hp.
    + change (length <$> (fst <$> points 3 nodes0
                {| root_node := 2; neurite_type := basal_dendrite; _points := None |})
              = Some 6%nat).
      by rewrite Hp0.
Defined.

(** ** Branch points *)

Section BranchPoints.

Context {coord : Type}.
Implicit Types (db front back : list (Row coord)) (r : Row coord) (st : ScanState)
  (h : list Sec).

(** When the lists given for the elements of a list have no element in
    common, an element is found for one position only. *)
Lemma flat_map_disjoint {A : Type} (f : A → list Z) (l : list A) (j1 j2 : nat)
    (s1 s2 : A) (x : Z) :
  NoDup (flat_map f l) → l !! j1 = Some s1 → l !! j2 = Some s2 →
  x ∈ f s1 → x ∈ f s2 → j1 = j2.
Proof.
  revert j1 j2. induction l as [|s l IH]; intros j1 j2 Hnd H1 H2 Hx1 Hx2; [done|].
  simpl in Hnd. apply NoDup_app in Hnd as (_ & Hdis & Hnd).
  assert (Hin : ∀ j s', l !! j = Some s' → x ∈ f s' → x ∈ flat_map f l).
  { intros j s' Hj Hx. apply list_elem_of_In, in_flat_map. exists s'.
    split; apply list_elem_of_In; [by eapply list_elem_of_lookup_2|done]. }
  destruct j1 as [|j1], j2 as [|j2]; simpl in H1, H2.
  - done.
  - injection H1 as <-. destruct (Hdis x Hx1). by apply (Hin j2 s2).
  - injection H2 as <-. destruct (Hdis x Hx2). by apply (Hin j1 s1).
  - f_equal. by apply IH.
Qed.

Lemma scan_shape_prefix db (rows : list (Row coord)) st :
  foldlM (scan_row (make_id_map db)) (scan_init db) rows = Some st →
  scan_shape (length db) st.
Proof.
  apply (foldlM_invariant (scan_shape (length db))); [apply scan_shape_init|].
  intros st1 r st2 Hst1 _. apply scan_shape_step; [|done].
  intros k v. apply make_id_map_range.
Qed.

(** A section of the scan that has a last point has two points at least. *)
Lemma scan_section_two (n : nat) st (j : nat) (s : Sec) (x : Z) :
  scan_shape n st → _sections st !! j = Some s → last (ids s) = Some x →
  (2 ≤ length (ids s))%nat.
Proof.
  intros [Hclosed (_ & Hcurr & _) _ _] Hj Hlast.
  apply list_elem_of_lookup_2 in Hj. unfold _sections in Hj.
  apply elem_of_app in Hj as [Hs | ->%list_elem_of_singleton].
  - by destruct (Hclosed s Hs) as (_ & ? & _).
  - destruct Hcurr as [Hnil|?]; [by rewrite Hnil in Hlast|done].
Qed.

(** Only the section recorded for the point ends at it. *)
Lemma branch_unique (n : nat) (i : Z) (idx : nat) st (j : nat) (s : Sec) :
  scan_shape n st →
  NoDup (flat_map (λ s, drop 1 (ids s)) (_sections st)) →
  branch_inv i idx st →
  _sections st !! j = Some s → last (ids s) = Some i → j = idx.
Proof.
  intros Hshape Hnd [(s0 & Hs0 & Hlast0) _ _] Hj Hlast.
  assert (Hj0 : _sections st !! idx = Some s0)
    by (unfold _sections; by apply lookup_app_l_Some).
  apply (flat_map_disjoint (λ s, drop 1 (ids s)) (_sections st) j idx s s0 i);
    try done.
  - apply last_in_tail; [|done]. by eapply scan_section_two.
  - apply last_in_tail; [|done]. by eapply scan_section_two.
Qed.

(** The record is kept by the iteration on any other row. *)
Lemma branch_inv_step (n : nat) (id_map : gmap Z Z) (i : Z) (idx : nat) st st' r
    (row_id : Z) :
  scan_shape n st →
  NoDup (flat_map (λ s, drop 1 (ids s)) (_sections st)) →
  branch_inv i idx st →
  id_map !! ID r = Some row_id → row_id ≠ i →
  scan_row id_map st r = Some st' →
  branch_inv i idx st'.
Proof.
  intros Hshape Hnd Hinv Hid Hne Hrow.
  pose proof Hinv as [(s0 & Hs0 & Hlast0) Hparent Hgap].
  pose proof (lookup_lt_Some _ _ _ Hs0) as Hidx.
  destruct (scan_row_cases _ _ _ _ Hrow) as (row_id' & parent_id & Hid' & Hp & Hcase).
  rewrite Hid in Hid'. injection Hid' as <-.
  destruct Hcase as [Hlast|(lst & Hlast & Hgapped)].
  - rewrite (scan_row_no_gap _ _ _ _ _ Hid Hp Hlast) in Hrow.
    case_decide; injection Hrow as <-; split; cbn [closed parent_section _gap_sections];
      try done.
    + exists s0. split; [by apply lookup_app_l_Some|done].
    + by rewrite lookup_insert_ne.
    + by exists s0.
  - rewrite (scan_row_gap _ _ _ _ _ _ Hid Hp Hlast Hgapped) in Hrow.
    injection Hrow as <-. split; cbn [closed parent_section _gap_sections].
    + exists s0. split; [by apply lookup_app_l_Some|done].
    + rewrite lookup_insert_ne; [done|]. intros ->.
      assert (Hcurr : _sections st !! length (closed st) = Some (curr_section st))
        by (unfold _sections; by apply list_lookup_middle).
      pose proof (branch_unique n i idx st _ _ Hshape Hnd Hinv Hcurr Hlast). lia.
    + intros [Heq%elem_of_singleton|?]%elem_of_union; [lia|done].
Qed.

Section Point.

Variables (db front back : list (Row coord)) (r : Row coord) (st : ScanState).
Hypothesis Hnd : NoDup (ID <$> db).
Hypothesis Hdb : db = front ++ r :: back.
Hypothesis Hcount : child_count db (ID r) ≠ 1%nat.
Hypothesis Hfront :
  foldlM (scan_row (make_id_map db)) (scan_init db) front = Some st.
Hypothesis Hgap : gap_at (make_id_map db) st r = Some false.

Lemma point_row : db !! length front = Some r.
Proof. rewrite Hdb. by apply list_lookup_middle. Qed.

Lemma point_front : take (length front) db = front.
Proof. rewrite Hdb. by rewrite take_app_length. Qed.

(** The iteration on the row of the point closes the section at it. *)
Lemma branch_inv_base st' :
  scan_row (make_id_map db) st r = Some st' →
  branch_inv (Z.of_nat (length front)) (length (closed st)) st'.
Proof.
  intros Hrow.
  pose proof (make_id_map_lookup db _ r Hnd point_row) as Hid.
  unfold gap_at in Hgap.
  destruct (make_id_map db !! P r) as [parent_id|] eqn:Hp; [|done]. simpl in Hgap.
  destruct (last (ids (seed_section parent_id r (curr_section st)))) as [lst|] eqn:Hlast;
    [|done].
  simpl in Hgap. injection Hgap as Hgap'.
  apply bool_decide_eq_false in Hgap'.
  assert (lst = parent_id) as -> by (destruct (decide (parent_id = lst)); [done|tauto]).
  rewrite (scan_row_no_gap _ _ _ _ _ Hid Hp Hlast) in Hrow.
  rewrite decide_True in Hrow.
  2:{ apply (scan_ends_grow _ _ _ _ Hfront). simpl.
      apply elem_of_section_end_points. exists (length front), r.
      split; [done|]. split; [exact point_row|exact Hcount]. }
  injection Hrow as <-. split; cbn [closed parent_section _gap_sections].
  - eexists. split; [by apply list_lookup_middle|]. simpl. apply last_snoc.
  - by rewrite lookup_insert_eq.
  - intros Hin. destruct (scan_shape_prefix db front st Hfront) as [_ _ Hgaps _].
    specialize (Hgaps _ Hin). lia.
Qed.

(** The record holds after every longer prefix of the scan. *)
Lemma branch_inv_prefix (k : nat) stk :
  (length front < k)%nat →
  foldlM (scan_row (make_id_map db)) (scan_init db) (take k db) = Some stk →
  branch_inv (Z.of_nat (length front)) (length (closed st)) stk.
Proof.
  revert stk. induction k as [|k IH]; intros stk Hk Hrun; [lia|].
  destruct (db !! k) as [rk|] eqn:Hrk.
  - rewrite (take_S_r _ _ _ Hrk), foldlM_snoc in Hrun.
    destruct (foldlM _ _ (take k db)) as [mid|] eqn:Hmid; [|done]. simpl in Hrun.
    destruct (decide (k = length front)) as [->|Hne].
    + rewrite point_front, Hfront in Hmid. injection Hmid as <-.
      rewrite point_row in Hrk. injection Hrk as <-. by apply branch_inv_base.
    + apply (branch_inv_step (length db) (make_id_map db) _ _ mid stk rk (Z.of_nat k)).
      * by apply (scan_shape_prefix db (take k db)).
      * rewrite (scan_places_prefix db k mid Hnd Hmid).
        apply NoDup_fmap; [apply Nat2Z.inj'|apply NoDup_seq].
      * apply IH; [lia|done].
      * by apply make_id_map_lookup.
      * lia.
      * done.
  - apply lookup_ge_None in Hrk.
    assert (Htake : take (S k) db = take k db) by (by rewrite !take_ge by lia).
    rewrite Htake in Hrun. apply IH; [|done].
    pose proof (lookup_lt_Some _ _ _ point_row). lia.
Qed.

(** A section that starts with given points is kept by the scan, which only
    appends points to it. *)
Lemma starts_with_step (id_map : gmap Z Z) (i c : Z) st1 st2 r' :
  (∃ s, s ∈ _sections st1 ∧ starts_with i c s) →
  scan_row id_map st1 r' = Some st2 →
  ∃ s, s ∈ _sections st2 ∧ starts_with i c s.
Proof.
  intros (s & Hs & rest & Hids) Hrow.
  destruct (scan_row_cases _ _ _ _ Hrow) as (row_id & parent_id & Hid & Hp & Hcase).
  unfold _sections in *.
  apply elem_of_app in Hs as [Hs | ->%list_elem_of_singleton].
  - exists s. split; [|by exists rest].
    destruct Hcase as [Hlast|(lst & Hlast & Hne)].
    + rewrite (scan_row_no_gap _ _ _ _ _ Hid Hp Hlast) in Hrow.
      case_decide; injection Hrow as <-; cbn [closed curr_section];
        rewrite ?elem_of_app; auto.
    + rewrite (scan_row_gap _ _ _ _ _ _ Hid Hp Hlast Hne) in Hrow.
      injection Hrow as <-. cbn [closed curr_section]. rewrite !elem_of_app. auto.
  - destruct Hcase as [Hlast|(lst & Hlast & Hne)].
    + rewrite (scan_row_no_gap _ _ _ _ _ Hid Hp Hlast) in Hrow.
      rewrite (seed_section_cons _ _ _ _ _ Hids) in Hrow.
      exists (set_ids (ids (curr_section st1) ++ [row_id]) (curr_section st1)). split.
      * case_decide; injection Hrow as <-; cbn [closed curr_section];
          rewrite ?elem_of_app, !list_elem_of_singleton; auto.
      * exists (rest ++ [row_id]). simpl. by rewrite Hids.
    + rewrite (scan_row_gap _ _ _ _ _ _ Hid Hp Hlast Hne) in Hrow.
      injection Hrow as <-. cbn [closed curr_section].
      exists (curr_section st1). split; [|by exists rest].
      rewrite !elem_of_app, !list_elem_of_singleton. auto.
Qed.

(** The iteration on a child of the point puts it in a section that starts
    with the point. *)
Lemma starts_with_child (c : nat) rc stc stc' :
  db !! c = Some rc → P rc = ID r →
  foldlM (scan_row (make_id_map db)) (scan_init db) (take c db) = Some stc →
  scan_row (make_id_map db) stc rc = Some stc' →
  ∃ s, s ∈ _sections stc' ∧ starts_with (Z.of_nat (length front)) (Z.of_nat c) s.
Proof.
  intros Hc Hparent Hprefix Hrow.
  pose proof (make_id_map_lookup db _ rc Hnd Hc) as Hidc.
  pose proof (make_id_map_lookup db _ r Hnd point_row) as Hidr.
  rewrite <- Hparent in Hidr.
  pose proof (lookup_lt_Some _ _ _ Hc) as Hclt.
  destruct (scan_row_cases _ _ _ _ Hrow) as (row_id & parent_id & Hid & Hp & Hcase).
  rewrite Hidc in Hid. injection Hid as <-. rewrite Hidr in Hp. injection Hp as <-.
  unfold _sections. destruct Hcase as [Hlast|(lst & Hlast & Hne)].
  - rewrite (scan_row_no_gap _ _ _ _ _ Hidc Hidr Hlast) in Hrow.
    destruct (ids (curr_section stc)) as [|x l] eqn:Hids.
    + rewrite seed_section_empty in Hrow by done. simpl in Hrow.
      exists {| ids := [Z.of_nat (length front); Z.of_nat c]; ntype := TYPE rc;
                pid := pid (curr_section stc) |}.
      split; [|by exists []].
      case_decide; injection Hrow as <-; cbn [closed curr_section];
        rewrite ?elem_of_app, !list_elem_of_singleton; auto.
    + exfalso. rewrite (seed_section_cons _ _ _ _ _ Hids) in Hlast.
      pose proof (scan_shape_prefix db (take c db) stc Hprefix) as Hshape.
      pose proof (scan_places_prefix db c stc Hnd Hprefix) as Hplaces.
      replace (min c (length db)) with c in Hplaces by lia.
      assert (Hcurr : _sections stc !! length (closed stc) = Some (curr_section stc))
        by (unfold _sections; by apply list_lookup_middle).
      assert (Hin : Z.of_nat (length front) ∈ drop 1 (ids (curr_section stc))).
      { apply last_in_tail; [|done]. by eapply scan_section_two. }
      assert (Hlt : (length front < c)%nat).
      { assert (Hall : Z.of_nat (length front)
                       ∈ flat_map (λ s, drop 1 (ids s)) (_sections stc)).
        { apply list_elem_of_In, in_flat_map. exists (curr_section stc).
          split; apply list_elem_of_In; [by eapply list_elem_of_lookup_2|done]. }
        rewrite Hplaces in Hall.
        apply list_elem_of_fmap in Hall as (y & Hy & [_ Hlt]%elem_of_seq). lia. }
      pose proof (branch_inv_prefix c stc Hlt Hprefix) as Hinv.
      assert (Hnodup : NoDup (flat_map (λ s, drop 1 (ids s)) (_sections stc))).
      { rewrite Hplaces. apply NoDup_fmap; [apply Nat2Z.inj'|apply NoDup_seq]. }
      pose proof (branch_unique _ _ _ stc _ _ Hshape Hnodup Hinv Hcurr Hlast) as Heq.
      destruct Hinv as [(s0 & Hs0 & _) _ _]. apply lookup_lt_Some in Hs0. lia.
  - rewrite (scan_row_gap _ _ _ _ _ _ Hidc Hidr Hlast Hne) in Hrow.
    injection Hrow as <-. cbn [closed curr_section].
    exists {| ids := [Z.of_nat (length front); Z.of_nat c]; ntype := TYPE rc; pid := -1 |}.
    split; [apply elem_of_snoc|]. by exists [].
Qed.

Lemma starts_with_prefix (c : nat) rc (k : nat) stk :
  db !! c = Some rc → P rc = ID r →
  (c < k)%nat →
  foldlM (scan_row (make_id_map db)) (scan_init db) (take k db) = Some stk →
  ∃ s, s ∈ _sections stk ∧ starts_with (Z.of_nat (length front)) (Z.of_nat c) s.
Proof.
  intros Hc Hparent. revert stk. induction k as [|k IH]; intros stk Hk Hrun; [lia|].
  destruct (db !! k) as [rk|] eqn:Hrk.
  - rewrite (take_S_r _ _ _ Hrk), foldlM_snoc in Hrun.
    destruct (foldlM _ _ (take k db)) as [mid|] eqn:Hmid; [|done]. simpl in Hrun.
    destruct (decide (k = c)) as [->|Hne].
    + rewrite Hc in Hrk. injection Hrk as <-. by apply (starts_with_child c rc mid stk).
    + apply (starts_with_step (make_id_map db) _ _ mid stk rk); [|done].
      apply IH; [lia|done].
  - apply lookup_ge_None in Hrk.
    assert (Htake : take (S k) db = take k db) by (by rewrite !take_ge by lia).
    rewrite Htake in Hrun. apply IH; [|done].
    pose proof (lookup_lt_Some _ _ _ Hc). lia.
Qed.

End Point.

(** The resolution keeps the section that ends at the point, ending at it,
    and moves a section that starts with given points to the section it is
    merged with; the other sections end where they ended, or are disabled. *)
Lemma resolve_branch db stf (i : Z) (idx : nat) (secs : list Sec) :
  scan db = Some stf →
  branch_inv i idx stf →
  resolve (parent_section stf) (_gap_sections stf) (_sections stf) = Some secs →
  (∀ j s, secs !! j = Some s →
     ids s = [] ∨ ∃ s0, _sections stf !! j = Some s0 ∧ last (ids s) = last (ids s0))
  ∧ (∃ s, secs !! idx = Some s ∧ ids s ≠ [])
  ∧ (∀ c, (∃ s, s ∈ _sections stf ∧ starts_with i c s) →
          ∃ s, s ∈ secs ∧ starts_with i c s).
Proof.
  intros Hscan [(sidx & Hsidx & Hlastidx) Hparent Hnogap].
  destruct (scan_shape_final db stf Hscan) as [Hclosed (Hcpid & Hclen & Hcids) Hgaps Hparents].
  set (n := length db). set (m := length (_sections stf)).
  assert (Hm : m = S (length (closed stf)))
    by (unfold m, _sections; rewrite length_app; simpl; lia).
  assert (Hinit : ∀ j s, _sections stf !! j = Some s →
            resolved_shape n m s ∧ unresolved_shape s).
  { intros j s Hj. apply list_elem_of_lookup_2 in Hj. unfold _sections in Hj.
    apply elem_of_app in Hj as [Hs | ->%list_elem_of_singleton].
    - destruct (Hclosed s Hs) as (Hp & Hl & Hi).
      split; [|by split; [|right]]. split; [by left|]. split; [lia|done].
    - split; [|done]. split; [by left|]. split; [lia|done]. }
  assert (Hsteps : ∀ k h',
            foldlM (resolve_section (parent_section stf) (_gap_sections stf))
              (_sections stf) (seq 0 k) = Some h' →
            (length h' = m
             ∧ (∀ j s, h' !! j = Some s → resolved_shape n m s)
             ∧ (∀ j s, (k ≤ j)%nat → h' !! j = Some s → unresolved_shape s))
            ∧ (∀ j s, h' !! j = Some s →
                 ids s = []
                 ∨ ∃ s0, _sections stf !! j = Some s0 ∧ last (ids s) = last (ids s0))
            ∧ (∃ s, h' !! idx = Some s ∧ ids s ≠ [])
            ∧ (∀ c, (∃ s, s ∈ _sections stf ∧ starts_with i c s) →
                    ∃ s, s ∈ h' ∧ starts_with i c s)).
  { induction k as [|k IH]; intros h'.
    - intros Hrun. simpl in Hrun. injection Hrun as <-. split; [|split; [|split]].
      + split; [done|]. split; intros j s; [|intros _]; intros Hj; by apply (Hinit j s).
      + intros j s Hj. right. by exists s.
      + exists sidx. split; [unfold _sections; by apply lookup_app_l_Some|].
        intros Hnil. by rewrite Hnil in Hlastidx.
      + done.
    - rewrite seq_S, foldlM_snoc. intros Hrun.
      destruct (foldlM _ _ (seq 0 k)) as [mid|]; [|done]. simpl in Hrun.
      destruct (IH mid eq_refl) as ((Hlen & Hres & Hunres) & Hlasts & Hkept & Hstarts).
      split.
      { apply (resolve_section_shape n m (parent_section stf) (_gap_sections stf) mid h' k);
          try done.
        - intros e j Hj. specialize (Hparents e j Hj). lia.
        - intros g Hg. specialize (Hgaps g Hg). lia. }
      destruct (resolve_section_effect _ _ _ _ _ Hrun) as (sec & p & Hk & Hp & Heffect).
      pose proof (lookup_lt_Some _ _ _ Hk) as Hlt.
      destruct (Hunres k sec (le_n _) Hk) as [Hpid Hids].
      destruct Hkept as (skept & Hskept & Hnonempty).
      destruct Heffect as [[_ ->]|(Hgap & a & bridge & Hpos & Ha & ->)].
      + split; [|split].
        * intros j s. destruct (decide (j = k)) as [->|Hne].
          -- rewrite list_lookup_insert_eq by done. intros [= <-]. simpl.
             by apply (Hlasts k).
          -- rewrite list_lookup_insert_ne by done. apply Hlasts.
        * destruct (decide (idx = k)) as [->|Hne].
          -- exists (set_pid p sec). rewrite list_lookup_insert_eq by done.
             split; [done|]. simpl. congruence.
          -- exists skept. by rewrite list_lookup_insert_ne.
        * intros c Hc. destruct (Hstarts c Hc) as (s & [j Hj]%list_elem_of_lookup & Hs).
          destruct (decide (j = k)) as [->|Hne].
          -- exists (set_pid p sec). split.
             ++ apply (list_elem_of_lookup_2 _ k). by rewrite list_lookup_insert_eq.
             ++ rewrite Hk in Hj. by injection Hj as <-.
          -- exists s. split; [|done]. apply (list_elem_of_lookup_2 _ j).
             by rewrite list_lookup_insert_ne.
      + pose proof (lookup_lt_Some _ _ _ Ha) as Hla. rewrite length_insert in Hla.
        pose proof (Hgaps p Hgap) as Hprange.
        rewrite <- (Z2Nat.id p) in Hpos by lia.
        apply py_position_of_nat in Hpos as [-> _].
        assert (Hidx : Z.to_nat p ≠ idx).
        { intros <-. apply Hnogap. by rewrite Z2Nat.id by lia. }
        destruct (ids sec) as [|first [|b rest]] eqn:Hsec;
          [injection Hp as <-; lia|destruct Hids as [?|Hl]; [done|simpl in Hl; lia]|].
        assert (Hself : first ≠ i).
        { intros ->. rewrite Hparent in Hp. injection Hp as <-. by apply Hnogap. }
        split; [|split].
        * intros j s. destruct (decide (j = Z.to_nat p)) as [->|Hja].
          { rewrite list_lookup_insert_eq by (by rewrite length_insert).
            intros [= <-]. by left. }
          rewrite list_lookup_insert_ne by done.
          destruct (decide (j = k)) as [->|Hjk];
            [|rewrite list_lookup_insert_ne by done; apply Hlasts].
          rewrite list_lookup_insert_eq by done. intros [= <-]. simpl. right.
          destruct (Hlasts k sec Hk) as [Hnil|(s0 & Hs0 & Hlast0)];
            [by rewrite Hsec in Hnil|].
          exists s0. split; [done|]. rewrite <- Hlast0, Hsec, last_app. simpl.
          destruct (last (b :: rest)) eqn:Hrest; [done|by apply last_None in Hrest].
        * destruct (decide (idx = k)) as [->|Hne].
          -- eexists. rewrite list_lookup_insert_ne by done.
             rewrite list_lookup_insert_eq by done. split; [done|]. simpl.
             intros Hnil. apply app_eq_nil in Hnil as [_ Hnil]. done.
          -- exists skept. by rewrite !list_lookup_insert_ne.
        * intros c Hc. destruct (Hstarts c Hc) as (s & [j Hj]%list_elem_of_lookup & Hs).
          destruct (decide (j = k)) as [->|Hjk].
          { rewrite Hk in Hj. injection Hj as <-. destruct Hs as [rest' Hs].
            rewrite Hsec in Hs. injection Hs as -> _ _. done. }
          destruct (decide (j = Z.to_nat p)) as [->|Hja].
          -- rewrite list_lookup_insert_ne in Ha by done.
             rewrite Hj in Ha. injection Ha as <-.
             eexists. split.
             ++ apply (list_elem_of_lookup_2 _ k).
                rewrite list_lookup_insert_ne by done.
                by rewrite list_lookup_insert_eq.
             ++ destruct Hs as [rest' Hs]. exists (rest' ++ (b :: rest)).
                simpl. by rewrite Hs.
          -- exists s. split; [|done]. apply (list_elem_of_lookup_2 _ j).
             by rewrite !list_lookup_insert_ne. }
  unfold resolve. intros Hrun. by destruct (Hsteps _ _ Hrun) as (_ & ? & ? & ?).
Qed.

(** In a table without discontinuity the scan finds no gap at any row. *)
Lemma contiguous_no_gap db front r back st :
  NoDup (ID <$> db) → contiguous db →
  db = front ++ r :: back →
  foldlM (scan_row (make_id_map db)) (scan_init db) front = Some st →
  is_Some (make_id_map db !! P r) →
  gap_at (make_id_map db) st r = Some false.
Proof.
  intros Hnd Hcont Hdb Hfront [parent_id Hp].
  assert (Hk : db !! length front = Some r) by (rewrite Hdb; by apply list_lookup_middle).
  assert (Hinv : scan_inv db (length front) st).
  { pose proof (scan_inv_prefix db (length front) st Hnd Hcont) as Hpre.
    replace (take (length front) db) with front in Hpre
      by (rewrite Hdb; by rewrite take_app_length).
    replace (min (length front) (length db)) with (length front) in Hpre
      by (apply lookup_lt_Some in Hk; lia).
    by apply Hpre. }
  destruct (scan_inv_seed db _ st r parent_id Hnd Hcont Hk Hinv Hp) as [Hlast _].
  unfold gap_at. rewrite Hp. simpl. rewrite Hlast. simpl.
  by rewrite bool_decide_eq_false_2 by tauto.
Qed.

(** C8, as the code has it.  Take a table with distinct identifiers on which
    [extract_sections] returns, and a point with at least two children at
    whose row the scan finds no gap: coming from the state [st] reached on
    the rows before it, the parent of the point is the last point of the
    current section, or the current section is empty.  Then exactly one
    section of the result has the point as its last point; and for each
    child of the point, a section of the result starts with the point
    followed by the child, so that the point is the first point of more than
    one section, also when the table has discontinuities elsewhere. *)
Theorem branch_point_sections db front r back st (secs : list Sec) :
  NoDup (ID <$> db) →
  db = front ++ r :: back →
  (2 ≤ child_count db (ID r))%nat →
  foldlM (scan_row (make_id_map db)) (scan_init db) front = Some st →
  gap_at (make_id_map db) st r = Some false →
  extract_sections db = Some secs →
  (∃ (j : nat) s,
      secs !! j = Some s ∧ last (ids s) = Some (Z.of_nat (length front))
      ∧ ∀ (j' : nat) s', secs !! j' = Some s' →
          last (ids s') = Some (Z.of_nat (length front)) → j' = j)
  ∧ (∀ (c : nat) rc, db !! c = Some rc → P rc = ID r →
       ∃ s rest, s ∈ secs ∧ ids s = Z.of_nat (length front) :: Z.of_nat c :: rest)
  ∧ (∃ s1 s2,
      s1 ≠ s2 ∧ s1 ∈ secs ∧ s2 ∈ secs
      ∧ head (ids s1) = Some (Z.of_nat (length front))
      ∧ head (ids s2) = Some (Z.of_nat (length front))).
Proof.
  intros Hnd Hdb Hcount Hfront Hgap Hrun.
  unfold extract_sections in Hrun.
  destruct (scan db) as [stf|] eqn:Hscan; [|done]. simpl in Hrun.
  assert (Hfinal : foldlM (scan_row (make_id_map db)) (scan_init db)
                     (take (length db) db) = Some stf)
    by (by rewrite take_ge).
  assert (Hone : child_count db (ID r) ≠ 1%nat) by lia.
  assert (Hlen : (length front < length db)%nat)
    by (rewrite Hdb, length_app; simpl; lia).
  pose proof (branch_inv_prefix db front back r st Hnd Hdb Hone Hfront Hgap
                (length db) stf Hlen Hfinal) as Hinv.
  pose proof (scan_shape_final db stf Hscan) as Hshape.
  assert (Hnodup : NoDup (flat_map (λ s, drop 1 (ids s)) (_sections stf))).
  { rewrite (scan_places_prefix db (length db) stf Hnd Hfinal).
    apply NoDup_fmap; [apply Nat2Z.inj'|apply NoDup_seq]. }
  destruct (resolve_branch db stf _ _ secs Hscan Hinv Hrun) as (Hlasts & Hkept & Hstarts).
  assert (Hchild : ∀ (c : nat) rc, db !! c = Some rc → P rc = ID r →
            ∃ s rest, s ∈ secs ∧ ids s = Z.of_nat (length front) :: Z.of_nat c :: rest).
  { intros c rc Hc Hparent.
    destruct (Hstarts (Z.of_nat c)) as (s & Hs & rest & Hids).
    - apply (starts_with_prefix db front back r st Hnd Hdb Hone Hfront Hgap
               c rc (length db) stf Hc Hparent); [|done].
      by apply lookup_lt_Some in Hc.
    - by exists s, rest. }
  split; [|split; [exact Hchild|]].
  - destruct Hkept as (s & Hs & Hnonempty).
    pose proof Hinv as [(s0 & Hs0 & Hlast0) _ _].
    exists (length (closed st)), s. split; [done|]. split.
    + destruct (Hlasts _ _ Hs) as [?|(s0' & Hs0' & ->)]; [done|].
      unfold _sections in Hs0'. rewrite (lookup_app_l_Some _ _ _ _ Hs0) in Hs0'.
      by injection Hs0' as <-.
    + intros j' s' Hj' Hlast'.
      destruct (Hlasts _ _ Hj') as [Hnil|(s0' & Hs0' & Heq)]; [by rewrite Hnil in Hlast'|].
      rewrite Heq in Hlast'.
      by apply (branch_unique (length db) _ _ stf j' s0' Hshape Hnodup Hinv).
  - destruct (filter_two (λ row, P row = ID r) db) as (j1 & j2 & r1 & r2 & Hne & H1 & H2 & Hp1 & Hp2);
      [exact Hcount|].
    destruct (Hchild j1 r1 H1 Hp1) as (s1 & rest1 & Hs1 & Hids1).
    destruct (Hchild j2 r2 H2 Hp2) as (s2 & rest2 & Hs2 & Hids2).
    exists s1, s2. split.
    + intros ->. rewrite Hids1 in Hids2. injection Hids2 as Heq _. lia.
    + repeat split; try done; [by rewrite Hids1|by rewrite Hids2].
Qed.

End BranchPoints.

Lemma branch_point_sections_witness :
  ∃ secs,
    extract_sections gap_table = Some secs
    ∧ (∃ (j : nat) s,
          secs !! j = Some s ∧ last (ids s) = Some 0
          ∧ ∀ (j' : nat) s', secs !! j' = Some s' → last (ids s') = Some 0 → j' = j)
    ∧ (∀ (c : nat) rc, gap_table !! c = Some rc → P rc = 0 →
         ∃ s rest, s ∈ secs ∧ ids s = 0 :: Z.of_nat c :: rest)
    ∧ (∃ s1 s2,
          s1 ≠ s2 ∧ s1 ∈ secs ∧ s2 ∈ secs
          ∧ head (ids s1) = Some 0 ∧ head (ids s2) = Some 0).
Proof.
  eexists. split; [vm_compute; reflexivity|].
  eapply (branch_point_sections gap_table [] (pt 0 3 (-1))
            [pt 1 3 0; pt 2 3 0; pt 3 3 2; pt 4 3 1] (scan_init gap_table)).
  - apply (bool_decide_unpack _). vm_compute. exact I.
  - reflexivity.
  - vm_compute. lia.
  - reflexivity.
  - vm_compute. reflexivity.
  - vm_compute. reflexivity.
Defined.

(** When the point with two children is itself read at a gap, the section
    opened there stays open: in the table below the next row runs through
    the branch point 3, which ends no section, and the section of its second
    child finds no parent section, so that [extract_sections] raises. *)
Lemma branch_point_after_gap_raises :
  child_count [pt 0 3 (-1); pt 1 3 0; pt 2 3 0; pt 3 3 1; pt 4 3 3; pt 5 3 3] 3 = 2%nat
  ∧ extract_sections [pt 0 3 (-1); pt 1 3 0; pt 2 3 0; pt 3 3 1; pt 4 3 3; pt 5 3 3]
    = None.
Proof. split; vm_compute; reflexivity. Qed.
